(** * em: tree linearization, context chains and the sync queue

    A shallow embedding of three parts of the outliner:
    - [SyncQueue]: [src/redux-middleware/syncQueue.ts]
      ([mergeBatch], [syncBatch], [flushDeletes], [flushQueue]);
    - [Chain]: [src/selectors/chain.ts] ([chain]);
    - [Layout]: the LayoutTree component ([linearizeTree] and the positioning
      pass of [LayoutTree]).

    JavaScript values are modelled as follows: an object used as an index is a
    [gmap string _]; a field that may be [undefined] is an [option]; an array
    is a [list]; integers are [Z]; pixel quantities are exact rationals [Q]
    (rounding of IEEE doubles is not modelled). *)

From Stdlib Require Import ZArith QArith Qminmax Lia.
From stdpp Require Import base option list sorting gmap strings.

Local Open Scope Z_scope.

(** ** Errors and fuel *)

(** A call either returns, throws a [TypeError] (a property read on
    [undefined]), or exhausts the recursion budget of the model. *)
Inductive Res (A : Type) : Type :=
| Ok (a : A)
| TypeError
| OutOfFuel.
Arguments Ok {A} a.
Arguments TypeError {A}.
Arguments OutOfFuel {A}.

Definition bindRes {A B} (r : Res A) (f : A -> Res B) : Res B :=
  match r with
  | Ok a => f a
  | TypeError => TypeError
  | OutOfFuel => OutOfFuel
  end.

Declare Scope res_scope.
Delimit Scope res_scope with res.
Notation "'do' x <- r ; k" := (bindRes r (fun x => k))
  (at level 10, x pattern, r at level 100, k at level 200) : res_scope.

(** JavaScript truthiness of an optional boolean ([undefined] is falsy). *)
Definition truthy (b : option bool) : bool := default false b.

(** [x !== false]. *)
Definition notFalse (b : option bool) : bool := default true b.

(* ===================================================================== *)
(** * The sync queue *)
(* ===================================================================== *)

Module SyncQueue.

Section Batches.

(** Payload types of the store that the middleware only copies. *)
Context {Lexeme ParentEntry RecentEntry Child : Type}.

(** An entry of [pendingDeletes]: [{ context, child }]. *)
Record PendingDelete := {
  context : list string;
  child : Child;
}.

(** [SyncBatch]; every field may be absent. The object [{}] is the batch
    with no field. *)
Record SyncBatch := {
  thoughtIndexUpdates : option (gmap string Lexeme);
  contextIndexUpdates : option (gmap string ParentEntry);
  recentlyEdited : option (gmap string RecentEntry);
  pendingDeletes : option (list PendingDelete);
  updates : option (gmap string string);
  local : option bool;
  remote : option bool;
}.

Definition emptyObject : SyncBatch :=
  {| thoughtIndexUpdates := None; contextIndexUpdates := None;
     recentlyEdited := None; pendingDeletes := None; updates := None;
     local := None; remote := None |}.

(** [{ ...o }] for a possibly undefined object [o]. *)
Definition spread {V} (o : option (gmap string V)) : gmap string V :=
  default ∅ o.

(** [{ ...a, ...b }]: keys of [b] overwrite keys of [a]. *)
Definition spread2 {V} (a b : option (gmap string V)) : gmap string V :=
  spread b ∪ spread a.

(** One key of an object, when present. *)
Definition hasKey {V} (o : option V) : nat :=
  match o with Some _ => 1 | None => 0 end.

(** [Object.keys(batch).length]. *)
Definition keysCount (b : SyncBatch) : nat :=
  (hasKey (thoughtIndexUpdates b) + hasKey (contextIndexUpdates b)
   + hasKey (recentlyEdited b) + hasKey (pendingDeletes b)
   + hasKey (updates b) + hasKey (local b) + hasKey (remote b))%nat.

(** [mergeBatch]. The accumulator is tested for truthiness by the source,
    so it is optional here; an object, even [{}], is truthy. *)
Definition mergeBatch (accum : option SyncBatch) (batch : SyncBatch) : SyncBatch :=
  match accum with
  | Some accum =>
      {| contextIndexUpdates :=
           Some (spread2 (contextIndexUpdates accum) (contextIndexUpdates batch));
         thoughtIndexUpdates :=
           Some (spread2 (thoughtIndexUpdates accum) (thoughtIndexUpdates batch));
         recentlyEdited :=
           Some (spread2 (recentlyEdited accum) (recentlyEdited batch));
         pendingDeletes :=
           Some (default [] (pendingDeletes accum) ++ default [] (pendingDeletes batch));
         updates := Some (spread2 (updates accum) (updates batch));
         local := Some (notFalse (local batch));
         remote := Some (notFalse (remote batch)) |}
  | None => batch
  end.

(** [batches.reduce(mergeBatch, {} as SyncBatch)]. *)
Definition mergeAll (batches : list SyncBatch) : SyncBatch :=
  fold_left (fun accum batch => mergeBatch (Some accum) batch) batches emptyObject.

(** ** Actions and thunks *)

Inductive Depth := Finite (n : nat) | Infinity.

(** What reaches [dispatch]. [pull] and [sync] are action creators of the
    persistence interface; their bodies are not part of the middleware. *)
Inductive Action :=
| pull (pending : gmap string (list string)) (maxDepth : Depth)
| existingThoughtDelete (ctx : list string) (thoughtRanked : Child)
| sync (thoughtUpdates : option (gmap string Lexeme))
       (contextUpdates : option (gmap string ParentEntry))
       (recent : option (gmap string RecentEntry))
       (toLocal toRemote : bool)
       (upd : option (gmap string string)).

(** The part of the store the middleware reads. *)
Record State := { syncQueue : list SyncBatch }.

(** An async thunk [(dispatch, getState) => ...] as a tree of its effects.
    [DispatchThunk t k] is [dispatch(t)] whose promise is dropped:
    [t] runs until its first [await], then [k] continues.
    [AwaitDispatch a k] is [await dispatch(a)]: [a] is dispatched, and [k]
    is resumed in a later turn of the event loop, once the promise has
    been fulfilled. *)
Inductive Thunk :=
| Done
| GetState (k : State -> Thunk)
| Dispatch (a : Action) (k : Thunk)
| DispatchThunk (t : Thunk) (k : Thunk)
| AwaitDispatch (a : Action) (k : Thunk).

(** [syncBatch]. *)
Definition syncBatch (batch : SyncBatch) : Action :=
  sync (thoughtIndexUpdates batch) (contextIndexUpdates batch)
       (recentlyEdited batch) (notFalse (local batch)) (notFalse (remote batch))
       (updates batch).

Section Flush.

(** [hashContext] is not among the sources. *)
Variable hashContext : list string -> string.

(** Modelled from the spec: [keyValueBy] builds the index of pending
    contexts, one entry per pending delete keyed by the hash of its
    context ("a pending delete for child c under context [a] triggers a
    pull for {a: [a]}"); a later entry with the same key replaces an
    earlier one. *)
Definition keyValueBy (pds : list PendingDelete) : gmap string (list string) :=
  fold_left (fun accum pd => <[hashContext (context pd) := context pd]> accum) pds ∅.

(** [pendingDeletes.forEach(({ context, child }) => dispatch(...))]
    followed by [k]. *)
Definition forEachDelete (pds : list PendingDelete) (k : Thunk) : Thunk :=
  fold_right (fun pd k => Dispatch (existingThoughtDelete (context pd) (child pd)) k) k pds.

(** [flushDeletes]. *)
Definition flushDeletes : Thunk :=
  GetState (fun st =>
    let pendingDeletes :=
      concat (map (fun batch => default [] (pendingDeletes batch)) (syncQueue st)) in
    if (0 <? length pendingDeletes)%nat then
      let pending := keyValueBy pendingDeletes in
      AwaitDispatch (pull pending Infinity) (forEachDelete pendingDeletes Done)
    else Done).

(** [x && dispatch(a)] as an element of the [Promise.all] array. *)
Definition dispatchIf (c : bool) (a : Action) (k : Thunk) : Thunk :=
  if c then Dispatch a k else k.

(** [flushQueue]. *)
Definition flushQueue : Thunk :=
  GetState (fun st =>
    let syncQueue := syncQueue st in
    if (length syncQueue =? 0)%nat then Done
    else
      DispatchThunk flushDeletes
        (let localBatches := filter (fun batch => truthy (local batch) = true) syncQueue in
         let remoteBatches := filter (fun batch => truthy (remote batch) = true) syncQueue in
         let localMergedBatch := mergeAll localBatches in
         let remoteMergedBatch := mergeAll remoteBatches in
         dispatchIf (0 <? keysCount localMergedBatch)%nat (syncBatch localMergedBatch)
           (dispatchIf (0 <? keysCount remoteMergedBatch)%nat (syncBatch remoteMergedBatch)
              Done))).

(** ** Run-to-completion semantics *)

(** The store's reducer and the outcome of an awaited dispatch. *)
Variable reducer : State -> Action -> State.
Variable fulfilled : Action -> bool.

(** One turn: the thunk runs without interruption; every [await] parks
    its continuation together with the awaited action. *)
Fixpoint turn (t : Thunk) (s : State) : list Action * State * list (Action * Thunk) :=
  match t with
  | Done => ([], s, [])
  | GetState k => turn (k s) s
  | Dispatch a k =>
      let '(tr, s', parked) := turn k (reducer s a) in (a :: tr, s', parked)
  | DispatchThunk t' k =>
      let '(tr1, s1, parked1) := turn t' s in
      let '(tr2, s2, parked2) := turn k s1 in
      (tr1 ++ tr2, s2, parked1 ++ parked2)
  | AwaitDispatch a k => ([a], reducer s a, [(a, k)])
  end.

(** The event loop: parked continuations are resumed in order, each in a
    turn of its own; the continuation of a rejected promise is dropped. *)
Fixpoint eventLoop (fuel : nat) (parked : list (Action * Thunk)) (s : State)
  : option (list Action) :=
  match parked with
  | [] => Some []
  | (a, k) :: rest =>
      match fuel with
      | O => None
      | S fuel' =>
          if fulfilled a then
            let '(tr, s', parked') := turn k s in
            tr' ← eventLoop fuel' (rest ++ parked') s';
            Some (tr ++ tr')
          else eventLoop fuel' rest s
      end
  end.

(** Every action dispatched by [dispatch(t)], in order of dispatch. *)
Definition dispatched (fuel : nat) (t : Thunk) (s : State) : option (list Action) :=
  let '(tr, s', parked) := turn t s in
  tr' ← eventLoop fuel parked s';
  Some (tr ++ tr').

End Flush.

(** ** Properties of merged indexes and of dispatch traces *)

(** [m] has the keys of [a] and of [b], with the value of [b] where both
    have one. *)
Definition lastWriteWins {V} (a b m : gmap string V) : Prop :=
  dom m = dom a ∪ dom b
  ∧ (∀ k v, b !! k = Some v → m !! k = Some v)
  ∧ (∀ k, b !! k = None → m !! k = a !! k).

Definition isSync (a : Action) : bool :=
  match a with sync _ _ _ _ _ _ => true | _ => false end.

Definition isPull (a : Action) : bool :=
  match a with pull _ _ => true | _ => false end.

Definition isDelete (a : Action) : bool :=
  match a with existingThoughtDelete _ _ => true | _ => false end.

(** Every pull and every finalizing delete is dispatched before every
    sync. *)
Definition deletesResolvedFirst (trace : list Action) : Prop :=
  ∀ i j a b, trace !! i = Some a → trace !! j = Some b →
    isPull a || isDelete a = true → isSync b = true → (i < j)%nat.

(** The three parts of the trace of a flush. *)
Definition allPendingDeletes (q : list SyncBatch) : list PendingDelete :=
  concat (map (fun batch => default [] (pendingDeletes batch)) q).

Definition pullPart (hashContext : list string -> string) (q : list SyncBatch)
  : list Action :=
  match allPendingDeletes q with
  | [] => []
  | pds => [pull (keyValueBy hashContext pds) Infinity]
  end.

Definition syncOf (batches : list SyncBatch) : list Action :=
  match batches with
  | [] => []
  | _ => [syncBatch (mergeAll batches)]
  end.

Definition syncPart (q : list SyncBatch) : list Action :=
  syncOf (filter (fun batch => truthy (local batch) = true) q)
  ++ syncOf (filter (fun batch => truthy (remote batch) = true) q).

Definition deletePart (hashContext : list string -> string) (fulfilled : Action -> bool)
    (q : list SyncBatch) : list Action :=
  match allPendingDeletes q with
  | [] => []
  | pds =>
      if fulfilled (pull (keyValueBy hashContext pds) Infinity)
      then map (fun pd => existingThoughtDelete (context pd) (child pd)) pds
      else []
  end.

End Batches.

Arguments SyncBatch : clear implicits.
Arguments PendingDelete : clear implicits.
Arguments Action : clear implicits.
Arguments Thunk : clear implicits.
Arguments State : clear implicits.

(** ** An example queue *)

(** One batch bound for the local store that edits [x] and marks child [c]
    of context [a] for deletion. *)
Definition editAndDelete : SyncBatch string string string string :=
  {| thoughtIndexUpdates := Some {[ "x"%string := "v1"%string ]};
     contextIndexUpdates := None;
     recentlyEdited := None;
     pendingDeletes := Some [ {| context := ["a"%string]; child := "c"%string |} ];
     updates := None;
     local := Some true;
     remote := Some false |}.

Definition exampleState : State string string string string :=
  {| syncQueue := [editAndDelete] |}.

(** Batches with only a destination flag. *)
Definition flagged (l r : option bool) : SyncBatch string string string string :=
  {| thoughtIndexUpdates := None; contextIndexUpdates := None; recentlyEdited := None;
     pendingDeletes := None; updates := None; local := l; remote := r |}.

End SyncQueue.

(* ===================================================================== *)
(** * Context chains *)
(* ===================================================================== *)

(** Modelled from the spec: [head] of a path or context is its terminal
    element ("the last segment's terminal thought"); [undefined] on the empty
    array. *)
Definition head {A} (l : list A) : option A := last l.

(** [arr.findIndex(p)], [-1] when no element satisfies [p]. *)
Fixpoint findIndexFrom {A} (p : A -> bool) (i : Z) (l : list A) : Z :=
  match l with
  | [] => -1
  | x :: l' => if p x then i else findIndexFrom p (i + 1) l'
  end.

Definition findIndex {A} (p : A -> bool) (l : list A) : Z := findIndexFrom p 0 l.

(** [arr.slice(start)]: a negative [start] counts from the end. *)
Definition slice {A} (start : Z) (l : list A) : list A :=
  let len := Z.of_nat (length l) in
  let k := if start <? 0 then Z.max (len + start) 0 else Z.min start len in
  drop (Z.to_nat k) l.

(** The non-mutating counterpart of [Array.prototype.splice(start, deleteCount)]:
    the array without [deleteCount] elements from index [start] on. *)
Definition pureSplice {A} (l : list A) (start deleteCount : nat) : list A :=
  take start l ++ drop (start + deleteCount) l.

Module Chain.

Section Defs.

(** Ranks are only copied; the store is only passed on. *)
Context {Rank State : Type}.

(** An element of a [SimplePath]: [{ value, rank }]. *)
Record Child := {
  value : string;
  rank : Rank;
}.

Definition SimplePath := list Child.

(** A context of a lexeme as [getContextsSortedAndRanked] returns it:
    [{ context, rank }]. *)
Record ThoughtContext := {
  context : list string;
  contextRank : Rank;
}.

(** Helpers that are not among the sources. [normalizeThought] is also
    applied to [head(child.context)], which is [undefined] for an empty
    context. [splice] is the util called as [splice(thoughts, 1, 1)]. *)
Variable normalizeThought : option string -> string.
Variable getContextsSortedAndRanked : State -> string -> list ThoughtContext.
Variable splice : SimplePath -> nat -> nat -> SimplePath.

(** The callback of [path.findIndex]. *)
Definition isPivot (pivot child : Child) : bool :=
  bool_decide (normalizeThought (Some (value child)) = normalizeThought (Some (value pivot))).

(** The callback of [contexts.find]. *)
Definition inContextOf (first : Child) (c : ThoughtContext) : bool :=
  bool_decide (normalizeThought (head (context c)) = normalizeThought (Some (value first))).

(** The last array of the concatenation: [append], its first element
    re-ranked when a context matches. *)
Definition reRanked (first : Child) (append : SimplePath)
    (appendedThoughtInContext : option ThoughtContext) : SimplePath :=
  match appendedThoughtInContext with
  | Some c => {| value := value first; rank := contextRank c |} :: drop 1 append
  | None => append
  end.

(** [.map((thoughts, i) => (i > 0 ? splice(thoughts, 1, 1) : thoughts)).flat()]. *)
Definition removeOverlap (segments : list SimplePath) : SimplePath :=
  concat (imap (fun i thoughts => if (0 <? i)%nat then splice thoughts 1%nat 1%nat else thoughts)
               segments).

(** [chain]. A [contextChain] that is [undefined] is the empty one here. *)
Definition chain (state : State) (contextChain : list SimplePath) (path : SimplePath)
  : Res SimplePath :=
  match last contextChain with
  | None => Ok path
  | Some lastSegment =>
      match head lastSegment with
      | None => TypeError
      | Some pivot =>
          let i := findIndex (isPivot pivot) path in
          let append := slice (i - 1) path in
          let contexts := getContextsSortedAndRanked state (value pivot) in
          match append, contexts with
          | [], _ :: _ => TypeError
          | [], [] => Ok (removeOverlap (contextChain ++ [append]))
          | first :: _, _ =>
              let appendedThoughtInContext := List.find (inContextOf first) contexts in
              Ok (removeOverlap
                    (contextChain ++ [reRanked first append appendedThoughtInContext]))
          end
      end
  end.

End Defs.

Arguments Child : clear implicits.
Arguments ThoughtContext : clear implicits.
Arguments SimplePath : clear implicits.

(** ** The merge as the specification words it *)

(** "Concatenate all chain segments with the append tail, and for every
    segment after the first, drop its first element before flattening",
    the append tail being the path "from one position before" the pivot
    match at index [i]. *)
Definition chainAsSpecified {Rank} (contextChain : list (SimplePath Rank))
    (path : SimplePath Rank) (i : Z) : SimplePath Rank :=
  concat (imap (fun k thoughts => if (0 <? k)%nat then drop 1 thoughts else thoughts)
               (contextChain ++ [slice (i - 1) path])).

(** ** An example *)

Definition thoughtRanked (v : string) : Child Z := {| value := v; rank := 0 |}.

(** Values are compared as they are. *)
Definition sameValue (v : option string) : string := default ""%string v.

(** A store in which no value has a context. *)
Definition noContexts (_ : unit) (_ : string) : list (ThoughtContext Z) := [].

(** A store in which every value has the context [[x; a]] at rank [7]. *)
Definition oneContext (_ : unit) (_ : string) : list (ThoughtContext Z) :=
  [ {| context := ["x"; "a"]%string; contextRank := 7 |} ].

Definition ab : SimplePath Z := [thoughtRanked "a"; thoughtRanked "b"].
Definition abc : SimplePath Z := [thoughtRanked "a"; thoughtRanked "b"; thoughtRanked "c"].

(** The index at which the pivot [b] of the chain [[a; b]] occurs in
    [a; b; c]. *)
Definition findIndex_pivot_example : Z :=
  findIndex (isPivot sameValue (thoughtRanked "b")) abc.

End Chain.

(* ===================================================================== *)
(** * LayoutTree *)
(* ===================================================================== *)

Module Layout.

Definition ThoughtId := string.

(** [Path] and [SimplePath]: arrays of thought ids. *)
Definition Path := list ThoughtId.

(** [React.CSSProperties] and [LazyEnv] as indexes. *)
Definition Style := gmap string string.
Definition LazyEnv := gmap string ThoughtId.

(** A thought record. *)
Record Thought := {
  id : ThoughtId;
  value : string;
  rank : Z;
  parentId : ThoughtId;
  childrenMap : list ThoughtId;
}.

(** The store. [linearizeTree] reads [expanded], [expandHoverDownPaths] and
    [cursor] itself and everything else through selectors. *)
Record State := {
  thoughtIndex : gmap string Thought;
  lexemeIndex : gmap string (list ThoughtId);
  contextViews : gmap string bool;
  expanded : gmap string Path;
  expandHoverDownPaths : gmap string Path;
  cursor : option Path;
}.

(** The selectors and utils imported by the component; their sources are
    not part of the component. *)
Class Selectors := {
  HOME_PATH : Path;
  hashPath : Path -> string;
  isRoot : Path -> bool;
  getThoughtById : State -> ThoughtId -> option Thought;
  simplifyPath : State -> Path -> Path;
  isContextViewActive : State -> Path -> bool;
  getContextsSortedAndRanked : State -> string -> list Thought;
  getChildrenRanked : State -> ThoughtId -> list Thought;
  getChildren : State -> ThoughtId -> list Thought;
  childrenFilterPredicate : State -> Path -> Thought -> bool;
  hasChildren : State -> ThoughtId -> bool;
  findDescendant : State -> ThoughtId -> string -> option ThoughtId;
  getStyle : State -> option ThoughtId -> option Style;
  attributeEquals : State -> ThoughtId -> string -> string -> bool;
  rootedParentOf : State -> Path -> Path;
  thoughtToPath : State -> ThoughtId -> Path;
  parseLet : State -> Path -> LazyEnv;
  appendToPathMemo : Path -> ThoughtId -> Path;
  equalPath : Path -> option Path -> bool;
  safeRefMerge : option Style -> option Style -> option Style -> option Style;
}.

(** [head(path)] as a thought id; [undefined] prints as the empty string. *)
Definition headId (p : Path) : ThoughtId := default ""%string (head p).

(** [_.pick(style, props)]. *)
Definition pick (o : option Style) (props : list string) : option Style :=
  Some (filter (fun kv => kv.1 ∈ props) (default ∅ o)).

Definition ACCUM_STYLE_PROPERTIES : list string := ["marginLeft"; "paddingLeft"]%string.

(** [crossContextualKey]. *)
Definition crossContextualKey (contextChain : option (list Path)) (id : ThoughtId) : string :=
  (String.concat "" (map headId (default [] contextChain)) +:+ "|" +:+ id)%string.

(** 1st pass: [TreeThought]. *)
Record TreeThought := {
  belowCursor : bool;
  depth : Z;
  env : option LazyEnv;
  grandparentKey : string;
  indexChild : Z;
  indexDescendant : Z;
  isTableCol1 : bool;
  isTableCol2 : bool;
  key : string;
  leaf : bool;
  parentKey : string;
  path : Path;
  prevChild : option Thought;
  showContexts : bool;
  simplePath : Path;
  style : option Style;
  thought : Thought;
  visibleChildrenKeys : option (list string);
}.

(** The options object of [linearizeTree]. *)
Module Args.
Record t := {
  basePath : option Path;
  belowCursor : option bool;
  contextId : option ThoughtId;
  contextChain : option (list Path);
  depth : Z;
  env : option LazyEnv;
  indexDescendant : Z;
  styleAccum : option Style;
  styleFromGrandparent : option Style;
}.

(** The default value of the parameter: [{ depth: 0, indexDescendant: 0 }]. *)
Definition default : t :=
  {| basePath := None; belowCursor := None; contextId := None; contextChain := None;
     depth := 0; env := None; indexDescendant := 0;
     styleAccum := None; styleFromGrandparent := None |}.
End Args.

(** [array.reduce((accum, x, i) => ..., init)] with a callback that may throw. *)
Fixpoint reduceFrom {A B} (f : B -> A -> nat -> Res B) (i : nat) (l : list A) (accum : B)
  : Res B :=
  match l with
  | [] => Ok accum
  | x :: l' => bindRes (f accum x i) (reduceFrom f (S i) l')
  end.

Section Linearize.

Context `{Selectors}.

Local Open Scope res_scope.

(** The gate at the top of [linearizeTree]: the path is the root, expanded,
    or expanded by hovering. *)
Definition isVisible (state : State) (path : Path) : bool :=
  isRoot path
  || bool_decide (is_Some (expanded state !! hashPath path))
  || bool_decide (is_Some (expandHoverDownPaths state !! hashPath path)).

(** [contextId || thoughtId]: the empty string is falsy. *)
Definition orThoughtId (contextId : option ThoughtId) (thoughtId : ThoughtId) : ThoughtId :=
  match contextId with
  | Some c => if bool_decide (c = ""%string) then thoughtId else c
  | None => thoughtId
  end.

(** The callback of [filteredChildren.reduce]. The accumulator is paired
    with [belowCursor], the variable of the enclosing call that the
    callback assigns. [linearize] is the recursive call. *)
Definition visitChild (linearize : Args.t -> Res (list TreeThought))
    (state : State) (a : Args.t)
    (path simplePath : Path) (contextViewActive : bool)
    (contextChainNew : option (list Path)) (filteredChildren : list Thought)
    (styleChildren : option Style) (grandchildrenAttributeId : option ThoughtId)
    (style : option Style)
    (acc : list TreeThought * option bool) (filteredChild : Thought) (i : nat)
  : Res (list TreeThought * option bool) :=
  let '(accum, belowCursor) := acc in
  let child :=
    if contextViewActive then getThoughtById state (parentId filteredChild)
    else Some filteredChild in
  match child with
  | None => Ok ([], belowCursor)
  | Some child =>
      let childPath := appendToPathMemo path (id child) in
      let lastVirtualIndex :=
        match last accum with Some n => indexDescendant n | None => 0 end in
      let virtualIndexNew :=
        Args.indexDescendant a + lastVirtualIndex
        + (if (Args.depth a =? 0) && (i =? 0)%nat then 0 else 1) in
      let envParsed := parseLet state path in
      let envNew :=
        match Args.env a with
        | Some env =>
            if (0 <? size env)%nat && (0 <? size envParsed)%nat
            then Some (envParsed ∪ env) else None
        | None => None
        end in
      let belowCursor :=
        if negb (truthy belowCursor) && equalPath childPath (cursor state)
        then Some true else belowCursor in
      let isTable := attributeEquals state (id child) "=view" "Table" in
      let isTableCol1 := attributeEquals state (headId simplePath) "=view" "Table" in
      let isTableCol2 :=
        attributeEquals state (headId (rootedParentOf state simplePath)) "=view" "Table" in
      let parentKey := crossContextualKey contextChainNew (headId simplePath) in
      let grandparentKey :=
        crossContextualKey contextChainNew (headId (rootedParentOf state simplePath)) in
      let node :=
        {| belowCursor := truthy belowCursor;
           depth := Args.depth a;
           env := envNew;
           grandparentKey := grandparentKey;
           indexChild := Z.of_nat i;
           indexDescendant := virtualIndexNew;
           isTableCol1 := isTableCol1;
           isTableCol2 := isTableCol2;
           key := crossContextualKey contextChainNew (id child);
           leaf := negb (hasChildren state (id filteredChild));
           parentKey := parentKey;
           path := childPath;
           prevChild := match i with O => None | S j => filteredChildren !! j end;
           showContexts := contextViewActive;
           simplePath :=
             if contextViewActive then thoughtToPath state (id child)
             else appendToPathMemo simplePath (id child);
           style := style;
           thought := child;
           visibleChildrenKeys :=
             if isTable
             then Some (map (fun child => crossContextualKey (Args.contextChain a) (id child))
                            (getChildren state (id child)))
             else None |} in
      do descendants <-
        linearize
          {| Args.basePath := Some childPath;
             Args.belowCursor := belowCursor;
             Args.contextId := if contextViewActive then Some (id filteredChild) else None;
             Args.contextChain := contextChainNew;
             Args.depth := Args.depth a + 1;
             Args.env := envNew;
             Args.indexDescendant := virtualIndexNew;
             Args.styleAccum :=
               safeRefMerge (Args.styleAccum a)
                 (pick styleChildren ACCUM_STYLE_PROPERTIES)
                 (pick (getStyle state grandchildrenAttributeId) ACCUM_STYLE_PROPERTIES);
             Args.styleFromGrandparent := getStyle state grandchildrenAttributeId |};
      let belowCursor :=
        if negb (truthy belowCursor)
           && match last descendants with
              | Some d => Layout.belowCursor d
              | None => false
              end
        then Some true else belowCursor in
      Ok (accum ++ node :: descendants, belowCursor)
  end.

(** [linearizeTree]; [fuel] bounds the depth of the recursion. *)
Fixpoint linearizeTree (fuel : nat) (state : State) (a : Args.t) : Res (list TreeThought) :=
  match fuel with
  | O => OutOfFuel
  | S fuel' =>
      let path := default HOME_PATH (Args.basePath a) in
      if negb (isVisible state path) then Ok []
      else
        let thoughtId := headId path in
        let thought := getThoughtById state thoughtId in
        let simplePath := simplifyPath state path in
        let contextViewActive := isContextViewActive state path in
        let contextChainNew :=
          if contextViewActive
          then Some (default [] (Args.contextChain a) ++ [simplePath])
          else Args.contextChain a in
        do children <-
          (if contextViewActive
           then match thought with
                | Some thought => Ok (getContextsSortedAndRanked state (value thought))
                | None => TypeError
                end
           else Ok (getChildrenRanked state (orThoughtId (Args.contextId a) thoughtId)));
        let filteredChildren :=
          filter (fun c => childrenFilterPredicate state simplePath c = true) children in
        if contextViewActive && (length filteredChildren =? 1)%nat then Ok []
        else
          let childrenAttributeId := findDescendant state thoughtId "=children" in
          let grandchildrenAttributeId := findDescendant state thoughtId "=grandchildren" in
          let styleChildren := getStyle state childrenAttributeId in
          let style :=
            safeRefMerge (Args.styleAccum a) styleChildren (Args.styleFromGrandparent a) in
          do thoughts <-
            reduceFrom
              (visitChild (linearizeTree fuel' state) state a path simplePath
                 contextViewActive contextChainNew filteredChildren styleChildren
                 grandchildrenAttributeId style)
              0%nat filteredChildren ([], Args.belowCursor a);
          Ok thoughts.1
  end.

(** [path] is reached from [base] by appending thought ids, and every
    path it passes through, [base] included and [path] excluded, is
    visible: the ancestors of [path] below [base] are all root, expanded
    or hover-expanded. *)
Inductive VisibleFrom (state : State) (base : Path) : Path -> Prop :=
| visible_child tid :
    isVisible state base = true →
    VisibleFrom state base (appendToPathMemo base tid)
| visible_descendant p tid :
    VisibleFrom state base p → isVisible state p = true →
    VisibleFrom state base (appendToPathMemo p tid).

(** The order of two nodes by [indexDescendant]. *)
Definition indexBefore (n m : TreeThought) : Prop :=
  indexDescendant n < indexDescendant m.

(** The node is at the cursor. *)
Definition atCursor (state : State) (n : TreeThought) : bool :=
  equalPath (path n) (cursor state).

(** [belowCursor] is true exactly from the first node at the cursor on. *)
Definition belowFromCursor (state : State) (out : list TreeThought) : Prop :=
  ∀ i n, out !! i = Some n →
    belowCursor n = existsb (atCursor state) (take (S i) out).

(** The flags of a list of nodes emitted from a call entered with
    [belowCursor = b]: each node is below the cursor when [b] holds or a
    node at the cursor has been emitted up to and including it. *)
Fixpoint flagsFrom (state : State) (b : bool) (out : list TreeThought) : Prop :=
  match out with
  | [] => True
  | n :: out' =>
      belowCursor n = b || atCursor state n
      ∧ flagsFrom state (b || atCursor state n) out'
  end.

(** No context of a value has a parent that is still pending. *)
Definition contextsLoaded (state : State) : Prop :=
  ∀ v c, c ∈ getContextsSortedAndRanked state v →
         is_Some (getThoughtById state (parentId c)).

End Linearize.

(** ** The positioning pass *)

(** An entry of [sizes]: [{ height, width?, isVisible }]. *)
Module Size.
Record t := {
  height : Q;
  width : option Q;
  isVisible : bool;
}.
End Size.

(** 2nd pass: [TreeThoughtPositioned], the [TreeThought] and its position. *)
Record TreeThoughtPositioned := {
  node : TreeThought;
  cliff : Z;
  height : Q;
  parentWidth : Q;
  singleLineHeightWithCliff : Q;
  width : option Q;
  x : Q;
  y : Q;
}.

(** [array.map((x, i) => ...)] with a callback that updates variables of
    the enclosing scope, here the state [s]. *)
Fixpoint mapFrom {A B St} (f : St -> A -> nat -> B * St) (i : nat) (l : list A) (s : St)
  : list B :=
  match l with
  | [] => []
  | x :: l' => let '(b, s') := f s x i in b :: mapFrom f (S i) l' s'
  end.

Section Positioning.

Variable fontSize : Q.
Variable sizes : gmap string Size.t.
Variable singleLineHeight : Q.

(** [sizes[childKey]?.width || 0]. *)
Definition widthOrZero (childKey : string) : Q :=
  match sizes !! childKey with
  | Some sz => default 0%Q (Size.width sz)
  | None => 0%Q
  end.

(** The callback of [treeThoughts.map]; the state is [yaccum] and
    [tableCol1Widths]. *)
Definition positionNode (treeThoughts : list TreeThought)
    (st : Q * gmap string Q) (node : TreeThought) (i : nat)
  : TreeThoughtPositioned * (Q * gmap string Q) :=
  let '(yaccum, tableCol1Widths) := st in
  let next := treeThoughts !! (i + 1)%nat in
  let cliff :=
    match next with
    | Some next => Z.min 0 (depth next - depth node)
    | None => - depth node - 1
    end in
  let singleLineHeightWithCliff :=
    (singleLineHeight + (if cliff <? 0 then fontSize / 4 else 0))%Q in
  let height :=
    match sizes !! key node with
    | Some sz => Size.height sz
    | None => singleLineHeightWithCliff
    end in
  let tableCol1Widths :=
    match visibleChildrenKeys node with
    | Some keys =>
        let tableCol1Width :=
          fold_left (fun accum childKey => Qmax accum (widthOrZero childKey)) keys 0%Q in
        if Qlt_le_dec 0 tableCol1Width
        then <[key node := tableCol1Width]> tableCol1Widths
        else tableCol1Widths
    | None => tableCol1Widths
    end in
  let maxTableColumnWidth := (fontSize * 10)%Q in
  let parentWidth :=
    match tableCol1Widths !! grandparentKey node with
    | Some w => if Qeq_bool w 0 then maxTableColumnWidth else Qmin w maxTableColumnWidth
    | None => maxTableColumnWidth
    end in
  let x :=
    (fontSize * (inject_Z (depth node)
                 + (if isTableCol1 node then - (3 # 2)
                    else if isTableCol2 node then 1 # 2 else 0))
     + (if isTableCol2 node then parentWidth else 0))%Q in
  let y := yaccum in
  let yaccum := if isTableCol1 node then yaccum else (yaccum + height)%Q in
  ({| node := node; cliff := cliff; height := height; parentWidth := parentWidth;
      singleLineHeightWithCliff := singleLineHeightWithCliff;
      width := tableCol1Widths !! parentKey node; x := x; y := y |},
   (yaccum, tableCol1Widths)).

(** [treeThoughtsPositioned]. *)
Definition treeThoughtsPositioned (treeThoughts : list TreeThought)
  : list TreeThoughtPositioned :=
  mapFrom (positionNode treeThoughts) 0%nat treeThoughts (0%Q, ∅).

End Positioning.

End Layout.

(* ===================================================================== *)
(** * A reference store *)
(* ===================================================================== *)

(** Plain implementations of the selectors over [Layout.State], so that
    [linearizeTree] runs on concrete stores: thoughts are looked up in
    [thoughtIndex], children are the loaded thoughts of [childrenMap] in rank
    order, the contexts of a value are the loaded thoughts listed in
    [lexemeIndex], and a context view is active where [contextViews] says so. *)
Module Store.

Import Layout.

Definition HOME_TOKEN : ThoughtId := "__ROOT__"%string.

(** Removes a leading root token. *)
Definition unroot (p : Path) : Path :=
  match p with
  | t :: rest => if bool_decide (t = HOME_TOKEN) then rest else p
  | [] => []
  end.

(** Inserts a thought into a list sorted by rank. *)
Fixpoint insertRanked (t : Thought) (l : list Thought) : list Thought :=
  match l with
  | [] => [t]
  | u :: l' => if rank t <? rank u then t :: l else u :: insertRanked t l'
  end.

Definition sortRanked (l : list Thought) : list Thought :=
  fold_right insertRanked [] l.

Definition lookupThought (st : State) (tid : ThoughtId) : option Thought :=
  thoughtIndex st !! tid.

Definition allChildren (st : State) (tid : ThoughtId) : list Thought :=
  match lookupThought st tid with
  | Some t => omap (lookupThought st) (childrenMap t)
  | None => []
  end.

Definition childWithValue (st : State) (tid : ThoughtId) (v : string) : option Thought :=
  List.find (fun c => bool_decide (value c = v)) (allChildren st tid).

(** The path from the root to a thought, following [parentId]. *)
Fixpoint pathTo (fuel : nat) (st : State) (tid : ThoughtId) : Path :=
  match fuel with
  | O => [tid]
  | S fuel' =>
      match lookupThought st tid with
      | Some t =>
          if bool_decide (parentId t = HOME_TOKEN) then [tid]
          else pathTo fuel' st (parentId t) ++ [tid]
      | None => [tid]
      end
  end.

(** The style of an attribute thought: one property per child, valued by
    the child's first child. *)
Definition styleOf (st : State) (attribute : option ThoughtId) : option Style :=
  match attribute with
  | None => None
  | Some a =>
      Some (list_to_map
              (omap (fun prop =>
                       match allChildren st (id prop) with
                       | v :: _ => Some (value prop, value v)
                       | [] => None
                       end)
                    (allChildren st a)))
  end.

(** Later objects overwrite earlier ones; [null] when all are absent. *)
Definition mergeStyles (a b c : option Style) : option Style :=
  match a, b, c with
  | None, None, None => None
  | _, _, _ => Some (default ∅ c ∪ default ∅ b ∪ default ∅ a)
  end.

#[global] Instance selectors : Selectors := {|
  HOME_PATH := [HOME_TOKEN];
  hashPath := String.concat "/";
  isRoot p := bool_decide (p = [HOME_TOKEN]);
  getThoughtById := lookupThought;
  simplifyPath _ p := p;
  isContextViewActive st p :=
    bool_decide (contextViews st !! String.concat "/" p = Some true);
  getContextsSortedAndRanked st v :=
    omap (lookupThought st) (default [] (lexemeIndex st !! v));
  getChildrenRanked st tid := sortRanked (allChildren st tid);
  getChildren := allChildren;
  childrenFilterPredicate _ _ c := negb (String.prefix "=" (value c));
  hasChildren st tid := bool_decide (allChildren st tid ≠ []);
  findDescendant st tid v := id <$> childWithValue st tid v;
  getStyle := styleOf;
  attributeEquals st tid attr v :=
    match childWithValue st tid attr with
    | Some a => bool_decide (is_Some (childWithValue st (id a) v))
    | None => false
    end;
  rootedParentOf _ p :=
    match removelast p with [] => [HOME_TOKEN] | q => q end;
  thoughtToPath st tid := pathTo (size (thoughtIndex st)) st tid;
  parseLet _ _ := ∅;
  appendToPathMemo p tid := unroot (p ++ [tid]);
  equalPath p c := bool_decide (Some p = c);
  safeRefMerge := mergeStyles;
|}.

(** ** Example stores *)

Definition mkThought (tid parent : ThoughtId) (r : Z) (children : list ThoughtId) : Thought :=
  {| id := tid; value := tid; rank := r; parentId := parent; childrenMap := children |}.

Definition indexOf (ts : list Thought) : gmap string Thought :=
  list_to_map (map (fun t => (id t, t)) ts).

Definition expandAll (ps : list Path) : gmap string Path :=
  list_to_map (map (fun p => (String.concat "/" p, p)) ps).

(** [- a], [- b] with children [b1], [b2]; [b] is expanded. *)
Definition twoLevels : State :=
  {| thoughtIndex :=
       indexOf [ mkThought HOME_TOKEN "" 0 ["a"; "b"];
                 mkThought "a" HOME_TOKEN 0 [];
                 mkThought "b" HOME_TOKEN 1 ["b1"; "b2"];
                 mkThought "b1" "b" 0 [];
                 mkThought "b2" "b" 1 [] ]%string;
     lexemeIndex := ∅;
     contextViews := ∅;
     expanded := expandAll [["b"]]%string;
     expandHoverDownPaths := ∅;
     cursor := None |}.

Definition mkThoughtV (tid v parent : ThoughtId) (r : Z) (children : list ThoughtId)
  : Thought :=
  {| id := tid; value := v; rank := r; parentId := parent; childrenMap := children |}.

(** A store with a context view. The thought [m0] at the root has the value
    [m], is expanded, and shows its contexts. The value [m] also occurs as
    [m1] under [a], as [m2] under [b] and as [m3] under [c], so the contexts
    of [m] are, in order, the root, [a], [b] and [c]. The record of the
    thought [pending], if any, is not loaded yet: it is not in
    [thoughtIndex]. The cursor is [cur]. *)
Definition contextStore (pending : option ThoughtId) (cur : option Path) : State :=
  let loaded :=
    indexOf [ mkThought HOME_TOKEN "" 0 ["m0"; "a"; "b"; "c"];
              mkThoughtV "m0" "m" HOME_TOKEN 0 [];
              mkThought "a" HOME_TOKEN 1 ["m1"];
              mkThought "b" HOME_TOKEN 2 ["m2"];
              mkThought "c" HOME_TOKEN 3 ["m3"];
              mkThoughtV "m1" "m" "a" 0 [];
              mkThoughtV "m2" "m" "b" 0 [];
              mkThoughtV "m3" "m" "c" 0 [] ]%string in
  {| thoughtIndex :=
       match pending with Some tid => delete tid loaded | None => loaded end;
     lexemeIndex := {[ "m"%string := ["m0"; "m1"; "m2"; "m3"]%string ]};
     contextViews := {[ "m0"%string := true ]};
     expanded := expandAll [["m0"]]%string;
     expandHoverDownPaths := ∅;
     cursor := cur |}.

(** What one reads off an emitted node in the examples. *)
Definition summary (n : TreeThought) : Path * Z * bool :=
  (path n, indexDescendant n, belowCursor n).

Definition emitted (fuel : nat) (st : State) : option (list (Path * Z * bool)) :=
  match linearizeTree fuel st Args.default with
  | Ok out => Some (map summary out)
  | _ => None
  end.

(** The nodes of a store whose visible tree is at most three levels deep. *)
Definition outputOf (st : State) : list TreeThought :=
  match linearizeTree 4 st Args.default with
  | Ok out => out
  | _ => []
  end.

(** A table: [t] has the attribute [=view]/[Table] and the rows [r1] and
    [r2]; [r1] has the value [v1]. [t] and [r1] are expanded. *)
Definition tableStore : State :=
  {| thoughtIndex :=
       indexOf [ mkThought HOME_TOKEN "" 0 ["t"];
                 mkThought "t" HOME_TOKEN 0 ["view"; "r1"; "r2"];
                 mkThoughtV "view" "=view" "t" 0 ["table"];
                 mkThoughtV "table" "Table" "view" 0 [];
                 mkThought "r1" "t" 1 ["v1"];
                 mkThought "v1" "r1" 0 [];
                 mkThought "r2" "t" 2 [] ]%string;
     lexemeIndex := ∅;
     contextViews := ∅;
     expanded := expandAll [["t"]; ["t"; "r1"]]%string;
     expandHoverDownPaths := ∅;
     cursor := None |}.

(** Measured sizes: only [r1] has been measured. *)
Definition tableSizes : gmap string Size.t :=
  {[ "|r1"%string := {| Size.height := 40; Size.width := Some 55%Q; Size.isVisible := true |} ]}.

(** The positioned nodes of the table at font size 16 and a single-line
    height of 30. *)
Definition tablePositioned : list TreeThoughtPositioned :=
  treeThoughtsPositioned 16 tableSizes 30 (outputOf tableStore).

End Store.

(* ===================================================================== *)
(** * The rest of the sources *)
(* ===================================================================== *)

From Stdlib Require Qabs Lqa.

(** ** Merging a whole queue *)

Module QueueProps.

Import SyncQueue.

Section Defs.

Context {Lexeme ParentEntry RecentEntry Child : Type}.

(** In the merge of [bs] the index [field] holds, for every key, the value
    written by the last batch of [bs] that has the key, and no value for a
    key that no batch has. *)
Definition writtenLast {V}
    (field : SyncBatch Lexeme ParentEntry RecentEntry Child -> option (gmap string V))
    (bs : list (SyncBatch Lexeme ParentEntry RecentEntry Child)) : Prop :=
  (∀ bs1 b bs2 k v,
      bs = bs1 ++ b :: bs2 →
      spread (field b) !! k = Some v →
      (∀ b', b' ∈ bs2 → spread (field b') !! k = None) →
      spread (field (mergeAll bs)) !! k = Some v)
  ∧ (∀ k, (∀ b, b ∈ bs → spread (field b) !! k = None) →
          spread (field (mergeAll bs)) !! k = None).

End Defs.

End QueueProps.

(** ** The edges of [chain] *)

Module ChainEdges.

Import Chain.

Section Defs.

Context {Rank State : Type}.
Variable normalizeThought : option string -> string.
Variable getContextsSortedAndRanked : State -> string -> list (ThoughtContext Rank).

(** The first element of the append tail as it ends up in the result of
    [chain]: re-ranked to the first context of the pivot whose head it
    is, when there is one. *)
Definition asAppended (state : State) (pivot first : Child Rank) : Child Rank :=
  match List.find (inContextOf normalizeThought first)
          (getContextsSortedAndRanked state (value pivot)) with
  | Some c => {| value := value first; rank := contextRank c |}
  | None => first
  end.

End Defs.

End ChainEdges.

(** ** [nextSibling] ([src/util/nextSibling.js]) *)

Module NextSibling.

Section Defs.

(** The store, the ranks and the result of [meta] are only passed on. *)
Context {State Rank Meta : Type}.

(** A sibling: [{ value, rank }]. *)
Record Child := {
  value : string;
  rank : Rank;
}.

(** What the util imports; none of it is among the sources. [hidden] is
    the truthiness of [meta(...).hidden]. *)
Variable showHiddenThoughts : State -> bool.
Variable pathToContext : list string -> list string.
Variable meta : list string -> Meta.
Variable hidden : Meta -> bool.
Variable getSortPreference : Meta -> string.
Variable isFunction : string -> bool.
Variable getThoughtsSorted : State -> list string -> list Child.
Variable getThoughtsRanked : State -> list string -> list Child.
Variable equalThoughtSorted : Child -> string -> bool.
Variable equalThoughtRanked : Child -> string -> Rank -> bool.

Definition alphabetical (context : list string) : bool :=
  bool_decide (getSortPreference (meta (pathToContext context)) = "Alphabetical"%string).

(** [siblings]. *)
Definition siblings (state : State) (context : list string) : list Child :=
  (if alphabetical context then getThoughtsSorted else getThoughtsRanked) state context.

(** [notHidden]. *)
Definition notHidden (context : list string) (child : Child) : bool :=
  negb (isFunction (value child)) && negb (hidden (meta (context ++ [value child]))).

(** [siblingsFiltered]. *)
Definition siblingsFiltered (state : State) (context : list string) : list Child :=
  if showHiddenThoughts state then siblings state context
  else filter (fun child => notHidden context child = true) (siblings state context).

(** The callback of [findIndex]. *)
Definition isThought (v : string) (context : list string) (r : Rank) (child : Child) : bool :=
  if alphabetical context then equalThoughtSorted child v
  else equalThoughtRanked child v r.

(** [nextSibling]; [state] is [store.getState()]. *)
Definition nextSibling (state : State) (v : string) (context : list string) (r : Rank)
  : option Child :=
  let i := findIndex (isThought v context r) (siblingsFiltered state context) in
  siblingsFiltered state context !! Z.to_nat (i + 1).

End Defs.

Arguments Child : clear implicits.

(** ** A context to run [nextSibling] on *)

(** The siblings [a], [=style], [b], [secret], [c] in rank order; the
    context is never sorted alphabetically, [=style] is a function and
    [secret] has a hidden attribute. The state is the flag
    [showHiddenThoughts]; [meta] hands the context on. *)
Definition fiveSiblings : list (Child Z) :=
  [ {| value := "a"; rank := 0 |}; {| value := "=style"; rank := 1 |};
    {| value := "b"; rank := 2 |}; {| value := "secret"; rank := 3 |};
    {| value := "c"; rank := 4 |} ]%string.

Definition hiddenSecret (m : list string) : bool :=
  bool_decide (last m = Some "secret"%string).

Definition noPreference (m : list string) : string := ""%string.

Definition fiveOf (state : bool) (context : list string) : list (Child Z) := fiveSiblings.

Definition equalValue (c : Child Z) (v : string) : bool := String.eqb (value c) v.

Definition equalValueRank (c : Child Z) (v : string) (r : Z) : bool :=
  String.eqb (value c) v && (rank c =? r).

Definition nextOfFive (showHidden : bool) (v : string) (r : Z) : option (Child Z) :=
  nextSibling (fun s : bool => s) (fun c => c) (fun c => c) hiddenSecret noPreference
    (String.prefix "=") fiveOf fiveOf equalValue equalValueRank showHidden v [] r.

End NextSibling.

(** ** Shapes of a linearized list *)

Module Shape.

Import Layout.

(** A later node is flagged [belowCursor] when an earlier one is. *)
Definition staysBelow (n m : TreeThought) : Prop :=
  belowCursor n = true → belowCursor m = true.

(** From one node to the next the depth grows by one at most. *)
Fixpoint stepsUp (l : list TreeThought) : Prop :=
  match l with
  | n :: l' =>
      match l' with
      | m :: _ => depth m <= depth n + 1
      | [] => True
      end ∧ stepsUp l'
  | [] => True
  end.

Section Defs.

Context `{Selectors}.

(** The children that a call of [linearizeTree] visits in normal view. *)
Definition normalChildren (state : State) (a : Args.t) : list Thought :=
  let path := default HOME_PATH (Args.basePath a) in
  filter (fun c => childrenFilterPredicate state (simplifyPath state path) c = true)
         (getChildrenRanked state (orThoughtId (Args.contextId a) (headId path))).

(** The node at position [i] of [out] is followed by the nodes [desc]
    that the recursive call on its path emits, all deeper than the node,
    and then by a node that is not deeper, if any. *)
Definition subtreeAt (state : State) (out : list TreeThought) (i : nat) (n : TreeThought)
    (desc : list TreeThought) : Prop :=
  (∃ fuel a', linearizeTree fuel state a' = Ok desc
              ∧ Args.basePath a' = Some (path n)
              ∧ Args.depth a' = depth n + 1)
  ∧ take (length desc) (drop (S i) out) = desc
  ∧ Forall (fun m => depth n < depth m) desc
  ∧ (∀ m, out !! (S i + length desc)%nat = Some m → depth m <= depth n).

End Defs.

(** ** Calls on the reference stores *)

(** The call that [linearizeTree] makes on the path [b] of the store
    [twoLevels]: depth 1, entered with the index 1 of the node [b]. *)
Definition underB : Args.t :=
  {| Args.basePath := Some ["b"%string]; Args.belowCursor := None; Args.contextId := None;
     Args.contextChain := None; Args.depth := 1; Args.env := None;
     Args.indexDescendant := 1; Args.styleAccum := None;
     Args.styleFromGrandparent := None |}.

(** A call on the path [m0] of the store [contextStore]. *)
Definition onM0 : Args.t :=
  {| Args.basePath := Some ["m0"%string]; Args.belowCursor := None; Args.contextId := None;
     Args.contextChain := None; Args.depth := 1; Args.env := None;
     Args.indexDescendant := 0; Args.styleAccum := None;
     Args.styleFromGrandparent := None |}.

End Shape.

(** ** The rest of the component [LayoutTree] *)

Module Component.

Import Layout.

Definition sumQ (l : list Q) : Q := fold_right Qplus 0%Q l.

Definition sumZ (l : list Z) : Z := fold_right Z.add 0 l.

(** The number of nodes whose next node is deeper. *)
Fixpoint ascents (l : list TreeThought) : Z :=
  match l with
  | n :: l' =>
      match l' with
      | m :: _ => if depth n <? depth m then 1 else 0
      | [] => 0
      end + ascents l'
  | [] => 0
  end.

(** Every cached column width is positive. *)
Definition positiveWidths (widths : gmap string Q) : Prop :=
  ∀ k w, widths !! k = Some w → (0 < w)%Q.

(** [tableCol1Width]: the largest measured width among the keys, 0 when
    none is measured. *)
Definition tableCol1Width (sizes : gmap string Size.t) (keys : list string) : Q :=
  fold_left (fun accum childKey => Qmax accum (widthOrZero sizes childKey)) keys 0%Q.

(** [tableCol1Widths] as the callback of the positioning pass leaves it
    after the node [n]. *)
Definition widthsAfter (sizes : gmap string Size.t) (widths : gmap string Q) (n : TreeThought)
  : gmap string Q :=
  match visibleChildrenKeys n with
  | Some keys =>
      if Qlt_le_dec 0 (tableCol1Width sizes keys)
      then <[key n := tableCol1Width sizes keys]> widths
      else widths
  | None => widths
  end.

(** The positioned nodes before position [i] that advance [y]. *)
Definition advancing (i : nat) (ps : list TreeThoughtPositioned) : list TreeThoughtPositioned :=
  filter (fun p => isTableCol1 (node p) = false) (take i ps).

(** [spaceAbove] and [totalHeight]: the accumulator of the reduction over
    [treeThoughts]. *)
Record Totals := {
  totalHeight : Q;
  spaceAbove : Q;
}.

Section Totals.

Variable sizes : gmap string Size.t.
Variable singleLineHeight : Q.

(** [heightNext]. *)
Definition heightNext (node : TreeThought) : Q :=
  match sizes !! key node with
  | Some sz => if Size.isVisible sz || negb (belowCursor node) then Size.height sz else 0%Q
  | None => singleLineHeight
  end.

(** [sizes[node.key] && !sizes[node.key].isVisible && !node.belowCursor]. *)
Definition croppedAbove (node : TreeThought) : bool :=
  match sizes !! key node with
  | Some sz => negb (Size.isVisible sz) && negb (belowCursor node)
  | None => false
  end.

(** The callback of [treeThoughts.reduce]. *)
Definition addHeight (accum : Totals) (node : TreeThought) : Totals :=
  {| totalHeight := (totalHeight accum + heightNext node)%Q;
     spaceAbove :=
       (spaceAbove accum + (if croppedAbove node then heightNext node else 0))%Q |}.

Definition totals (treeThoughts : list TreeThought) : Totals :=
  fold_left addHeight treeThoughts {| totalHeight := 0; spaceAbove := 0 |}.

End Totals.

(** The positioned table and its totals. *)
Definition tableTotals : Totals := totals Store.tableSizes 30 (Store.outputOf Store.tableStore).

(** The context store with the cursor on [m0/a]; [m0] has been measured
    and is not visible. *)
Definition cursorOnA : State := Store.contextStore None (Some ["m0"; "a"]%string).

Definition croppedSizes : gmap string Size.t :=
  {[ "|m0"%string := {| Size.height := 40; Size.width := None; Size.isVisible := false |} ]}.

(** ** [singleLineHeight] *)

Module SingleLine.

(** [estimatedHeight]. *)
Definition estimatedHeight (fontSize : Q) : Q := (fontSize * 2 - 2)%Q.

(** The callback of [find]:
    [Math.abs(height - estimatedHeight) < height / 2]. *)
Definition nearEstimate (estimatedHeight : Q) (sz : Size.t) : bool :=
  if Qlt_le_dec (Qabs.Qabs (Size.height sz - estimatedHeight)) (Size.height sz / 2)
  then true else false.

(** A number as a condition: 0 is falsy. *)
Definition nonzero (h : Q) : bool := negb (Qeq_bool h 0).

(** The body of the memo. [values] is [Object.values(sizes)] and [prev]
    is [singleLineHeightPrev.current]; the result is paired with the ref
    as the body leaves it. *)
Definition singleLineHeight (fontSize : Q) (values : list Size.t) (prev : option Q)
  : Q * option Q :=
  let estimatedHeight := estimatedHeight fontSize in
  let singleLineHeightMeasured :=
    Size.height <$> List.find (nearEstimate estimatedHeight) values in
  let prev :=
    match singleLineHeightMeasured with
    | Some h => if nonzero h then Some h else prev
    | None => prev
    end in
  (match prev with
   | Some h => if nonzero h then h else estimatedHeight
   | None => estimatedHeight
   end, prev).

(** The ref after the memo has run at each render of [history] in turn;
    a render has its font size and its [Object.values(sizes)]. The ref
    outlives a change of the font size. *)
Definition renders (history : list (Q * list Size.t)) : option Q :=
  fold_left (fun prev render => (singleLineHeight render.1 render.2 prev).2) history None.

(** The height was measured as a single line at a render of [history]:
    some size of that render has the height and is near the estimate
    for the font size of that render. *)
Definition measuredAt (history : list (Q * list Size.t)) (h : Q) : Prop :=
  ∃ render sz,
    render ∈ history ∧ sz ∈ render.2
    ∧ Size.height sz = h
    ∧ nearEstimate (estimatedHeight render.1) sz = true.

(** Between two thirds of the estimate and twice the estimate. *)
Definition nearly (estimatedHeight h : Q) : Prop :=
  ((2 # 3) * estimatedHeight < h ∧ h < 2 * estimatedHeight)%Q.

(** A height of 30 is measured at the font size 16, and the font size
    then changes to 50, where the estimate is 98. *)
Definition oneLine : Size.t :=
  {| Size.height := 30; Size.width := None; Size.isVisible := true |}.

Definition atFontSize16 : list (Q * list Size.t) := [(16%Q, [oneLine])].

End SingleLine.

End Component.

(** ** [useSizeTracking] *)

Module SizeTracking.

Import Layout.

(** The argument of [setSize]; [height] and [width] may be [null]. *)
Record Measurement := {
  height : option Q;
  width : option Q;
  id : ThoughtId;
  isVisible : bool;
  key : string;
}.

(** The hook: the state [sizes], the refs [unmounted] and
    [sizeRemovalTimeouts], and of the environment the timeouts that are
    set and have neither fired nor been cleared, each with the key that
    its callback removes. [setTimeout] returns [nextTimeout] and then a
    larger id at every call. An update of [sizes] is applied when it is
    requested. *)
Record Hook := {
  sizes : gmap string Size.t;
  unmounted : bool;
  sizeRemovalTimeouts : gmap string nat;
  pending : gmap nat string;
  nextTimeout : nat;
}.

Definition initial : Hook :=
  {| sizes := ∅; unmounted := false; sizeRemovalTimeouts := ∅; pending := ∅;
     nextTimeout := 1 |}.

(** [clearTimeout(id)]; nothing happens when [id] is [undefined] or not
    the id of a pending timeout. *)
Definition clearTimeout (t : option nat) (h : Hook) : Hook :=
  match t with
  | Some t =>
      {| sizes := sizes h; unmounted := unmounted h;
         sizeRemovalTimeouts := sizeRemovalTimeouts h;
         pending := delete t (pending h); nextTimeout := nextTimeout h |}
  | None => h
  end.

(** [removeSize]. *)
Definition removeSize (key : string) (h : Hook) : Hook :=
  let h := clearTimeout (sizeRemovalTimeouts h !! key) h in
  let timeout := nextTimeout h in
  {| sizes := sizes h; unmounted := unmounted h;
     sizeRemovalTimeouts := <[key := timeout]> (sizeRemovalTimeouts h);
     pending := <[timeout := key]> (pending h);
     nextTimeout := S timeout |}.

(** [height === sizesOld[key]?.height && isVisible === sizesOld[key]?.isVisible]. *)
Definition unchanged (sizesOld : gmap string Size.t) (key : string) (height : Q)
    (isVisible : bool) : bool :=
  match sizesOld !! key with
  | Some old => Qeq_bool height (Size.height old) && Bool.eqb isVisible (Size.isVisible old)
  | None => false
  end.

(** [width || undefined]. *)
Definition widthOrUndefined (width : option Q) : option Q :=
  match width with
  | Some w => if Qeq_bool w 0 then None else Some w
  | None => None
  end.

(** [setSize]. *)
Definition setSize (m : Measurement) (h : Hook) : Hook :=
  match height m with
  | Some height =>
      let h := clearTimeout (sizeRemovalTimeouts h !! key m) h in
      {| sizes :=
           if unchanged (sizes h) (key m) height (isVisible m) then sizes h
           else <[key m := {| Size.height := height;
                              Size.width := widthOrUndefined (width m);
                              Size.isVisible := isVisible m |}]> (sizes h);
         unmounted := unmounted h;
         sizeRemovalTimeouts := delete (key m) (sizeRemovalTimeouts h);
         pending := pending h;
         nextTimeout := nextTimeout h |}
  | None => removeSize (key m) h
  end.

(** The timeout [t] fires: the callback that [removeSize] has set runs. *)
Definition fire (t : nat) (h : Hook) : Hook :=
  match pending h !! t with
  | Some key =>
      {| sizes := if unmounted h then sizes h else delete key (sizes h);
         unmounted := unmounted h;
         sizeRemovalTimeouts := sizeRemovalTimeouts h;
         pending := delete t (pending h);
         nextTimeout := nextTimeout h |}
  | None => h
  end.

(** The cleanup of the effect. *)
Definition unmount (h : Hook) : Hook :=
  {| sizes := sizes h; unmounted := true;
     sizeRemovalTimeouts := sizeRemovalTimeouts h;
     pending := pending h; nextTimeout := nextTimeout h |}.

(** What happens to the hook. *)
Inductive Event :=
| SetSize (m : Measurement)
| Timeout (t : nat)
| Unmount.

Definition step (h : Hook) (e : Event) : Hook :=
  match e with
  | SetSize m => setSize m h
  | Timeout t => fire t h
  | Unmount => unmount h
  end.

Definition run (es : list Event) (h : Hook) : Hook := fold_left step es h.

(** The event is a call of [setSize] for the key. *)
Definition setsKey (key' : string) (e : Event) : Prop :=
  match e with
  | SetSize m => key m = key'
  | _ => False
  end.

(** The event is a call of [setSize] for the key with the height [null]. *)
Definition removesKey (key' : string) (e : Event) : Prop :=
  match e with
  | SetSize m => key m = key' ∧ height m = None
  | _ => False
  end.

(** Every pending timeout is the one registered for its key, registered
    ids are below the next id, and no id is registered for two keys. *)
Definition tracked (h : Hook) : Prop :=
  (∀ t k, pending h !! t = Some k → sizeRemovalTimeouts h !! k = Some t)
  ∧ (∀ k t, sizeRemovalTimeouts h !! k = Some t → (t < nextTimeout h)%nat)
  ∧ (∀ k k' t, sizeRemovalTimeouts h !! k = Some t →
               sizeRemovalTimeouts h !! k' = Some t → k = k').

(** No timeout is pending for the key. *)
Definition settled (k : string) (h : Hook) : Prop :=
  tracked h ∧ ∀ t, pending h !! t ≠ Some k.

(** The size that [sizes] holds for the key of a measurement with the
    height [hgt] that has been recorded. *)
Definition records (m : Measurement) (hgt : Q) (h : Hook) : Prop :=
  ∃ sz, sizes h !! key m = Some sz
        ∧ (Size.height sz == hgt)%Q
        ∧ Size.isVisible sz = isVisible m.

(** A measurement and a removal for the examples. *)
Definition measured (key : string) (height : Q) : Measurement :=
  {| height := Some height; width := None; id := key; isVisible := true; key := key |}.

Definition removed (key : string) : Measurement :=
  {| height := None; width := None; id := key; isVisible := true; key := key |}.

(** [k] is measured, then removed, and then [j] is measured. *)
Definition measuredThenRemoved : list Event :=
  [SetSize (measured "k" 40); SetSize (removed "k"); SetSize (measured "j" 20)].

End SizeTracking.

(* ===================================================================== *)
(** * Theorems: the sync queue *)
(* ===================================================================== *)

Section SyncQueueFacts.

Import SyncQueue.

Context {Lexeme ParentEntry RecentEntry Child : Type}.

Abbreviation Batch := (SyncBatch Lexeme ParentEntry RecentEntry Child).
Abbreviation Act := (Action Lexeme ParentEntry RecentEntry Child).
Abbreviation Store := (State Lexeme ParentEntry RecentEntry Child).

Lemma spread2_lastWriteWins {V} (a b : option (gmap string V)) :
  lastWriteWins (spread a) (spread b) (spread2 a b).
Proof.
  unfold lastWriteWins, spread2. split; [|split].
  - rewrite dom_union_L. apply (comm_L (∪)).
  - intros k v Hb. apply lookup_union_Some_l, Hb.
  - intros k Hb. by apply lookup_union_r.
Qed.

(** C6. Merging two batches: each of the three indexes of the result has
    the union of the keys of the two batches and the second batch's value
    on every key of the second batch; the pending deletes of the result
    are those of the first batch followed by those of the second, nothing
    removed. *)
Theorem mergeBatch_last_write_wins (a b : Batch) :
  let m := mergeBatch (Some a) b in
  (∃ t, thoughtIndexUpdates m = Some t
        ∧ lastWriteWins (spread (thoughtIndexUpdates a)) (spread (thoughtIndexUpdates b)) t)
  ∧ (∃ c, contextIndexUpdates m = Some c
        ∧ lastWriteWins (spread (contextIndexUpdates a)) (spread (contextIndexUpdates b)) c)
  ∧ (∃ r, recentlyEdited m = Some r
        ∧ lastWriteWins (spread (recentlyEdited a)) (spread (recentlyEdited b)) r)
  ∧ pendingDeletes m
    = Some (default [] (pendingDeletes a) ++ default [] (pendingDeletes b)).
Proof.
  simpl. repeat split; try (eexists; split; [reflexivity | apply spread2_lastWriteWins]).
Qed.

Lemma mergeAll_snoc (bs : list Batch) (b : Batch) :
  mergeAll (bs ++ [b]) = mergeBatch (Some (mergeAll bs)) b.
Proof. unfold mergeAll. by rewrite fold_left_app. Qed.

(** The flags of a merge are those of its last batch, [true] unless
    explicitly [false]. *)
Lemma mergeAll_flags (bs : list Batch) (bl : Batch) :
  last bs = Some bl →
  local (mergeAll bs) = Some (notFalse (local bl))
  ∧ remote (mergeAll bs) = Some (notFalse (remote bl)).
Proof.
  intros [bs' ->]%last_Some. by rewrite mergeAll_snoc.
Qed.

(** C7. In the merge of a sequence of batches of which one targets the
    local (respectively remote) destination, the merged flag is true,
    unless the flag of the last batch merged is explicitly false, in which
    case the merged flag is false. *)
Theorem mergeAll_flag_true_unless_false (bs : list Batch) (b bl : Batch) :
  b ∈ bs → last bs = Some bl →
  (local b = Some true →
    (local bl ≠ Some false → local (mergeAll bs) = Some true)
    ∧ (local bl = Some false → local (mergeAll bs) = Some false))
  ∧ (remote b = Some true →
    (remote bl ≠ Some false → remote (mergeAll bs) = Some true)
    ∧ (remote bl = Some false → remote (mergeAll bs) = Some false)).
Proof.
  intros _ Hl. destruct (mergeAll_flags bs bl Hl) as [-> ->].
  split; intros _; split; intros Hf.
  - by destruct (local bl) as [[]|].
  - by rewrite Hf.
  - by destruct (remote bl) as [[]|].
  - by rewrite Hf.
Qed.

Lemma keysCount_mergeAll (bs : list Batch) :
  (0 <? keysCount (mergeAll bs))%nat = bool_decide (bs ≠ []).
Proof.
  destruct bs as [|b bs] using rev_ind; [done|].
  rewrite mergeAll_snoc. simpl.
  symmetry. apply bool_decide_eq_true. by destruct bs.
Qed.

Section Trace.

Variable hashContext : list string -> string.
Variable reducer : Store -> Act -> Store.
Variable fulfilled : Act -> bool.

Lemma turn_forEachDelete (pds : list (PendingDelete Child)) (s : Store) :
  ∃ s', turn reducer (forEachDelete pds Done) s
        = (map (fun pd => existingThoughtDelete (context pd) (child pd)) pds, s', []).
Proof.
  revert s. induction pds as [|pd pds IH]; intros s; simpl.
  - by exists s.
  - destruct (IH (reducer s (existingThoughtDelete (context pd) (child pd))))
      as [s' ->]. by exists s'.
Qed.

Lemma turn_dispatchIf_sync (bs : list Batch) (k : Thunk Lexeme ParentEntry RecentEntry Child)
    (s : Store) :
  ∃ s1, (turn reducer (dispatchIf (0 <? keysCount (mergeAll bs))%nat
                                  (syncBatch (mergeAll bs)) k) s).1.1
        = syncOf bs ++ (turn reducer k s1).1.1
      ∧ (turn reducer (dispatchIf (0 <? keysCount (mergeAll bs))%nat
                                  (syncBatch (mergeAll bs)) k) s).2
        = (turn reducer k s1).2.
Proof.
  rewrite keysCount_mergeAll. destruct bs as [|b bs]; simpl.
  - by exists s.
  - exists (reducer s (syncBatch (mergeAll (b :: bs)))).
    by destruct (turn reducer k _) as [[??]?].
Qed.

(** C5, as the code has it. A flush of a non-empty queue dispatches, in
    this order: the pull of the contexts of all pending deletes, to
    unbounded depth, when there is a pending delete; the merged
    local-bound batch and the merged remote-bound batch, each when the
    queue has a batch for that destination; and, once the pull is
    fulfilled, one finalizing delete per pending delete. The two syncs
    are dispatched in the turn that dispatches the pull, before any
    finalizing delete. *)
Theorem flushQueue_trace (fuel : nat) (s : Store) :
  syncQueue s ≠ [] → (1 <= fuel)%nat →
  dispatched reducer fulfilled fuel (flushQueue hashContext) s
  = Some (pullPart hashContext (syncQueue s)
          ++ syncPart (syncQueue s)
          ++ deletePart hashContext fulfilled (syncQueue s)).
Proof.
  intros Hq Hfuel. destruct fuel as [|fuel]; [lia|].
  unfold dispatched, flushQueue, pullPart, deletePart, syncPart.
  cbn [turn]. destruct (syncQueue s) as [|b q] eqn:Eq; [done|]. clear Hq.
  cbn [length Nat.eqb]. cbn [turn].
  unfold flushDeletes. cbn [turn]. rewrite Eq.
  fold (allPendingDeletes (b :: q)).
  set (locals := filter _ (b :: q)).
  set (remotes := filter (fun batch => truthy (remote batch) = true) (b :: q)).
  destruct (allPendingDeletes (b :: q)) as [|pd pds] eqn:Epd.
  - cbn [length Nat.ltb Nat.leb turn].
    destruct (turn_dispatchIf_sync locals
                (dispatchIf (0 <? keysCount (mergeAll remotes))%nat
                   (syncBatch (mergeAll remotes)) Done) s) as (s1 & E1 & E1').
    destruct (turn_dispatchIf_sync remotes Done s1) as (s2 & E2 & E2').
    destruct (turn reducer (dispatchIf _ _ (dispatchIf _ _ Done)) s) as [[tr s'] parked].
    simpl in E1, E1'. subst tr parked. rewrite E2, E2'. simpl.
    destruct fuel; simpl; by rewrite !app_nil_r.
  - cbn [length Nat.ltb Nat.leb turn].
    set (p := pull (keyValueBy hashContext (pd :: pds)) Infinity).
    destruct (turn_dispatchIf_sync locals
                (dispatchIf (0 <? keysCount (mergeAll remotes))%nat
                   (syncBatch (mergeAll remotes)) Done) (reducer s p)) as (s1 & E1 & E1').
    destruct (turn_dispatchIf_sync remotes Done s1) as (s2 & E2 & E2').
    destruct (turn reducer (dispatchIf _ _ (dispatchIf _ _ Done)) (reducer s p))
      as [[tr s'] parked].
    simpl in E1, E1'. subst tr parked. rewrite E2, E2'. simpl.
    destruct (fulfilled p).
    + destruct (turn_forEachDelete pds
                  (reducer s' (existingThoughtDelete (context pd) (child pd))))
        as [s'' ->].
      destruct fuel; simpl; by rewrite !app_nil_r.
    + destruct fuel; simpl; by rewrite !app_nil_r.
Qed.

End Trace.

End SyncQueueFacts.

(** A flush of the example queue: the hypotheses of [flushQueue_trace] hold
    and the trace is the pull, the sync, then the delete. *)
Lemma flushQueue_trace_witness :
  SyncQueue.dispatched (fun s _ => s) (fun _ => true) 1
    (SyncQueue.flushQueue (String.concat "/")) SyncQueue.exampleState
  = Some (SyncQueue.pullPart (String.concat "/") [SyncQueue.editAndDelete]
          ++ SyncQueue.syncPart [SyncQueue.editAndDelete]
          ++ SyncQueue.deletePart (String.concat "/") (fun _ => true) [SyncQueue.editAndDelete]).
Proof.
  apply (flushQueue_trace (String.concat "/") (fun s _ => s) (fun _ => true) 1
           SyncQueue.exampleState).
  - discriminate.
  - lia.
Defined.

(** C5 as stated fails: in the flush of the example queue the sync is
    dispatched second and the finalizing delete third. *)
Lemma flushQueue_sync_before_delete :
  ∃ trace,
    SyncQueue.dispatched (fun s _ => s) (fun _ => true) 1
      (SyncQueue.flushQueue (String.concat "/")) SyncQueue.exampleState = Some trace
    ∧ ¬ SyncQueue.deletesResolvedFirst trace.
Proof.
  eexists. split; [vm_compute; reflexivity|].
  intros Hfirst.
  specialize (Hfirst 2%nat 1%nat _ _ eq_refl eq_refl eq_refl eq_refl). lia.
Qed.

(** Merging a batch bound for both destinations with a later batch that
    leaves [local] unset and sets [remote] to [false]. *)
Lemma mergeAll_flag_true_unless_false_witness :
  SyncQueue.local
    (SyncQueue.mergeAll
       [SyncQueue.flagged (Some true) (Some true); SyncQueue.flagged None (Some false)])
  = Some true
  ∧ SyncQueue.remote
      (SyncQueue.mergeAll
         [SyncQueue.flagged (Some true) (Some true); SyncQueue.flagged None (Some false)])
    = Some false.
Proof.
  destruct (mergeAll_flag_true_unless_false
              [SyncQueue.flagged (Some true) (Some true);
               SyncQueue.flagged None (Some false)]
              (SyncQueue.flagged (Some true) (Some true))
              (SyncQueue.flagged None (Some false))) as [Hl Hr].
  - apply list_elem_of_here.
  - reflexivity.
  - split.
    + apply Hl; [reflexivity | discriminate].
    + apply Hr; reflexivity.
Defined.

(* ===================================================================== *)
(** * Theorems: context chains *)
(* ===================================================================== *)

Section ChainFacts.

Import Chain.

Context {Rank State : Type}.
Variable normalizeThought : option string -> string.
Variable getContextsSortedAndRanked : State -> string -> list (ThoughtContext Rank).
Variable splice : SimplePath Rank -> nat -> nat -> SimplePath Rank.

Lemma findIndexFrom_bounds {A} (p : A -> bool) (l : list A) (k : Z) :
  0 <= k →
  findIndexFrom p k l = -1
  ∨ (k <= findIndexFrom p k l < k + Z.of_nat (length l)).
Proof.
  revert k. induction l as [|x l IH]; intros k Hk; simpl; [by left|].
  destruct (p x); [right; lia|].
  destruct (IH (k + 1)) as [->|Hb]; [lia | by left | right; lia].
Qed.

Lemma findIndex_found_lt {A} (p : A -> bool) (l : list A) :
  0 <= findIndex p l → findIndex p l < Z.of_nat (length l).
Proof.
  unfold findIndex. destruct (findIndexFrom_bounds p l 0) as [->|Hb]; lia.
Qed.

(** The tail taken at a found pivot is never empty; from position 1 on it
    starts one position before the match. *)
Lemma slice_before_found {A} (l : list A) (i : Z) :
  0 <= i < Z.of_nat (length l) →
  slice (i - 1) l ≠ []
  ∧ (1 <= i → slice (i - 1) l = drop (Z.to_nat (i - 1)) l).
Proof.
  intros Hi. unfold slice. split.
  - intros Hnil. apply (f_equal length) in Hnil. rewrite length_drop in Hnil.
    simpl in Hnil. destruct (Z.ltb_spec (i - 1) 0); lia.
  - intros H1. destruct (Z.ltb_spec (i - 1) 0); [lia|].
    by rewrite Z.min_l by lia.
Qed.

Lemma removeOverlap_cons (first : SimplePath Rank) (rest : list (SimplePath Rank)) :
  removeOverlap splice (first :: rest)
  = first ++ concat (map (fun thoughts => splice thoughts 1%nat 1%nat) rest).
Proof.
  unfold removeOverlap. rewrite imap_cons. simpl. do 2 f_equal.
  rewrite <- imap_const. by apply imap_ext.
Qed.

(** C2, as the code has it. For a non-empty context chain whose pivot (the
    terminal thought of the last segment) occurs in the path at index [i],
    [chain] returns the first segment unchanged, then every later segment
    without its element at index 1, then the append tail without its
    element at index 1, where the append tail is [path.slice(i - 1)] (the
    path from one position before the match when [i >= 1]) with its first
    element re-ranked to the rank of the first context of the pivot whose
    head is that element, when there is one. The first element of a later
    segment and of the append tail is kept. [splice(thoughts, 1, 1)] is
    taken to remove one element at index 1, as [Array.prototype.splice]
    does. *)
Theorem chain_removes_index_1 (state : State)
    (segment0 : SimplePath Rank) (segments : list (SimplePath Rank))
    (lastSegment path : SimplePath Rank) (pivot : Child Rank) :
  (∀ thoughts, splice thoughts 1%nat 1%nat = pureSplice thoughts 1 1) →
  last (segment0 :: segments) = Some lastSegment →
  head lastSegment = Some pivot →
  0 <= findIndex (isPivot normalizeThought pivot) path →
  let i := findIndex (isPivot normalizeThought pivot) path in
  ∃ first tail,
    slice (i - 1) path = first :: tail
    ∧ (1 <= i → first :: tail = drop (Z.to_nat (i - 1)) path)
    ∧ chain normalizeThought getContextsSortedAndRanked splice state
        (segment0 :: segments) path
      = Ok (segment0
            ++ concat (map (fun thoughts => pureSplice thoughts 1 1) segments)
            ++ pureSplice
                 (reRanked first (first :: tail)
                    (List.find (inContextOf normalizeThought first)
                       (getContextsSortedAndRanked state (value pivot))))
                 1 1).
Proof.
  intros Hsplice Hlast Hpivot Hfound i.
  pose proof (findIndex_found_lt _ _ Hfound) as Hlt.
  destruct (slice_before_found path i ltac:(subst i; lia)) as [Hne Hdrop].
  destruct (slice (i - 1) path) as [|first tail] eqn:Eappend; [done|].
  exists first, tail. split; [done|]. split; [by intros ?; rewrite Hdrop|].
  unfold chain. rewrite Hlast, Hpivot. fold i. rewrite Eappend.
  rewrite <- app_comm_cons, removeOverlap_cons.
  rewrite map_app, concat_app. simpl. rewrite app_nil_r.
  by rewrite Hsplice, (map_ext _ _ Hsplice segments).
Qed.

End ChainFacts.

(** [chain [[a; b]] [a; b; c]] with every value in the context [[x; a]] at
    rank 7: the result is [a; b], then [a] re-ranked, then [c]. *)
Lemma chain_removes_index_1_witness :
  Chain.chain Chain.sameValue Chain.oneContext (fun l => pureSplice l) tt [Chain.ab] Chain.abc
  = Ok [Chain.thoughtRanked "a"; Chain.thoughtRanked "b";
        {| Chain.value := "a"; Chain.rank := 7 |}; Chain.thoughtRanked "c"].
Proof.
  destruct (chain_removes_index_1 Chain.sameValue Chain.oneContext (fun l => pureSplice l) tt
              Chain.ab [] Chain.ab Chain.abc (Chain.thoughtRanked "b"))
    as (first & tail & Happend & _ & Hchain).
  - reflexivity.
  - reflexivity.
  - reflexivity.
  - vm_compute. discriminate.
  - rewrite Hchain. vm_compute in Happend. injection Happend as <- <-.
    reflexivity.
Defined.

(** C2 as stated fails: [chain [[a; b]] [a; b; c]] is [a; b; a; c]; the
    pivot [b] occurs at index 1, the append tail is [a; b; c], and dropping
    the first element of the tail would give [a; b; b; c]. *)
Lemma chain_keeps_first_element :
  Chain.findIndex_pivot_example = 1
  ∧ Chain.chain Chain.sameValue Chain.noContexts (fun l => pureSplice l) tt
      [Chain.ab] Chain.abc
    = Ok [Chain.thoughtRanked "a"; Chain.thoughtRanked "b";
          Chain.thoughtRanked "a"; Chain.thoughtRanked "c"]
  ∧ Chain.chain Chain.sameValue Chain.noContexts (fun l => pureSplice l) tt
      [Chain.ab] Chain.abc
    ≠ Ok (Chain.chainAsSpecified [Chain.ab] Chain.abc 1).
Proof.
  split; [reflexivity|]. split; [reflexivity|]. vm_compute. discriminate.
Qed.

(* ===================================================================== *)
(** * Theorems: the positioning pass *)
(* ===================================================================== *)

Section PositioningFacts.

Import Layout.

Variable fontSize : Q.
Variable sizes : gmap string Size.t.
Variable singleLineHeight : Q.

Lemma mapFrom_length {A B St} (f : St -> A -> nat -> B * St) (l : list A) (i : nat) (s : St) :
  length (mapFrom f i l s) = length l.
Proof.
  revert i s. induction l as [|x l IH]; intros i s; simpl; [done|].
  destruct (f s x i) as [b s']. simpl. by rewrite IH.
Qed.

(** Each output of [mapFrom] is the callback applied to the input at the
    same position and its index, in some state. *)
Lemma mapFrom_lookup {A B St} (f : St -> A -> nat -> B * St) (l : list A) (i k : nat)
    (s : St) (b : B) :
  mapFrom f i l s !! k = Some b →
  ∃ x s', l !! k = Some x ∧ b = (f s' x (i + k)%nat).1.
Proof.
  revert i k s. induction l as [|x l IH]; intros i k s; simpl; [done|].
  destruct (f s x i) as [b0 s0] eqn:Ef. destruct k as [|k]; simpl.
  - intros [= <-]. exists x, s. by rewrite Nat.add_0_r, Ef.
  - intros Hk. destruct (IH _ _ _ Hk) as (y & s' & Hy & ->).
    exists y, s'. split; [done|]. by rewrite Nat.add_succ_r.
Qed.

(** Two consecutive outputs of [mapFrom]: the second is computed in the
    state the first left. *)
Lemma mapFrom_lookup_succ {A B St} (f : St -> A -> nat -> B * St) (l : list A) (i k : nat)
    (s : St) (b b' : B) :
  mapFrom f i l s !! k = Some b → mapFrom f i l s !! S k = Some b' →
  ∃ x x' s', l !! k = Some x ∧ l !! S k = Some x'
             ∧ b = (f s' x (i + k)%nat).1
             ∧ b' = (f (f s' x (i + k)%nat).2 x' (i + S k)%nat).1.
Proof.
  revert i k s. induction l as [|x l IH]; intros i k s; simpl; [done|].
  destruct (f s x i) as [b0 s0] eqn:Ef. destruct k as [|k]; simpl.
  - intros [= <-]. destruct l as [|x' l]; simpl; [done|].
    destruct (f s0 x' (S i)) as [b1 s1] eqn:Ef'. simpl. intros [= <-].
    exists x, x', s. rewrite Nat.add_0_r, Ef. simpl.
    by rewrite Nat.add_1_r, Ef'.
  - intros Hk Hk'. destruct (IH _ _ _ Hk Hk') as (y & y' & s' & Hy & Hy' & -> & ->).
    exists y, y', s'. by rewrite !Nat.add_succ_r.
Qed.

(** C9. In the positioning pass every positioned node carries the node at
    the same position of the linearized list; its cliff is
    [min(0, next.depth - node.depth)] when a next node exists, which is 0
    when the depth does not decrease and otherwise minus the number of
    levels that close; the cliff of the last node is its negated depth
    minus one. *)
Theorem positioned_cliff (treeThoughts : list TreeThought) (i : nat)
    (p : TreeThoughtPositioned) :
  treeThoughtsPositioned fontSize sizes singleLineHeight treeThoughts !! i = Some p →
  treeThoughts !! i = Some (node p)
  ∧ (∀ next, treeThoughts !! S i = Some next →
       cliff p = Z.min 0 (depth next - depth (node p))
       ∧ (depth (node p) <= depth next → cliff p = 0)
       ∧ (depth next < depth (node p) → - cliff p = depth (node p) - depth next))
  ∧ (S i = length treeThoughts → cliff p = - depth (node p) - 1).
Proof.
  unfold treeThoughtsPositioned. intros Hp.
  destruct (mapFrom_lookup _ _ _ _ _ _ Hp) as (n & [yaccum widths] & Hn & ->).
  simpl. rewrite Nat.add_1_r. split; [done|]. split.
  - intros next Hnext. rewrite Hnext. lia.
  - intros Hlast. rewrite (lookup_ge_None_2 treeThoughts (S i)) by lia. done.
Qed.

(** C10. In the positioning pass the first node is at [y = 0]; the node
    that follows a node flagged [isTableCol1] has the [y] of that node,
    and the node that follows any other node has that node's [y] plus
    that node's height. The node and its height are those of the pass:
    the positioned node carries the node at the same position of the
    linearized list, and its height is the measured height
    [sizes[node.key].height] when the key has been measured and
    otherwise the single-line height, increased by a quarter of the font
    size at a cliff. *)
Theorem positioned_y (treeThoughts : list TreeThought) (i : nat)
    (p p' : TreeThoughtPositioned) :
  treeThoughtsPositioned fontSize sizes singleLineHeight treeThoughts !! i = Some p →
  treeThoughtsPositioned fontSize sizes singleLineHeight treeThoughts !! S i = Some p' →
  y p' = (if isTableCol1 (node p) then y p else (y p + height p)%Q)
  ∧ (∀ p0, treeThoughtsPositioned fontSize sizes singleLineHeight treeThoughts !! 0%nat
           = Some p0 → y p0 = 0%Q)
  ∧ treeThoughts !! i = Some (node p)
  ∧ treeThoughts !! S i = Some (node p')
  ∧ height p = match sizes !! key (node p) with
               | Some sz => Size.height sz
               | None => singleLineHeightWithCliff p
               end
  ∧ singleLineHeightWithCliff p
    = (singleLineHeight + (if cliff p <? 0 then fontSize / 4 else 0))%Q.
Proof.
  unfold treeThoughtsPositioned. intros Hp Hp'. split; [|split].
  - destruct (mapFrom_lookup_succ _ _ _ _ _ _ _ Hp Hp')
      as (n & n' & [yaccum widths] & Hn & Hn' & -> & ->).
    simpl. by destruct (isTableCol1 n).
  - intros p0 Hp0. destruct treeThoughts as [|n l]; [done|].
    simpl in Hp0. by injection Hp0 as <-.
  - destruct (mapFrom_lookup _ _ _ _ _ _ Hp) as (n & [yaccum widths] & Hn & ->).
    destruct (mapFrom_lookup _ _ _ _ _ _ Hp') as (n' & [yaccum' widths'] & Hn' & ->).
    by repeat split.
Qed.

End PositioningFacts.

(* ===================================================================== *)
(** * Theorems: linearizeTree *)
(* ===================================================================== *)

Section LinearizeFacts.

Import Layout.

Context `{Selectors}.

(** An invariant of the accumulator of [reduce] that every call of the
    callback on an element of the array preserves holds of the result. *)
Lemma reduceFrom_invariant {A B} (f : B -> A -> nat -> Res B) (I : B -> Prop)
    (l : list A) :
  (∀ accum x i accum', x ∈ l → I accum → f accum x i = Ok accum' → I accum') →
  ∀ i accum r, I accum → reduceFrom f i l accum = Ok r → I r.
Proof.
  induction l as [|x l IH]; intros Hstep i accum r Hacc; simpl.
  - by intros [= <-].
  - destruct (f accum x i) as [accum'| |] eqn:Ef; simpl; try done.
    apply IH.
    + intros ???? Hin. apply Hstep. by right.
    + eapply Hstep; [by left | done | done].
Qed.

(** What a call of the callback that returns has done: either the child
    record is missing and the accumulator is emptied, or a node is built,
    the recursive call returns and node and descendants are appended. *)
Lemma visitChild_Ok linearize state a base simple contextViewActive contextChainNew
    filteredChildren styleChildren grandchildrenAttributeId inherited
    accum below filteredChild i accum' below' :
  visitChild linearize state a base simple contextViewActive contextChainNew
    filteredChildren styleChildren grandchildrenAttributeId inherited
    (accum, below) filteredChild i = Ok (accum', below') →
  (contextViewActive = true
   ∧ getThoughtById state (parentId filteredChild) = None
   ∧ accum' = [] ∧ below' = below)
  ∨ ∃ child n a' descendants,
      (if contextViewActive then getThoughtById state (parentId filteredChild)
       else Some filteredChild) = Some child
      ∧ linearize a' = Ok descendants
      ∧ Args.basePath a' = Some (path n)
      ∧ Args.belowCursor a'
        = (if negb (truthy below) && atCursor state n then Some true else below)
      ∧ Args.depth a' = Args.depth a + 1
      ∧ Args.indexDescendant a' = indexDescendant n
      ∧ path n = appendToPathMemo base (id child)
      ∧ belowCursor n = truthy (Args.belowCursor a')
      ∧ depth n = Args.depth a
      ∧ indexDescendant n
        = Args.indexDescendant a
          + match last accum with Some m => indexDescendant m | None => 0 end
          + (if (Args.depth a =? 0) && (i =? 0)%nat then 0 else 1)
      ∧ accum' = accum ++ n :: descendants
      ∧ below'
        = (if negb (truthy (Args.belowCursor a'))
              && match last descendants with
                 | Some d => belowCursor d
                 | None => false
                 end
           then Some true else Args.belowCursor a').
Proof.
  unfold visitChild.
  destruct (if contextViewActive then _ else _) as [child|] eqn:Echild.
  - match goal with |- context [linearize ?args] => set (a' := args) end.
    destruct (linearize a') as [descendants| |] eqn:Erec; simpl; try done.
    intros [= <- <-]. right.
    match goal with |- context [accum ++ ?node :: descendants] => exists child, node end.
    exists a', descendants. by repeat split.
  - intros [= <- <-]. left. destruct contextViewActive; by repeat split.
Qed.

Lemma VisibleFrom_through state base tid p :
  isVisible state base = true →
  VisibleFrom state (appendToPathMemo base tid) p →
  VisibleFrom state base p.
Proof.
  intros Hbase Hp. induction Hp as [tid' Hvis | q tid' _ IH Hq].
  - apply visible_descendant; [by apply visible_child | done].
  - by apply visible_descendant.
Qed.

(** C8. A call of [linearizeTree] on a path that is neither the root, nor
    expanded, nor hover-expanded returns nothing, so the whole subtree of
    that path is skipped; and every node that a call emits is reached
    from the base path through paths that are all root, expanded or
    hover-expanded. *)
Theorem linearizeTree_visible_ancestors (fuel : nat) (state : State) (a : Args.t)
    (out : list TreeThought) :
  linearizeTree fuel state a = Ok out →
  (isVisible state (default HOME_PATH (Args.basePath a)) = false → out = [])
  ∧ (∀ n, n ∈ out → VisibleFrom state (default HOME_PATH (Args.basePath a)) (path n)).
Proof.
  revert a out. induction fuel as [|fuel IH]; intros a out; [done|].
  cbn [linearizeTree]. set (base := default HOME_PATH (Args.basePath a)).
  destruct (isVisible state base) eqn:Hvis; cbn [negb].
  - intros Hout. split; [done|].
    destruct (if isContextViewActive state base then _ else _)
      as [children| |]; simpl in Hout; try done.
    destruct (isContextViewActive state base && _).
    { injection Hout as <-. by intros n Hn%elem_of_nil. }
    match type of Hout with
    | context [reduceFrom ?f 0%nat ?l ?init] =>
        destruct (reduceFrom f 0%nat l init) as [[accum below]| |] eqn:Ered
    end; simpl in Hout; try done.
    injection Hout as <-.
    refine (reduceFrom_invariant _
              (fun r : list TreeThought * option bool =>
                 ∀ n, n ∈ r.1 → VisibleFrom state base (path n))
              _ _ _ _ (accum, below) _ Ered); [|by intros n Hn%elem_of_nil].
    intros [accum0 below0] x i [accum1 below1] _ Hacc Hstep. simpl in *.
    apply visitChild_Ok in Hstep
        as [(_ & _ & -> & _) | (child & n & a' & descendants & _ & Hrec & Hbase
                                & _ & _ & _ & Hpath & _ & _ & _ & -> & _)].
    + by intros n Hn%elem_of_nil.
    + intros m [Hm | [-> | Hm]%elem_of_cons]%elem_of_app.
      * by apply Hacc.
      * rewrite Hpath. by apply visible_child.
      * apply IH in Hrec as [_ Hrec]. rewrite Hbase in Hrec. simpl in Hrec.
        rewrite Hpath in Hrec. eapply VisibleFrom_through; [done|]. by apply Hrec.
  - intros [= <-]. split; [done|]. by intros n Hn%elem_of_nil.
Qed.

(** ** The [belowCursor] flag when no context parent is pending *)

Lemma flagsFrom_app state b (l1 l2 : list TreeThought) :
  flagsFrom state b (l1 ++ l2)
  ↔ flagsFrom state b l1 ∧ flagsFrom state (b || existsb (atCursor state) l1) l2.
Proof.
  revert b. induction l1 as [|n l1 IH]; intros b; simpl.
  - rewrite orb_false_r. tauto.
  - rewrite IH, orb_assoc. tauto.
Qed.

Lemma flagsFrom_last state b (l : list TreeThought) d :
  flagsFrom state b l → last l = Some d →
  belowCursor d = b || existsb (atCursor state) l.
Proof.
  intros Hl [l' ->]%last_Some.
  apply flagsFrom_app in Hl as [_ [Hd _]].
  rewrite Hd, existsb_app. simpl. by rewrite orb_false_r, orb_assoc.
Qed.

Lemma flagsFrom_lookup state b (l : list TreeThought) i n :
  flagsFrom state b l → l !! i = Some n →
  belowCursor n = b || existsb (atCursor state) (take (S i) l).
Proof.
  revert b i. induction l as [|m l IH]; intros b i; [done|].
  intros [Hm Hl]. destruct i as [|i]; simpl.
  - intros [= <-]. rewrite Hm. by destruct l; simpl; rewrite orb_false_r.
  - intros Hn. rewrite (IH _ _ Hl Hn). by rewrite orb_assoc.
Qed.

Lemma truthy_if (c : bool) (b : option bool) :
  truthy (if c then Some true else b) = c || truthy b.
Proof. by destruct c. Qed.

(** One call of the callback keeps the flags of the accumulator right
    and the variable [belowCursor] equal to the flag of the next node,
    provided the child record is there and the recursive call is right. *)
Lemma visitChild_flagsFrom linearize state a base simple contextViewActive
    contextChainNew filteredChildren styleChildren grandchildrenAttributeId inherited
    b accum below filteredChild i accum' below' :
  (∀ a' out, linearize a' = Ok out → flagsFrom state (truthy (Args.belowCursor a')) out) →
  (contextViewActive = true → is_Some (getThoughtById state (parentId filteredChild))) →
  flagsFrom state b accum →
  truthy below = b || existsb (atCursor state) accum →
  visitChild linearize state a base simple contextViewActive contextChainNew
    filteredChildren styleChildren grandchildrenAttributeId inherited
    (accum, below) filteredChild i = Ok (accum', below') →
  flagsFrom state b accum'
  ∧ truthy below' = b || existsb (atCursor state) accum'.
Proof.
  intros Hlin Hloaded Hacc Hbelow Hstep.
  apply visitChild_Ok in Hstep
      as [(Hcv & Hnone & _ & _) | (child & n & a' & descendants & _ & Hrec & _
                                   & Ha' & _ & _ & _ & Hn & _ & _ & -> & ->)].
  { destruct (Hloaded Hcv) as [? Hsome]. congruence. }
  apply Hlin in Hrec.
  assert (truthy (Args.belowCursor a') = b || existsb (atCursor state) accum
                                         || atCursor state n) as Ea'.
  { rewrite Ha', truthy_if, Hbelow.
    by destruct b, (existsb _ accum), (atCursor state n). }
  rewrite Ea' in Hrec, Hn. split.
  - apply flagsFrom_app. split; [done|]. simpl. by rewrite Hn.
  - rewrite truthy_if, existsb_app, Ea'. simpl.
    destruct (last descendants) as [d|] eqn:Hlast.
    + rewrite (flagsFrom_last _ _ _ _ Hrec Hlast).
      by destruct b, (existsb _ accum), (atCursor state n), (existsb _ descendants).
    + apply last_None in Hlast as ->. simpl.
      by destruct b, (existsb _ accum), (atCursor state n).
Qed.

(** When every context's parent record is loaded, the nodes emitted by a
    call entered with [belowCursor = b] carry the flags [flagsFrom b]. *)
Lemma linearizeTree_flagsFrom (fuel : nat) (state : State) (a : Args.t)
    (out : list TreeThought) :
  contextsLoaded state →
  linearizeTree fuel state a = Ok out →
  flagsFrom state (truthy (Args.belowCursor a)) out.
Proof.
  intros Hloaded. revert a out. induction fuel as [|fuel IH]; intros a out; [done|].
  cbn [linearizeTree]. set (base := default HOME_PATH (Args.basePath a)).
  destruct (isVisible state base); cbn [negb]; [|by intros [= <-]].
  intros Hout.
  match type of Hout with
  | bindRes ?c _ = _ => destruct c as [children| |] eqn:Echildren
  end; simpl in Hout; try done.
  destruct (isContextViewActive state base && _); [by injection Hout as <-|].
  match type of Hout with
  | context [reduceFrom ?f 0%nat ?l ?init] =>
      destruct (reduceFrom f 0%nat l init) as [[accum below]| |] eqn:Ered
  end; simpl in Hout; try done.
  injection Hout as <-.
  refine (proj1 (reduceFrom_invariant _
            (fun r : list TreeThought * option bool =>
               flagsFrom state (truthy (Args.belowCursor a)) r.1
               ∧ truthy r.2 = truthy (Args.belowCursor a)
                              || existsb (atCursor state) r.1)
            _ _ _ _ (accum, below) _ Ered)); [|by simpl; rewrite orb_false_r].
  intros [accum0 below0] x i [accum1 below1] Hx [Hacc Hbelow] Hstep.
  cbn [fst snd] in *.
  eapply visitChild_flagsFrom; [exact IH | | exact Hacc | exact Hbelow | exact Hstep].
  intros Hcv. rewrite Hcv in Echildren.
  destruct (getThoughtById state (headId base)) as [thought|]; [|done].
  injection Echildren as <-.
  apply list_elem_of_filter in Hx as [_ Hx]. by apply Hloaded in Hx.
Qed.

(** In a store without pending context parents, [belowCursor] is false on
    every node emitted before the first node at the cursor and true from
    that node on. *)
Lemma linearizeTree_belowFromCursor_loaded (fuel : nat) (state : State)
    (out : list TreeThought) :
  contextsLoaded state →
  linearizeTree fuel state Args.default = Ok out →
  belowFromCursor state out.
Proof.
  intros Hloaded Hout i n Hn.
  by rewrite (flagsFrom_lookup _ _ _ _ _
                (linearizeTree_flagsFrom _ _ _ _ Hloaded Hout) Hn).
Qed.

(** ** [indexDescendant] increases along the output *)

Lemma reduceFrom_invariant_indexed {A B} (f : B -> A -> nat -> Res B)
    (I : nat -> B -> Prop) (l : list A) :
  (∀ accum x i accum', x ∈ l → I i accum → f accum x i = Ok accum' → I (S i) accum') →
  ∀ i accum r, I i accum → reduceFrom f i l accum = Ok r → I (i + length l)%nat r.
Proof.
  induction l as [|x l IH]; intros Hstep i accum r Hacc; simpl.
  - intros [= <-]. by rewrite Nat.add_0_r.
  - destruct (f accum x i) as [accum'| |] eqn:Ef; simpl; try done.
    rewrite Nat.add_succ_r. apply (IH ltac:(intros ???? Hin; apply Hstep; by right) (S i)).
    eapply Hstep; [by left | done | done].
Qed.

Lemma indexBefore_last (l : list TreeThought) (x : TreeThought) :
  StronglySorted indexBefore l → last l = Some x →
  ∀ m, m ∈ l → indexDescendant m <= indexDescendant x.
Proof.
  intros Hl [l' ->]%last_Some m [Hm | ->%list_elem_of_singleton]%elem_of_app;
    [|lia].
  pose proof (StronglySorted_app_1_elem_of _ _ _ _ _ Hl Hm
                ltac:(by apply list_elem_of_singleton)) as Hlt.
  unfold indexBefore in Hlt. lia.
Qed.

(** Started at a non-negative depth and index, a call emits nodes whose
    [indexDescendant] strictly increases, from the index of the call on
    (from the next one on below the top level). The step need not be
    one. *)
Lemma linearizeTree_index_increasing (fuel : nat) (state : State) (a : Args.t)
    (out : list TreeThought) :
  0 <= Args.depth a → 0 <= Args.indexDescendant a →
  linearizeTree fuel state a = Ok out →
  StronglySorted indexBefore out
  ∧ Forall (fun n => Args.indexDescendant a + (if Args.depth a =? 0 then 0 else 1)
                     <= indexDescendant n) out.
Proof.
  revert a out. induction fuel as [|fuel IH]; intros a out Hd Hp; [done|].
  cbn [linearizeTree].
  destruct (negb _); [intros [= <-]; split; constructor|].
  match goal with
  | |- bindRes ?c _ = _ → _ => destruct c as [children| |]
  end; simpl; try done.
  destruct (isContextViewActive state _ && _); [intros [= <-]; split; constructor|].
  match goal with
  | |- context [reduceFrom ?f 0%nat ?l ?init] =>
      destruct (reduceFrom f 0%nat l init) as [[accum below]| |] eqn:Ered
  end; simpl; try done.
  intros [= <-].
  set (lb := Args.indexDescendant a + (if Args.depth a =? 0 then 0 else 1)).
  refine (proj2 (reduceFrom_invariant_indexed _
            (fun (i : nat) (r : list TreeThought * option bool) =>
               (i = 0%nat → r.1 = [])
               ∧ StronglySorted indexBefore r.1
               ∧ Forall (fun n => lb <= indexDescendant n) r.1)
            _ _ _ _ (accum, below) _ Ered)); [|split; [done|]; split; constructor].
  intros [accum0 below0] x i [accum1 below1] _ (Hfirst & Hsorted & Hlb) Hstep.
  cbn [fst snd] in *.
  apply visitChild_Ok in Hstep
      as [(_ & _ & -> & _) | (child & n & a' & descendants & _ & Hrec & _ & _
                              & Hd' & Hp' & _ & _ & _ & Hn & -> & _)].
  { split; [done|]. split; constructor. }
  assert (lb <= indexDescendant n
          ∧ ∀ m, m ∈ accum0 → indexDescendant m < indexDescendant n) as [Hn_lb Hn_gt].
  { rewrite Hn. destruct (last accum0) as [x0|] eqn:Hlast.
    - assert (i ≠ 0%nat) as Hi by (intros ->; by rewrite Hfirst in Hlast).
      replace (i =? 0)%nat with false by (symmetry; by apply Nat.eqb_neq).
      rewrite andb_false_r.
      assert (lb <= indexDescendant x0) as Hx0.
      { rewrite Forall_forall in Hlb. by apply Hlb, last_Some_elem_of. }
      split; [lia|]. intros m Hm.
      pose proof (indexBefore_last _ _ Hsorted Hlast m Hm). lia.
    - apply last_None in Hlast as ->. split; [|by intros m Hm%elem_of_nil].
      subst lb. destruct (Args.depth a =? 0), (i =? 0)%nat; simpl; lia. }
  destruct (IH a' descendants) as [Hdesc Hdesc_lb];
    [lia | rewrite Hp'; subst lb; destruct (_ =? 0); lia | exact Hrec |].
  rewrite Hd', Hp' in Hdesc_lb.
  replace (Args.depth a + 1 =? 0) with false in Hdesc_lb
    by (symmetry; apply Z.eqb_neq; lia).
  rewrite Forall_forall in Hdesc_lb.
  split; [intros ?; lia|]. split.
  - apply StronglySorted_app. split; [|split; [done|]].
    + intros m1 m2 Hm1 [->|Hm2]%elem_of_cons; unfold indexBefore.
      * by apply Hn_gt.
      * specialize (Hn_gt m1 Hm1). specialize (Hdesc_lb m2 Hm2). lia.
    + constructor; [done|]. apply Forall_forall. intros m Hm.
      specialize (Hdesc_lb m Hm). unfold indexBefore. lia.
  - apply Forall_app. split; [done|]. constructor; [done|].
    apply Forall_forall. intros m Hm. specialize (Hdesc_lb m Hm). lia.
Qed.

(** A pending context empties the accumulator, whatever it holds. *)
Lemma visitChild_pending linearize state a base simple contextChainNew
    filteredChildren styleChildren grandchildrenAttributeId inherited
    accum below filteredChild i :
  getThoughtById state (parentId filteredChild) = None →
  visitChild linearize state a base simple true contextChainNew
    filteredChildren styleChildren grandchildrenAttributeId inherited
    (accum, below) filteredChild i = Ok ([], below).
Proof. intros Hnone. unfold visitChild. by rewrite Hnone. Qed.

(** ** More fuel does not change a result *)

Lemma reduceFrom_mono {A B} (f g : B -> A -> nat -> Res B) (l : list A) :
  (∀ accum x i r, f accum x i = Ok r → g accum x i = Ok r) →
  ∀ i accum r, reduceFrom f i l accum = Ok r → reduceFrom g i l accum = Ok r.
Proof.
  intros Hfg. induction l as [|x l IH]; intros i accum r; simpl; [done|].
  destruct (f accum x i) as [accum'| |] eqn:Ef; simpl; try done.
  rewrite (Hfg _ _ _ _ Ef). simpl. apply IH.
Qed.

Lemma visitChild_mono (linearize linearize' : Args.t -> Res (list TreeThought))
    state a base simple contextViewActive contextChainNew filteredChildren
    styleChildren grandchildrenAttributeId inherited acc filteredChild i r :
  (∀ a' out, linearize a' = Ok out → linearize' a' = Ok out) →
  visitChild linearize state a base simple contextViewActive contextChainNew
    filteredChildren styleChildren grandchildrenAttributeId inherited
    acc filteredChild i = Ok r →
  visitChild linearize' state a base simple contextViewActive contextChainNew
    filteredChildren styleChildren grandchildrenAttributeId inherited
    acc filteredChild i = Ok r.
Proof.
  intros Hlin. unfold visitChild. destruct acc as [accum below].
  destruct (if contextViewActive then _ else _) as [child|]; [|done].
  match goal with |- context [linearize ?args] => set (a' := args) end.
  destruct (linearize a') as [descendants| |] eqn:Erec; simpl; try done.
  by rewrite (Hlin _ _ Erec).
Qed.

(** A call that returns with some fuel returns the same with more. *)
Lemma linearizeTree_fuel_mono (fuel k : nat) (state : State) (a : Args.t)
    (out : list TreeThought) :
  linearizeTree fuel state a = Ok out →
  linearizeTree (fuel + k) state a = Ok out.
Proof.
  revert a out. induction fuel as [|fuel IH]; intros a out; [done|].
  cbn [linearizeTree Nat.add].
  destruct (negb _); [done|].
  match goal with
  | |- bindRes ?c _ = _ → _ => destruct c as [children| |]
  end; simpl; try done.
  destruct (isContextViewActive state _ && _); [done|].
  match goal with
  | |- context [reduceFrom ?f 0%nat ?l ?init] =>
      destruct (reduceFrom f 0%nat l init) as [r| |] eqn:Ered
  end; simpl; try done.
  intros [= <-].
  erewrite reduceFrom_mono; [reflexivity | | exact Ered].
  intros accum x i r'. apply visitChild_mono, IH.
Qed.

End LinearizeFacts.

(** ** Runs on the example stores *)

(** The positioned table: the nodes are [t], [t/r1], [t/r1/v1], [t/r2];
    [v1] is followed by the shallower [r2], which is last. *)
Lemma positioned_cliff_witness :
  ∃ p, Store.tablePositioned !! 2%nat = Some p
       ∧ Layout.cliff p = -1
       ∧ ∃ q, Store.tablePositioned !! 3%nat = Some q ∧ Layout.cliff q = -2.
Proof.
  assert (∃ p, Store.tablePositioned !! 2%nat = Some p) as [p Hp]
    by (vm_compute; eauto).
  assert (∃ q, Store.tablePositioned !! 3%nat = Some q) as [q Hq]
    by (vm_compute; eauto).
  exists p. split; [exact Hp|].
  destruct (positioned_cliff 16 Store.tableSizes 30 (Store.outputOf Store.tableStore)
              2%nat p Hp) as (Hn & Hnext & _).
  destruct (positioned_cliff 16 Store.tableSizes 30 (Store.outputOf Store.tableStore)
              3%nat q Hq) as (Hm & _ & Hlast).
  destruct (Hnext _ Hm) as (Hcliff & _).
  assert (4%nat = length (Store.outputOf Store.tableStore)) as Hlen
    by (vm_compute; reflexivity).
  specialize (Hlast Hlen). clear Hnext Hlen.
  remember (Layout.node p) as np. remember (Layout.node q) as nq.
  vm_compute in Hn, Hm. injection Hn as <-. injection Hm as <-.
  split; [rewrite Hcliff; reflexivity|].
  exists q. split; [exact Hq | rewrite Hlast; reflexivity].
Defined.

(** The positioned table at font size 16 and a single-line height of 30,
    where only [r1] has been measured (height 40). [t] is at [y = 0] with
    the height 30; [r1] follows at [y = 30] with its measured height; it is
    in the first column of the table, so its value [v1] is placed at the
    same [y]; [v1] is at a cliff and has the height [30 + 16 / 4 = 34], and
    [r2] follows it at [y = 64]. *)
Lemma positioned_y_witness :
  ∃ t r1 v1 r2,
    Store.tablePositioned !! 0%nat = Some t
    ∧ Store.tablePositioned !! 1%nat = Some r1
    ∧ Store.tablePositioned !! 2%nat = Some v1
    ∧ Store.tablePositioned !! 3%nat = Some r2
    ∧ Layout.y t = 0%Q
    ∧ Layout.height t = 30%Q
    ∧ Layout.y r1 = 30%Q
    ∧ Layout.isTableCol1 (Layout.node r1) = true
    ∧ Layout.height r1 = 40%Q
    ∧ Layout.y v1 = Layout.y r1
    ∧ Layout.isTableCol1 (Layout.node v1) = false
    ∧ (Layout.height v1 == 34)%Q
    ∧ Layout.y r2 = (Layout.y v1 + Layout.height v1)%Q
    ∧ (Layout.y r2 == 64)%Q.
Proof.
  assert (∃ p, Store.tablePositioned !! 0%nat = Some p) as [t H0]
    by (vm_compute; eauto).
  assert (∃ p, Store.tablePositioned !! 1%nat = Some p) as [r1 H1]
    by (vm_compute; eauto).
  assert (∃ p, Store.tablePositioned !! 2%nat = Some p) as [v1 H2]
    by (vm_compute; eauto).
  assert (∃ p, Store.tablePositioned !! 3%nat = Some p) as [r2 H3]
    by (vm_compute; eauto).
  exists t, r1, v1, r2.
  destruct (positioned_y 16 Store.tableSizes 30 (Store.outputOf Store.tableStore)
              0%nat t r1 H0 H1) as (Hy0 & Hfirst & _ & _ & Hh0 & Hs0).
  destruct (positioned_y 16 Store.tableSizes 30 (Store.outputOf Store.tableStore)
              1%nat r1 v1 H1 H2) as (Hy1 & _ & _ & _ & Hh1 & _).
  destruct (positioned_y 16 Store.tableSizes 30 (Store.outputOf Store.tableStore)
              2%nat v1 r2 H2 H3) as (Hy2 & _ & _ & _ & Hh2 & Hs2).
  assert (Layout.isTableCol1 (Layout.node t) = false
          ∧ Layout.key (Layout.node t) = "|t"%string
          ∧ Layout.cliff t = 0) as (Hc0 & Hk0 & Hcliff0).
  { clear -H0. vm_compute in H0. injection H0 as <-. by split. }
  assert (Layout.isTableCol1 (Layout.node r1) = true
          ∧ Layout.key (Layout.node r1) = "|r1"%string) as (Hc1 & Hk1).
  { clear -H1. vm_compute in H1. injection H1 as <-. by split. }
  assert (Layout.isTableCol1 (Layout.node v1) = false
          ∧ Layout.key (Layout.node v1) = "|v1"%string
          ∧ Layout.cliff v1 = -1) as (Hc2 & Hk2 & Hcliff2).
  { clear -H2. vm_compute in H2. injection H2 as <-. by split. }
  specialize (Hfirst t H0).
  assert (Layout.height t = 30%Q) as Hheight0.
  { rewrite Hh0, Hk0, Hs0, Hcliff0. vm_compute. reflexivity. }
  assert (Layout.height r1 = 40%Q) as Hheight1.
  { rewrite Hh1, Hk1. vm_compute. reflexivity. }
  assert (Layout.height v1 = (30 + 16 / 4)%Q) as Hheight2.
  { rewrite Hh2, Hk2, Hs2, Hcliff2. vm_compute. reflexivity. }
  rewrite Hc0, Hfirst, Hheight0 in Hy0. rewrite Hc1 in Hy1. rewrite Hc2 in Hy2.
  assert (Layout.y r1 = 30%Q) as Hyr1 by (rewrite Hy0; reflexivity).
  split; [exact H0|]. split; [exact H1|]. split; [exact H2|]. split; [exact H3|].
  split; [exact Hfirst|]. split; [exact Hheight0|]. split; [exact Hyr1|].
  split; [exact Hc1|]. split; [exact Hheight1|]. split; [exact Hy1|].
  split; [exact Hc2|]. split; [rewrite Hheight2; reflexivity|].
  split; [exact Hy2|].
  rewrite Hy2, Hy1, Hyr1, Hheight2. reflexivity.
Defined.

(** Every node of the store [twoLevels] is reached from the root through
    visible paths. *)
Lemma linearizeTree_visible_ancestors_witness :
  Forall (fun n => Layout.VisibleFrom Store.twoLevels Layout.HOME_PATH (Layout.path n))
         (Store.outputOf Store.twoLevels).
Proof.
  apply Forall_forall.
  apply (linearizeTree_visible_ancestors 4 Store.twoLevels Layout.Args.default
           (Store.outputOf Store.twoLevels)).
  vm_compute. reflexivity.
Defined.

(** Runs [linearizeTree] on a store with three units of fuel and lifts the
    result to any larger amount. *)
Ltac run_store k st :=
  rewrite (linearizeTree_fuel_mono 3 k st Layout.Args.default (Store.outputOf st))
    by (vm_compute; reflexivity).

(** C1 fails on the code. In the store [twoLevels] the emitted nodes are
    [a], [b], [b/b1], [b/b2] and their [indexDescendant] are 0, 1, 2, 4: the
    index of [b/b2] is the index of its parent [b] plus the index of its
    previous sibling [b/b1] plus one. *)
Theorem linearizeTree_index_counts_parent_twice (k : nat) :
  Store.emitted (3 + k) Store.twoLevels
  = Some [ (["a"], 0, false); (["b"], 1, false);
           (["b"; "b1"], 2, false); (["b"; "b2"], 4, false) ]%string.
Proof.
  unfold Store.emitted. run_store k Store.twoLevels.
  vm_compute. reflexivity.
Qed.

(** C4 fails on the code. The thought [m0] shows the contexts of [m]: the
    root, [a], [b] and [c], in this order. The record of [b] is pending while
    those of the root, [a] and [c] are loaded. No error is raised, but the
    contexts emitted under [m0] are reduced to [m0/c]: the branches
    [m0/__ROOT__] and [m0/a], processed before the pending one, are dropped
    with it. *)
Theorem linearizeTree_pending_drops_earlier_siblings (k : nat) :
  Store.lookupThought (Store.contextStore (Some "b"%string) None) "b" = None
  ∧ is_Some (Store.lookupThought (Store.contextStore (Some "b"%string) None) "a")
  ∧ is_Some (Store.lookupThought (Store.contextStore (Some "b"%string) None) "c")
  ∧ Store.emitted (3 + k) (Store.contextStore (Some "b"%string) None)
    = Some [ (["m0"], 0, false); (["m0"; "c"], 1, false);
             (["a"], 2, false); (["c"], 3, false) ]%string.
Proof.
  split; [reflexivity|]. split; [by eexists|]. split; [by eexists|].
  unfold Store.emitted. run_store k (Store.contextStore (Some "b"%string) None).
  vm_compute. reflexivity.
Qed.

(** C3 fails on the code when the record of a context's parent is pending.
    The thought [m0] shows the contexts root, [a], [b], [c] and the cursor is
    on [m0/a].
    - When [c] is pending, the call on [m0] reaches the cursor and then
      returns nothing, so the flag is not propagated upwards: the later
      nodes [a] and [b] are emitted with [belowCursor = false].
    - When [b] is pending, the node at the cursor is dropped while the flag
      stays set: [m0/c], [a] and [c] are emitted with [belowCursor = true]
      although no node at the cursor is emitted before them.
    - When nothing is pending, the flag is false up to [m0/__ROOT__] and
      true from [m0/a] on. *)
Theorem linearizeTree_belowCursor_pending (k : nat) :
  Store.emitted (3 + k) (Store.contextStore (Some "c"%string) (Some ["m0"; "a"]%string))
  = Some [ (["m0"], 0, false); (["a"], 1, false); (["b"], 2, false) ]%string
  ∧ Store.emitted (3 + k) (Store.contextStore (Some "b"%string) (Some ["m0"; "a"]%string))
    = Some [ (["m0"], 0, false); (["m0"; "c"], 1, true);
             (["a"], 2, true); (["c"], 3, true) ]%string
  ∧ (∀ out,
       Layout.linearizeTree (3 + k)
         (Store.contextStore (Some "b"%string) (Some ["m0"; "a"]%string))
         Layout.Args.default = Ok out →
       ¬ Layout.belowFromCursor
           (Store.contextStore (Some "b"%string) (Some ["m0"; "a"]%string)) out)
  ∧ Store.emitted (3 + k) (Store.contextStore None (Some ["m0"; "a"]%string))
    = Some [ (["m0"], 0, false); (["m0"; "__ROOT__"], 1, false);
             (["m0"; "a"], 2, true); (["m0"; "b"], 3, true); (["m0"; "c"], 4, true);
             (["a"], 5, true); (["b"], 6, true); (["c"], 7, true) ]%string.
Proof.
  unfold Store.emitted. split; [|split; [|split]].
  - run_store k (Store.contextStore (Some "c"%string) (Some ["m0"; "a"]%string)).
    vm_compute. reflexivity.
  - run_store k (Store.contextStore (Some "b"%string) (Some ["m0"; "a"]%string)).
    vm_compute. reflexivity.
  - intros out.
    run_store k (Store.contextStore (Some "b"%string) (Some ["m0"; "a"]%string)).
    intros Hout Hspec.
    apply (f_equal (fun r => match r with Ok o => o | _ => [] end)) in Hout.
    change (Store.outputOf
              (Store.contextStore (Some "b"%string) (Some ["m0"; "a"]%string)) = out)
      in Hout.
    subst out.
    assert (∃ n, Store.outputOf
                   (Store.contextStore (Some "b"%string) (Some ["m0"; "a"]%string))
                 !! 1%nat = Some n
                 ∧ Layout.belowCursor n = true
                 ∧ existsb (Layout.atCursor
                              (Store.contextStore (Some "b"%string)
                                 (Some ["m0"; "a"]%string)))
                     (take 2 (Store.outputOf
                                (Store.contextStore (Some "b"%string)
                                   (Some ["m0"; "a"]%string)))) = false)
      as (n & Hn & Hbelow & Hnone).
    { vm_compute. eexists. by repeat split. }
    specialize (Hspec 1%nat n Hn). congruence.
  - run_store k (Store.contextStore None (Some ["m0"; "a"]%string)).
    vm_compute. reflexivity.
Qed.

(* ===================================================================== *)
(** * More on the sync queue *)
(* ===================================================================== *)

Section QueueFacts.

Import SyncQueue QueueProps.

Context {Lexeme ParentEntry RecentEntry Child : Type}.

Abbreviation Batch' := (SyncBatch Lexeme ParentEntry RecentEntry Child).
Abbreviation Act' := (Action Lexeme ParentEntry RecentEntry Child).
Abbreviation Store' := (State Lexeme ParentEntry RecentEntry Child).

Lemma mergeAll_app_cons (bs1 bs2 : list Batch') (b : Batch') :
  mergeAll (bs1 ++ b :: bs2)
  = fold_left (fun accum batch => mergeBatch (Some accum) batch) bs2
      (mergeBatch (Some (mergeAll bs1)) b).
Proof. unfold mergeAll. by rewrite fold_left_app. Qed.

(** A field that [mergeBatch] merges by spreading behaves as [writtenLast]
    says over a whole queue. *)
Lemma spread_field_writtenLast {V} (field : Batch' -> option (gmap string V)) :
  (∀ a b, field (mergeBatch (Some a) b) = Some (spread2 (field a) (field b))) →
  field emptyObject = None →
  ∀ bs, writtenLast field bs.
Proof.
  intros Hmerge Hempty.
  assert (∀ bs2 (acc : Batch') k,
            (∀ b', b' ∈ bs2 → spread (field b') !! k = None) →
            spread (field (fold_left (fun accum batch => mergeBatch (Some accum) batch)
                                     bs2 acc)) !! k
            = spread (field acc) !! k) as Hkeep.
  { induction bs2 as [|b' bs2 IH]; intros acc k Hnone; [done|]. cbn [fold_left].
    rewrite IH by (intros ??; apply Hnone; by right).
    rewrite Hmerge. unfold spread2. simpl.
    apply lookup_union_r, Hnone. by left. }
  intros bs. split.
  - intros bs1 b bs2 k v -> Hb Hnone.
    rewrite mergeAll_app_cons, Hkeep by done.
    rewrite Hmerge. unfold spread2. simpl. by apply lookup_union_Some_l.
  - intros k Hnone. unfold mergeAll. rewrite Hkeep by done.
    by rewrite Hempty.
Qed.

(** X1. Merging a queue of batches is last-write-wins per key over the
    whole queue: in each of the four merged indexes (thought index
    updates, context index updates, recently edited, updates) a key has
    the value of the last batch of the queue that has the key, and keys
    that no batch has are absent. *)
Theorem mergeAll_writtenLast (bs : list Batch') :
  writtenLast thoughtIndexUpdates bs
  ∧ writtenLast contextIndexUpdates bs
  ∧ writtenLast recentlyEdited bs
  ∧ writtenLast updates bs.
Proof. repeat split; by apply spread_field_writtenLast. Qed.

(** X2. The pending deletes of a merged queue are the pending deletes of
    its batches, concatenated in queue order; none is removed, also when
    it occurs twice. *)
Theorem mergeAll_pendingDeletes (bs : list Batch') :
  default [] (pendingDeletes (mergeAll bs)) = allPendingDeletes bs
  ∧ length (default [] (pendingDeletes (mergeAll bs)))
    = sum_list (map (fun b => length (default [] (pendingDeletes b))) bs).
Proof.
  assert (default [] (pendingDeletes (mergeAll bs)) = allPendingDeletes bs) as Heq.
  { induction bs as [|b bs IH] using rev_ind; [done|].
    rewrite mergeAll_snoc. simpl. rewrite IH. unfold allPendingDeletes.
    rewrite map_app, concat_app. simpl. by rewrite app_nil_r. }
  split; [done|]. rewrite Heq. unfold allPendingDeletes. clear Heq.
  induction bs as [|b bs IH]; [done|]. simpl. by rewrite length_app, IH.
Qed.

Section Turn.

Variable hashContext : list string -> string.
Variable reducer : Store' -> Act' -> Store'.
Variable fulfilled : Act' -> bool.

(** The first turn of a flush: the pull and the syncs; the finalizing
    deletes are parked behind the pull. *)
Lemma turn_flushQueue (s : Store') :
  syncQueue s ≠ [] →
  ∃ s',
    turn reducer (flushQueue hashContext) s
    = (pullPart hashContext (syncQueue s) ++ syncPart (syncQueue s), s',
       match allPendingDeletes (syncQueue s) with
       | [] => []
       | pds => [(pull (keyValueBy hashContext pds) Infinity, forEachDelete pds Done)]
       end).
Proof.
  intros Hq. unfold flushQueue, pullPart, syncPart.
  cbn [turn]. destruct (syncQueue s) as [|b q] eqn:Eq; [done|]. clear Hq.
  cbn [length Nat.eqb]. cbn [turn].
  unfold flushDeletes. cbn [turn]. rewrite Eq.
  fold (allPendingDeletes (b :: q)).
  set (locals := filter _ (b :: q)).
  set (remotes := filter (fun batch => truthy (remote batch) = true) (b :: q)).
  destruct (allPendingDeletes (b :: q)) as [|pd pds] eqn:Epd;
    cbn [length Nat.ltb Nat.leb turn].
  - destruct (turn_dispatchIf_sync reducer locals
                (dispatchIf (0 <? keysCount (mergeAll remotes))%nat
                   (syncBatch (mergeAll remotes)) Done) s) as (s1 & E1 & E1').
    destruct (turn_dispatchIf_sync reducer remotes Done s1) as (s2 & E2 & E2').
    destruct (turn reducer (dispatchIf _ _ (dispatchIf _ _ Done)) s) as [[tr s'] parked].
    simpl in E1, E1'. subst tr parked. exists s'.
    destruct (turn reducer (dispatchIf _ _ Done) s1) as [[tr2 s2'] parked2].
    simpl in *. subst. by rewrite !app_nil_r.
  - set (p := pull (keyValueBy hashContext (pd :: pds)) Infinity).
    destruct (turn_dispatchIf_sync reducer locals
                (dispatchIf (0 <? keysCount (mergeAll remotes))%nat
                   (syncBatch (mergeAll remotes)) Done) (reducer s p))
      as (s1 & E1 & E1').
    destruct (turn_dispatchIf_sync reducer remotes Done s1) as (s2 & E2 & E2').
    destruct (turn reducer (dispatchIf _ _ (dispatchIf _ _ Done)) (reducer s p))
      as [[tr s'] parked].
    simpl in E1, E1'. subst tr parked. exists s'.
    destruct (turn reducer (dispatchIf _ _ Done) s1) as [[tr2 s2'] parked2].
    simpl in *. subst. by rewrite !app_nil_r.
Qed.

Lemma syncOf_isSync (bs : list Batch') (a : Act') :
  a ∈ syncOf bs → isSync a = true.
Proof. destruct bs; [by intros ?%elem_of_nil|]. by intros ->%list_elem_of_singleton. Qed.

(** X3. Which batches are synced at all. In its first turn a flush
    dispatches a sync exactly when some batch of the queue has a truthy
    [local] or a truthy [remote] flag: a batch that leaves both flags
    unset is put in neither group and is not synced, although
    [syncBatch] would treat an unset flag as true. In particular an
    empty queue dispatches nothing. *)
Theorem flushQueue_syncs_iff (s : Store') :
  (∃ a, a ∈ (turn reducer (flushQueue hashContext) s).1.1 ∧ isSync a = true)
  ↔ ∃ b, b ∈ syncQueue s ∧ (local b = Some true ∨ remote b = Some true).
Proof.
  destruct (decide (syncQueue s = [])) as [Hempty|Hq].
  { unfold flushQueue. cbn [turn]. rewrite Hempty. simpl. split.
    - by intros (a & Ha%elem_of_nil & _).
    - by intros (b & Hb%elem_of_nil & _). }
  destruct (turn_flushQueue s Hq) as [s' ->]. cbn [fst].
  unfold pullPart, syncPart. split.
  - intros (a & Ha & Hsync). apply elem_of_app in Ha as [Ha|Ha].
    { destruct (allPendingDeletes _); [by apply elem_of_nil in Ha|].
      apply list_elem_of_singleton in Ha as ->. done. }
    apply elem_of_app in Ha as [Ha|Ha].
    + destruct (filter _ _) as [|b l] eqn:Ef in Ha; [by apply elem_of_nil in Ha|].
      assert (b ∈ filter (fun batch : Batch' => truthy (local batch) = true) (syncQueue s))
        as [Hb1 Hb2]%list_elem_of_filter by (rewrite Ef; by left).
      exists b. split; [done|]. left. by destruct (local b) as [[]|].
    + destruct (filter _ _) as [|b l] eqn:Ef in Ha; [by apply elem_of_nil in Ha|].
      assert (b ∈ filter (fun batch : Batch' => truthy (remote batch) = true) (syncQueue s))
        as [Hb1 Hb2]%list_elem_of_filter by (rewrite Ef; by left).
      exists b. split; [done|]. right. by destruct (remote b) as [[]|].
  - intros (b & Hb & [Hl|Hr]).
    + assert (b ∈ filter (fun batch : Batch' => truthy (local batch) = true) (syncQueue s))
        as Hin by (apply list_elem_of_filter; by rewrite Hl).
      destruct (filter _ _) as [|b0 l] eqn:Ef in Hin; [by apply elem_of_nil in Hin|].
      exists (syncBatch (mergeAll (b0 :: l))). split; [|done].
      apply elem_of_app. right. apply elem_of_app. left. rewrite Ef. by left.
    + assert (b ∈ filter (fun batch : Batch' => truthy (remote batch) = true) (syncQueue s))
        as Hin by (apply list_elem_of_filter; by rewrite Hr).
      destruct (filter _ _) as [|b0 l] eqn:Ef in Hin; [by apply elem_of_nil in Hin|].
      exists (syncBatch (mergeAll (b0 :: l))). split; [|done].
      apply elem_of_app. right. apply elem_of_app. right. rewrite Ef. by left.
Qed.

(** X4. The destinations of the local-bound sync. When the queue has a
    batch with a truthy [local] flag, the first sync of the flush goes
    to the local store, and it also goes to the remote store unless the
    last batch with a truthy [local] flag sets [remote] to false
    explicitly: a local batch that leaves [remote] unset is sent to the
    remote as well. *)
Theorem flushQueue_local_sync_destinations (s : Store') (bl : Batch') :
  last (filter (fun batch : Batch' => truthy (local batch) = true) (syncQueue s))
  = Some bl →
  ∃ t c r u,
    filter (fun a => isSync a = true) (turn reducer (flushQueue hashContext) s).1.1
    !! 0%nat
    = Some (sync t c r true (notFalse (remote bl)) u).
Proof.
  intros Hlast.
  assert (syncQueue s ≠ []) as Hq.
  { intros Hq. rewrite Hq in Hlast. done. }
  destruct (turn_flushQueue s Hq) as [s' ->]. cbn [fst].
  rewrite filter_app.
  assert (filter (fun a : Act' => isSync a = true) (pullPart hashContext (syncQueue s)) = [])
    as ->.
  { unfold pullPart. by destruct (allPendingDeletes _). }
  unfold syncPart. simpl.
  destruct (filter _ (syncQueue s)) as [|b0 l] eqn:Ef in Hlast |- *; [done|].
  rewrite <- Ef in Hlast.
  destruct (mergeAll_flags _ _ Hlast) as [Hl Hr].
  rewrite Ef in Hl, Hr.
  assert (local bl = Some true) as Hbl.
  { apply last_Some_elem_of, list_elem_of_filter in Hlast as [Hbl _].
    by destruct (local bl) as [[]|]. }
  simpl. unfold syncBatch. rewrite Hl, Hr, Hbl. simpl. by eexists _, _, _, _.
Qed.

End Turn.

End QueueFacts.

(** A queue with one batch for the local store that leaves [remote] unset:
    its sync goes to the local and to the remote store. *)
Lemma flushQueue_local_sync_destinations_witness :
  ∃ t c r u,
    filter (fun a => SyncQueue.isSync a = true)
      (SyncQueue.turn (fun s _ => s) (SyncQueue.flushQueue (String.concat "/"))
         {| SyncQueue.syncQueue := [SyncQueue.flagged (Some true) None] |}).1.1
    !! 0%nat
    = Some (SyncQueue.sync t c r true true u).
Proof.
  apply (flushQueue_local_sync_destinations (String.concat "/") (fun s _ => s)
           {| SyncQueue.syncQueue := [SyncQueue.flagged (Some true) None] |}
           (SyncQueue.flagged (Some true) None)).
  reflexivity.
Defined.

(* ===================================================================== *)
(** * More on context chains *)
(* ===================================================================== *)

Section ChainEdges.

Import Chain ChainEdges.

Context {Rank State : Type}.
Variable normalizeThought : option string -> string.
Variable getContextsSortedAndRanked : State -> string -> list (ThoughtContext Rank).
Variable splice : SimplePath Rank -> nat -> nat -> SimplePath Rank.

Lemma findIndex_range {A} (p : A -> bool) (l : list A) :
  -1 <= findIndex p l < Z.of_nat (length l) ∨ (l = [] ∧ findIndex p l = -1).
Proof.
  unfold findIndex. destruct (findIndexFrom_bounds p l 0) as [E|Hb]; [lia| |left; lia].
  rewrite E. destruct l; [by right | left; simpl; lia].
Qed.

(** [path.slice(i - 1)] is empty only for the empty path, whatever
    [findIndex] returned. *)
Lemma slice_before_nonempty {A} (p : A -> bool) (l : list A) :
  l ≠ [] → slice (findIndex p l - 1) l ≠ [].
Proof.
  intros Hl Hnil. apply (f_equal length) in Hnil. unfold slice in Hnil.
  rewrite length_drop in Hnil. simpl in Hnil.
  destruct (findIndex_range p l) as [Hr|[? _]]; [|done].
  assert (0 < length l)%nat by (destruct l; [done | simpl; lia]).
  destruct (Z.ltb_spec (findIndex p l - 1) 0); lia.
Qed.

Lemma slice_nil {A} (k : Z) : slice k (@nil A) = [].
Proof. unfold slice. by rewrite drop_nil. Qed.

(** X5. When [chain] throws. [chain] raises a [TypeError] in exactly two
    situations: the last segment of a non-empty context chain is empty
    (there is no pivot to read), or the path is empty while the pivot has
    at least one context (the first element of the empty append tail is
    read). An empty context chain never throws. *)
Theorem chain_throws_iff (state : State) (contextChain : list (SimplePath Rank))
    (path : SimplePath Rank) :
  chain normalizeThought getContextsSortedAndRanked splice state contextChain path
  = TypeError
  ↔ ∃ lastSegment,
      last contextChain = Some lastSegment
      ∧ (lastSegment = []
         ∨ ∃ pivot, head lastSegment = Some pivot
                    ∧ path = []
                    ∧ getContextsSortedAndRanked state (value pivot) ≠ []).
Proof.
  unfold chain. destruct (last contextChain) as [lastSegment|]; [|split; [done|]].
  2: { by intros (? & ? & _). }
  unfold head at 1. destruct (last lastSegment) as [pivot|] eqn:Hpivot.
  - destruct (decide (path = [])) as [->|Hpath].
    + rewrite slice_nil.
      destruct (getContextsSortedAndRanked state (value pivot)) as [|c cs] eqn:Ec.
      * split; [done|].
        intros (? & [= <-] & [-> | (p' & Hp' & _ & Hne)]); [done|].
        unfold head in Hp'. rewrite Hpivot in Hp'. injection Hp' as <-. by rewrite Ec in Hne.
      * split; [|done]. intros _. exists lastSegment. split; [done|]. right.
        exists pivot. unfold head. by rewrite Ec.
    + pose proof (slice_before_nonempty (isPivot normalizeThought pivot) path Hpath) as Hne.
      destruct (slice _ path) as [|first tail]; [done|].
      split; [done|].
      intros (? & [= <-] & [-> | (p' & _ & Hp' & _)]); done.
  - split; [|done]. intros _. exists lastSegment. split; [done|]. left.
    by apply last_None.
Qed.

(** The result of [chain] for a non-empty append tail. *)
Lemma chain_append (state : State)
    (segment0 : SimplePath Rank) (segments : list (SimplePath Rank))
    (lastSegment path : SimplePath Rank) (pivot first : Child Rank)
    (tail : SimplePath Rank) :
  last (segment0 :: segments) = Some lastSegment →
  head lastSegment = Some pivot →
  slice (findIndex (isPivot normalizeThought pivot) path - 1) path = first :: tail →
  chain normalizeThought getContextsSortedAndRanked splice state
    (segment0 :: segments) path
  = Ok (segment0
        ++ concat (map (fun thoughts => splice thoughts 1%nat 1%nat) segments)
        ++ splice (reRanked first (first :: tail)
                     (List.find (inContextOf normalizeThought first)
                        (getContextsSortedAndRanked state (value pivot))))
             1%nat 1%nat).
Proof.
  intros Hlast Hpivot Happend. unfold chain. rewrite Hlast, Hpivot, Happend.
  rewrite <- app_comm_cons, removeOverlap_cons.
  rewrite map_app, concat_app. simpl. by rewrite app_nil_r.
Qed.

(** X6. A pivot at the start of the path. When the pivot is matched at
    index 0 of the path, the append tail is [path.slice(-1)]: [chain] ends
    its result with the last element of the path only (re-ranked when a
    context matches), and every element of the path between the pivot and
    the last one is left out. *)
Theorem chain_pivot_at_start (state : State)
    (segment0 : SimplePath Rank) (segments : list (SimplePath Rank))
    (lastSegment path : SimplePath Rank) (pivot final : Child Rank) :
  (∀ thoughts, splice thoughts 1%nat 1%nat = pureSplice thoughts 1 1) →
  last (segment0 :: segments) = Some lastSegment →
  head lastSegment = Some pivot →
  findIndex (isPivot normalizeThought pivot) path = 0 →
  last path = Some final →
  chain normalizeThought getContextsSortedAndRanked splice state
    (segment0 :: segments) path
  = Ok (segment0
        ++ concat (map (fun thoughts => pureSplice thoughts 1 1) segments)
        ++ [asAppended normalizeThought getContextsSortedAndRanked state pivot final]).
Proof.
  intros Hsplice Hlast Hpivot Hfound [pre ->]%last_Some.
  assert (slice (findIndex (isPivot normalizeThought pivot) (pre ++ [final]) - 1)
            (pre ++ [final]) = [final]) as Happend.
  { rewrite Hfound. unfold slice. rewrite length_app. simpl.
    replace (Z.to_nat _) with (length pre) by lia.
    by rewrite drop_app_length. }
  rewrite (chain_append state _ _ _ _ _ _ _ Hlast Hpivot Happend).
  rewrite Hsplice, (map_ext _ _ Hsplice segments). do 3 f_equal.
  unfold asAppended, reRanked. by destruct (List.find _ _).
Qed.

(** X7. A pivot that is not in the path. When no element of a path of at
    least two elements matches the pivot, [findIndex] returns -1 and the
    append tail is [path.slice(-2)], the last two elements: [chain] ends
    its result with the element before the last one (re-ranked when a
    context matches); the last element of the path, at index 1 of the
    tail, is removed. *)
Theorem chain_pivot_not_found (state : State)
    (segment0 : SimplePath Rank) (segments : list (SimplePath Rank))
    (lastSegment pre : SimplePath Rank) (pivot before final : Child Rank) :
  (∀ thoughts, splice thoughts 1%nat 1%nat = pureSplice thoughts 1 1) →
  last (segment0 :: segments) = Some lastSegment →
  head lastSegment = Some pivot →
  findIndex (isPivot normalizeThought pivot) (pre ++ [before; final]) = -1 →
  chain normalizeThought getContextsSortedAndRanked splice state
    (segment0 :: segments) (pre ++ [before; final])
  = Ok (segment0
        ++ concat (map (fun thoughts => pureSplice thoughts 1 1) segments)
        ++ [asAppended normalizeThought getContextsSortedAndRanked state pivot before]).
Proof.
  intros Hsplice Hlast Hpivot Hfound.
  assert (slice (findIndex (isPivot normalizeThought pivot) (pre ++ [before; final]) - 1)
            (pre ++ [before; final]) = [before; final]) as Happend.
  { rewrite Hfound. unfold slice. rewrite length_app. simpl.
    replace (Z.to_nat _) with (length pre) by lia.
    by rewrite drop_app_length. }
  rewrite (chain_append state _ _ _ _ _ _ _ Hlast Hpivot Happend).
  rewrite Hsplice, (map_ext _ _ Hsplice segments). do 3 f_equal.
  unfold asAppended, reRanked. by destruct (List.find _ _).
Qed.

End ChainEdges.

(** [chain [[x; a]] [a; b; c]]: the pivot [a] is at index 0 and the result
    is [x; a; c]; [b] is left out. *)
Lemma chain_pivot_at_start_witness :
  Chain.chain Chain.sameValue Chain.noContexts (fun l => pureSplice l) tt
    [[Chain.thoughtRanked "x"; Chain.thoughtRanked "a"]] Chain.abc
  = Ok [Chain.thoughtRanked "x"; Chain.thoughtRanked "a"; Chain.thoughtRanked "c"].
Proof.
  apply (chain_pivot_at_start Chain.sameValue Chain.noContexts (fun l => pureSplice l) tt
           [Chain.thoughtRanked "x"; Chain.thoughtRanked "a"] []
           [Chain.thoughtRanked "x"; Chain.thoughtRanked "a"] Chain.abc
           (Chain.thoughtRanked "a") (Chain.thoughtRanked "c")); reflexivity.
Defined.

(** [chain [[x; z]] [a; b; c]]: the pivot [z] is not in the path and the
    result is [x; z; b]. *)
Lemma chain_pivot_not_found_witness :
  Chain.chain Chain.sameValue Chain.noContexts (fun l => pureSplice l) tt
    [[Chain.thoughtRanked "x"; Chain.thoughtRanked "z"]] Chain.abc
  = Ok [Chain.thoughtRanked "x"; Chain.thoughtRanked "z"; Chain.thoughtRanked "b"].
Proof.
  apply (chain_pivot_not_found Chain.sameValue Chain.noContexts (fun l => pureSplice l) tt
           [Chain.thoughtRanked "x"; Chain.thoughtRanked "z"] []
           [Chain.thoughtRanked "x"; Chain.thoughtRanked "z"] [Chain.thoughtRanked "a"]
           (Chain.thoughtRanked "z") (Chain.thoughtRanked "b") (Chain.thoughtRanked "c"));
    reflexivity.
Defined.

(* ===================================================================== *)
(** * nextSibling *)
(* ===================================================================== *)

Section NextSiblingFacts.

Import NextSibling.

Context {State Rank Meta : Type}.
Variable showHiddenThoughts : State -> bool.
Variable pathToContext : list string -> list string.
Variable meta : list string -> Meta.
Variable hidden : Meta -> bool.
Variable getSortPreference : Meta -> string.
Variable isFunction : string -> bool.
Variable getThoughtsSorted : State -> list string -> list (Child Rank).
Variable getThoughtsRanked : State -> list string -> list (Child Rank).
Variable equalThoughtSorted : Child Rank -> string -> bool.
Variable equalThoughtRanked : Child Rank -> string -> Rank -> bool.

Abbreviation next :=
  (nextSibling showHiddenThoughts pathToContext meta hidden getSortPreference isFunction
     getThoughtsSorted getThoughtsRanked equalThoughtSorted equalThoughtRanked).
Abbreviation visible :=
  (siblingsFiltered showHiddenThoughts pathToContext meta hidden getSortPreference
     isFunction getThoughtsSorted getThoughtsRanked).
Abbreviation all :=
  (siblings pathToContext meta getSortPreference getThoughtsSorted getThoughtsRanked).
Abbreviation same :=
  (isThought pathToContext meta getSortPreference equalThoughtSorted equalThoughtRanked).

Lemma findIndexFrom_none {A} (p : A -> bool) (l : list A) (k : Z) :
  Forall (fun x => p x = false) l → findIndexFrom p k l = -1.
Proof.
  intros Hl. revert k. induction Hl as [|x l Hx _ IH]; intros k; simpl; [done|].
  by rewrite Hx.
Qed.

Lemma findIndexFrom_first {A} (p : A -> bool) (pre rest : list A) (x : A) (k : Z) :
  Forall (fun y => p y = false) pre → p x = true →
  findIndexFrom p k (pre ++ x :: rest) = k + Z.of_nat (length pre).
Proof.
  intros Hpre Hx. revert k. induction Hpre as [|y pre Hy _ IH]; intros k; simpl.
  - rewrite Hx. lia.
  - rewrite Hy, IH. lia.
Qed.

(** X8. The sibling after the first match. When the thought is matched
    in the list of visible siblings, [nextSibling] returns the sibling
    that follows the first match, and nothing when the first match is
    the last visible sibling. *)
Theorem nextSibling_after_first_match (state : State) (v : string) (context : list string)
    (r : Rank) (pre rest : list (Child Rank)) (c : Child Rank) :
  visible state context = pre ++ c :: rest →
  Forall (fun y => same v context r y = false) pre →
  same v context r c = true →
  next state v context r = List.hd_error rest.
Proof.
  intros Hvis Hpre Hc. unfold nextSibling. rewrite Hvis.
  unfold findIndex. rewrite (findIndexFrom_first _ _ _ _ _ Hpre Hc).
  replace (Z.to_nat _) with (length pre + 1)%nat by lia.
  rewrite lookup_app_r by lia.
  replace (length pre + 1 - length pre)%nat with 1%nat by lia.
  by destruct rest.
Qed.

(** X9. A thought that is not among the visible siblings. When no
    visible sibling matches the thought (it is not in the context, or it
    is hidden and hidden thoughts are not shown), [findIndex] returns -1
    and [nextSibling] returns the first visible sibling, if any. *)
Theorem nextSibling_not_found (state : State) (v : string) (context : list string)
    (r : Rank) :
  Forall (fun y => same v context r y = false) (visible state context) →
  next state v context r = List.hd_error (visible state context).
Proof.
  intros Hnone. unfold nextSibling, findIndex.
  rewrite (findIndexFrom_none _ _ _ Hnone). simpl.
  by destruct (siblingsFiltered _ _ _ _ _ _ _ _ _ _).
Qed.

(** X10. What [nextSibling] can return. The result is always one of the
    siblings of the context; when hidden thoughts are not shown it is
    neither a function nor a thought with a hidden attribute. *)
Theorem nextSibling_visible (state : State) (v : string) (context : list string)
    (r : Rank) (c : Child Rank) :
  next state v context r = Some c →
  c ∈ all state context
  ∧ (showHiddenThoughts state = false →
     isFunction (value c) = false
     ∧ hidden (meta (context ++ [value c])) = false).
Proof.
  unfold nextSibling. intros Hc%list_elem_of_lookup_2.
  unfold siblingsFiltered in Hc. destruct (showHiddenThoughts state); [done|].
  apply list_elem_of_filter in Hc as [Hvis Hc]. split; [done|]. intros _.
  unfold notHidden in Hvis. apply andb_true_iff in Hvis as [H1 H2].
  by rewrite negb_true_iff in H1, H2.
Qed.

End NextSiblingFacts.

(** Hidden thoughts are not shown: the visible siblings are [a], [b], [c]
    and the sibling after [a] is [b]; [=style] is skipped. *)
Lemma nextSibling_after_first_match_witness :
  NextSibling.nextOfFive false "a" 0
  = Some {| NextSibling.value := "b"%string; NextSibling.rank := 2 |}.
Proof.
  apply (nextSibling_after_first_match
           (fun s : bool => s) (fun c => c) (fun c => c) NextSibling.hiddenSecret
           NextSibling.noPreference (String.prefix "=") NextSibling.fiveOf NextSibling.fiveOf
           NextSibling.equalValue NextSibling.equalValueRank
           false "a"%string [] 0 []
           [ {| NextSibling.value := "b"%string; NextSibling.rank := 2 |};
             {| NextSibling.value := "c"%string; NextSibling.rank := 4 |} ]
           {| NextSibling.value := "a"%string; NextSibling.rank := 0 |});
    [reflexivity | constructor | reflexivity].
Defined.

(** Hidden thoughts are not shown: [secret] is not among the visible
    siblings, and the sibling after it is reported as [a], the first one. *)
Lemma nextSibling_not_found_witness :
  NextSibling.nextOfFive false "secret" 3
  = Some {| NextSibling.value := "a"%string; NextSibling.rank := 0 |}.
Proof.
  apply (nextSibling_not_found
           (fun s : bool => s) (fun c => c) (fun c => c) NextSibling.hiddenSecret
           NextSibling.noPreference (String.prefix "=") NextSibling.fiveOf NextSibling.fiveOf
           NextSibling.equalValue NextSibling.equalValueRank
           false "secret"%string [] 3).
  vm_compute. repeat constructor.
Defined.

(** The sibling after [b] is [c], which is a sibling and not a function;
    [secret] is skipped. *)
Lemma nextSibling_visible_witness :
  {| NextSibling.value := "c"%string; NextSibling.rank := 4 |} ∈ NextSibling.fiveSiblings
  ∧ String.prefix "=" "c" = false.
Proof.
  destruct (nextSibling_visible
              (fun s : bool => s) (fun c => c) (fun c => c) NextSibling.hiddenSecret
              NextSibling.noPreference (String.prefix "=") NextSibling.fiveOf
              NextSibling.fiveOf NextSibling.equalValue NextSibling.equalValueRank
              false "b"%string [] 2
              {| NextSibling.value := "c"%string; NextSibling.rank := 4 |} eq_refl)
    as [Hin Hshown].
  split; [exact Hin|]. by destruct (Hshown eq_refl).
Defined.

(* ===================================================================== *)
(** * More on linearizeTree *)
(* ===================================================================== *)

Section LinearizeShape.

Import Layout Shape.

Context `{Selectors}.

(** The node that a returning call of the callback appends. *)
Lemma visitChild_node linearize state a base simple contextViewActive contextChainNew
    filteredChildren styleChildren grandchildrenAttributeId inherited
    accum below filteredChild i accum' below' :
  visitChild linearize state a base simple contextViewActive contextChainNew
    filteredChildren styleChildren grandchildrenAttributeId inherited
    (accum, below) filteredChild i = Ok (accum', below') →
  (contextViewActive = true
   ∧ getThoughtById state (parentId filteredChild) = None
   ∧ accum' = [])
  ∨ ∃ child n a' descendants,
      (if contextViewActive then getThoughtById state (parentId filteredChild)
       else Some filteredChild) = Some child
      ∧ linearize a' = Ok descendants
      ∧ accum' = accum ++ n :: descendants
      ∧ thought n = child
      ∧ depth n = Args.depth a
      ∧ indexChild n = Z.of_nat i
      ∧ path n = appendToPathMemo base (id child)
      ∧ Args.basePath a' = Some (path n)
      ∧ Args.depth a' = Args.depth a + 1
      ∧ Args.indexDescendant a' = indexDescendant n.
Proof.
  unfold visitChild.
  destruct (if contextViewActive then _ else _) as [child|] eqn:Echild.
  - match goal with |- context [linearize ?args] => set (a' := args) end.
    destruct (linearize a') as [descendants| |] eqn:Erec; simpl; try done.
    intros [= <- <-]. right.
    match goal with |- context [accum ++ ?node :: descendants] => exists child, node end.
    exists a', descendants. by repeat split.
  - intros [= <- <-]. left. destruct contextViewActive; by repeat split.
Qed.

(** The shape of [linearizeTree (S fuel)] past the gate. *)
Lemma linearizeTree_reduce (fuel : nat) (state : State) (a : Args.t)
    (out : list TreeThought) :
  linearizeTree (S fuel) state a = Ok out →
  out = []
  ∨ ∃ base simple cva chain fcs sc gc sty below,
      base = default HOME_PATH (Args.basePath a)
      ∧ cva = isContextViewActive state base
      ∧ isVisible state base = true
      ∧ (cva = false → fcs = normalChildren state a)
      ∧ reduceFrom (visitChild (linearizeTree fuel state) state a base simple cva chain
                      fcs sc gc sty) 0%nat fcs ([], Args.belowCursor a)
        = Ok (out, below).
Proof.
  cbn [linearizeTree]. set (base := default HOME_PATH (Args.basePath a)).
  destruct (isVisible state base) eqn:Hvis; cbn [negb]; [|intros [= <-]; by left].
  match goal with
  | |- bindRes ?c _ = _ → _ => destruct c as [children| |] eqn:Echildren
  end; simpl; try done.
  destruct (isContextViewActive state base && _) eqn:Hshort; [intros [= <-]; by left|].
  match goal with
  | |- context [reduceFrom ?f 0%nat ?l ?init] =>
      destruct (reduceFrom f 0%nat l init) as [[accum below]| |] eqn:Ered
  end; simpl; try done.
  intros [= <-]. right.
  eexists base, _, _, _, _, _, _, _, below.
  split; [done|]. split; [done|]. split; [done|]. split; [|exact Ered].
  intros Hcv. rewrite Hcv in Echildren. by injection Echildren as <-.
Qed.

(** ** The flag never goes back *)

Lemma staysBelow_last (l : list TreeThought) (d n : TreeThought) :
  StronglySorted staysBelow l → last l = Some d → n ∈ l →
  belowCursor n = true → belowCursor d = true.
Proof.
  intros Hl [l' ->]%last_Some [Hn | ->%list_elem_of_singleton]%elem_of_app Hflag;
    [|done].
  by apply (StronglySorted_app_1_elem_of _ _ _ _ _ Hl Hn
              ltac:(by apply list_elem_of_singleton)).
Qed.

Lemma linearizeTree_staysBelow (fuel : nat) (state : State) (a : Args.t)
    (out : list TreeThought) :
  linearizeTree fuel state a = Ok out →
  StronglySorted staysBelow out
  ∧ Forall (fun n => atCursor state n = true → belowCursor n = true) out
  ∧ (truthy (Args.belowCursor a) = true → Forall (fun n => belowCursor n = true) out).
Proof.
  revert a out. induction fuel as [|fuel IH]; intros a out; [done|].
  intros [-> | (base & simple & cva & chain & fcs & sc & gc & sty & below
                & _ & _ & _ & _ & Ered)]%linearizeTree_reduce.
  { repeat split; constructor. }
  refine (proj1 (reduceFrom_invariant _
            (fun r : list TreeThought * option bool =>
               (StronglySorted staysBelow r.1
                ∧ Forall (fun n => atCursor state n = true → belowCursor n = true) r.1
                ∧ (truthy (Args.belowCursor a) = true →
                   Forall (fun n => belowCursor n = true) r.1))
               ∧ Forall (fun n => belowCursor n = true → truthy r.2 = true) r.1
               ∧ (truthy (Args.belowCursor a) = true → truthy r.2 = true))
            _ _ _ _ (out, below) _ Ered)).
  2: { simpl. repeat split; (constructor || done). }
  intros [accum0 below0] x i [accum1 below1] _
    ((Hsorted & Hcur & Hall) & Hflag & Hinit) Hstep.
  cbn [fst snd] in *.
  apply visitChild_Ok in Hstep
      as [(_ & _ & -> & ->) | (child & n & a' & descendants & _ & Hrec & _
                               & Ha' & _ & _ & _ & Hn & _ & _ & -> & ->)].
  { repeat split; (constructor || done). }
  apply IH in Hrec as (Hdsorted & Hdcur & Hdall).
  assert (truthy (Args.belowCursor a') = truthy below0 || atCursor state n) as Ea'.
  { rewrite Ha', truthy_if. by destruct (truthy below0), (atCursor state n). }
  rewrite Ea' in Hn, Hdall.
  assert (belowCursor n = true → Forall (fun m => belowCursor m = true) descendants)
    as Hnd by (rewrite Hn; exact Hdall).
  rewrite Forall_forall in Hflag.
  repeat split.
  - apply StronglySorted_app. split; [|split; [done|]].
    + intros m1 m2 Hm1 Hm2 Hf1. specialize (Hflag m1 Hm1 Hf1).
      apply elem_of_cons in Hm2 as [->|Hm2].
      * rewrite Hn, Hflag. done.
      * assert (Forall (fun m => belowCursor m = true) descendants) as Hd'
          by (apply Hdall; by rewrite Hflag).
        rewrite Forall_forall in Hd'. by apply Hd'.
    + constructor; [done|]. apply Forall_forall. intros m Hm Hf.
      specialize (Hnd Hf). rewrite Forall_forall in Hnd. by apply Hnd.
  - apply Forall_app. split; [done|]. constructor; [|done].
    intros Hc. rewrite Hn, Hc. by destruct (truthy below0).
  - intros Hb. apply Forall_app. split; [by apply Hall|].
    specialize (Hinit Hb).
    assert (belowCursor n = true) as Hfn by (rewrite Hn, Hinit; done).
    constructor; [done | by apply Hnd].
  - rewrite truthy_if, Ea'. apply Forall_forall.
    intros m [Hm | [-> | Hm]%elem_of_cons]%elem_of_app Hf.
    + rewrite (Hflag m Hm Hf). by rewrite orb_true_r.
    + rewrite <- Hn, Hf. by rewrite orb_true_r.
    + destruct (last descendants) as [d|] eqn:Hlast.
      * rewrite (staysBelow_last _ _ _ Hdsorted Hlast Hm Hf).
        by destruct (truthy below0 || atCursor state n).
      * apply last_None in Hlast as ->. by apply elem_of_nil in Hm.
  - intros Hb. rewrite truthy_if, Ea', (Hinit Hb). by rewrite orb_true_r.
Qed.

Lemma StronglySorted_lookup_lt {A} (R : relation A) (l : list A) (i j : nat) (x y : A) :
  StronglySorted R l → (i < j)%nat → l !! i = Some x → l !! j = Some y → R x y.
Proof.
  intros Hl. revert i j. induction Hl as [|z l Hl IH Hz]; intros i j Hij; [done|].
  destruct i as [|i], j as [|j]; simpl; try lia.
  - intros [= <-] Hy. rewrite Forall_forall in Hz. by eapply Hz, list_elem_of_lookup_2.
  - apply IH. lia.
Qed.

(** X11. The flag never goes back, whatever the store. In the output of
    every call of [linearizeTree], also when context parents are pending:
    once a node has [belowCursor = true], every node emitted after it has
    it too; every emitted node whose path is the cursor has it; and when
    the call is entered with [belowCursor] set, every node has it. *)
Theorem linearizeTree_belowCursor_monotone (fuel : nat) (state : State) (a : Args.t)
    (out : list TreeThought) :
  linearizeTree fuel state a = Ok out →
  (∀ i j n m, (i <= j)%nat → out !! i = Some n → out !! j = Some m →
              belowCursor n = true → belowCursor m = true)
  ∧ (∀ n, n ∈ out → atCursor state n = true → belowCursor n = true)
  ∧ (truthy (Args.belowCursor a) = true → ∀ n, n ∈ out → belowCursor n = true).
Proof.
  intros (Hsorted & Hcur & Hall)%linearizeTree_staysBelow. repeat split.
  - intros i j n m Hij Hn Hm. destruct (decide (i = j)) as [->|Hne].
    + rewrite Hn in Hm. by injection Hm as <-.
    + apply (StronglySorted_lookup_lt _ _ i j n m Hsorted); [lia|done|done].
  - rewrite Forall_forall in Hcur. exact Hcur.
  - intros Hb. specialize (Hall Hb). rewrite Forall_forall in Hall. exact Hall.
Qed.

(** ** Depths *)

Lemma stepsUp_app (l1 l2 : list TreeThought) :
  stepsUp l1 → stepsUp l2 →
  (∀ x y, last l1 = Some x → List.hd_error l2 = Some y → depth y <= depth x + 1) →
  stepsUp (l1 ++ l2).
Proof.
  intros H1 H2 Hjoin. induction l1 as [|n l1 IH]; [done|].
  destruct H1 as [Hn H1]. simpl. split.
  - destruct l1 as [|m l1]; simpl; [|done].
    destruct l2 as [|y l2]; [done|]. by apply Hjoin.
  - apply IH; [done|]. intros x y Hx Hy. apply Hjoin; [|done].
    destruct l1; [done|]. done.
Qed.

Lemma stepsUp_lookup (l : list TreeThought) (i : nat) (n m : TreeThought) :
  stepsUp l → l !! i = Some n → l !! S i = Some m → depth m <= depth n + 1.
Proof.
  revert i. induction l as [|x l IH]; intros i Hl; [done|].
  destruct Hl as [Hx Hl]. destruct i as [|i]; simpl.
  - intros [= <-] Hm. destruct l as [|y l]; [done|]. simpl in Hm. by injection Hm as <-.
  - by apply IH.
Qed.

Lemma linearizeTree_depths (fuel : nat) (state : State) (a : Args.t)
    (out : list TreeThought) :
  linearizeTree fuel state a = Ok out →
  Forall (fun n => Args.depth a <= depth n) out
  ∧ stepsUp out
  ∧ (∀ n, List.hd_error out = Some n → depth n = Args.depth a).
Proof.
  revert a out. induction fuel as [|fuel IH]; intros a out; [done|].
  intros [-> | (base & simple & cva & chain & fcs & sc & gc & sty & below
                & _ & _ & _ & _ & Ered)]%linearizeTree_reduce.
  { by repeat split. }
  refine (reduceFrom_invariant _
            (fun r : list TreeThought * option bool =>
               Forall (fun n => Args.depth a <= depth n) r.1
               ∧ stepsUp r.1
               ∧ (∀ n, List.hd_error r.1 = Some n → depth n = Args.depth a))
            _ _ _ _ (out, below) _ Ered); [|by repeat split].
  intros [accum0 below0] x i [accum1 below1] _ (Hlb & Hsteps & Hhead) Hstep.
  cbn [fst snd] in *.
  apply visitChild_node in Hstep
      as [(_ & _ & ->) | (child & n & a' & descendants & _ & Hrec & -> & _ & Hn
                          & _ & _ & _ & Hd' & _)].
  { by repeat split. }
  apply IH in Hrec as (Hdlb & Hdsteps & Hdhead). rewrite Hd' in Hdlb, Hdhead.
  repeat split.
  - apply Forall_app. split; [done|]. constructor; [lia|].
    eapply Forall_impl; [exact Hdlb|]. simpl. intros; lia.
  - apply stepsUp_app; [done| |].
    + split; [|done]. destruct descendants as [|m ds]; [done|].
      rewrite (Hdhead m eq_refl). lia.
    + intros x0 y Hx0 [= <-]. rewrite Forall_forall in Hlb.
      specialize (Hlb x0 (last_Some_elem_of _ _ Hx0)). lia.
  - intros m Hm. destruct accum0 as [|n0 accum0]; simpl in Hm.
    + by injection Hm as <-.
    + by apply Hhead.
Qed.

(** X12. Depths along the output. In the output of a call of
    [linearizeTree] no node is shallower than the depth of the call, the
    first node is at the depth of the call, and from one node to the next
    the depth increases by one at most (it may decrease by any amount). *)
Theorem linearizeTree_depth_steps (fuel : nat) (state : State) (a : Args.t)
    (out : list TreeThought) :
  linearizeTree fuel state a = Ok out →
  (∀ n, n ∈ out → Args.depth a <= depth n)
  ∧ (∀ n, out !! 0%nat = Some n → depth n = Args.depth a)
  ∧ (∀ i n m, out !! i = Some n → out !! S i = Some m → depth m <= depth n + 1).
Proof.
  intros (Hlb & Hsteps & Hhead)%linearizeTree_depths. repeat split.
  - rewrite Forall_forall in Hlb. exact Hlb.
  - intros n Hn. apply Hhead. by destruct out.
  - intros i n m. by apply stepsUp_lookup.
Qed.

(** ** Subtrees *)

Lemma subtreeAt_app_l state (l1 l2 : list TreeThought) i n desc :
  l1 !! i = Some n →
  (∀ m, List.hd_error l2 = Some m → depth m <= depth n) →
  subtreeAt state l1 i n desc → subtreeAt state (l1 ++ l2) i n desc.
Proof.
  intros Hi Hnext (Hcall & Htake & Hdeep & Hafter).
  assert (S i + length desc <= length l1)%nat as Hlen.
  { apply lookup_lt_Some in Hi. apply (f_equal length) in Htake.
    rewrite length_take, length_drop in Htake. lia. }
  split; [done|]. split; [|split; [done|]].
  - rewrite drop_app_le by lia. rewrite take_app_le; [done|].
    rewrite length_drop. lia.
  - intros m Hm. destruct (decide (S i + length desc < length l1)%nat) as [Hlt|Hge].
    + rewrite lookup_app_l in Hm by done. by apply Hafter.
    + rewrite lookup_app_r in Hm by lia.
      replace (S i + length desc - length l1)%nat with 0%nat in Hm by lia.
      apply Hnext. by destruct l2.
Qed.

Lemma subtreeAt_app_r state (l1 l2 : list TreeThought) i n desc :
  subtreeAt state l2 i n desc → subtreeAt state (l1 ++ l2) (length l1 + i) n desc.
Proof.
  intros (Hcall & Htake & Hdeep & Hafter).
  split; [done|]. split; [|split; [done|]].
  - replace (S (length l1 + i)) with (length l1 + S i)%nat by lia.
    by rewrite drop_app_add.
  - intros m Hm. apply Hafter. rewrite lookup_app_r in Hm by lia.
    by replace (S (length l1 + i) + length desc - length l1)%nat
      with (S i + length desc)%nat in Hm by lia.
Qed.

Lemma linearizeTree_subtrees (fuel : nat) (state : State) (a : Args.t)
    (out : list TreeThought) :
  linearizeTree fuel state a = Ok out →
  ∀ i n, out !! i = Some n → ∃ desc, subtreeAt state out i n desc.
Proof.
  revert a out. induction fuel as [|fuel IH]; intros a out; [done|].
  intros [-> | (base & simple & cva & chain & fcs & sc & gc & sty & below
                & _ & _ & _ & _ & Ered)]%linearizeTree_reduce; [done|].
  refine (proj1 (reduceFrom_invariant _
            (fun r : list TreeThought * option bool =>
               (∀ i n, r.1 !! i = Some n → ∃ desc, subtreeAt state r.1 i n desc)
               ∧ Forall (fun n => Args.depth a <= depth n) r.1)
            _ _ _ _ (out, below) _ Ered)); [|by split].
  intros [accum0 below0] x i [accum1 below1] _ (Hsub & Hlb) Hstep.
  cbn [fst snd] in *.
  apply visitChild_node in Hstep
      as [(_ & _ & ->) | (child & n & a' & descendants & _ & Hrec & -> & _ & Hn
                          & _ & _ & Hbase & Hd' & _)].
  { by split. }
  destruct (linearizeTree_depths _ _ _ _ Hrec) as (Hdlb & _ & _).
  rewrite Hd' in Hdlb. split.
  - intros j m Hm. destruct (decide (j < length accum0)%nat) as [Hlt|Hge].
    + rewrite lookup_app_l in Hm by done.
      destruct (Hsub j m Hm) as [desc Hdesc]. exists desc.
      apply subtreeAt_app_l; [done | | done].
      intros m' [= <-]. rewrite Forall_forall in Hlb.
      specialize (Hlb m (list_elem_of_lookup_2 _ _ _ Hm)). lia.
    + rewrite lookup_app_r in Hm by lia.
      replace j with (length accum0 + (j - length accum0))%nat by lia.
      destruct (j - length accum0)%nat as [|k] eqn:Ek; simpl in Hm.
      * injection Hm as <-. exists descendants. apply subtreeAt_app_r.
        split; [exists fuel, a'; split; [done|]; split; [done|lia]|]. split; [|split].
        -- simpl. by rewrite drop_0, firstn_all.
        -- eapply Forall_impl; [exact Hdlb|]. simpl. intros; lia.
        -- intros m Hm. simpl in Hm. by rewrite lookup_ge_None_2 in Hm.
      * destruct (IH _ _ Hrec k m Hm) as [desc Hdesc]. exists desc.
        apply subtreeAt_app_r. by apply (subtreeAt_app_r state [n]).
  - apply Forall_app. split; [done|]. constructor; [lia|].
    eapply Forall_impl; [exact Hdlb|]. simpl. intros; lia.
Qed.

(** X13. The output is a preorder. Every node of the output of
    [linearizeTree] is immediately followed by the nodes that the
    recursive call on its path emitted, which are all deeper than the
    node; the node after them, if any, is not deeper than the node. *)
Theorem linearizeTree_preorder (fuel : nat) (state : State) (a : Args.t)
    (out : list TreeThought) (i : nat) (n : TreeThought) :
  linearizeTree fuel state a = Ok out → out !! i = Some n →
  ∃ desc, subtreeAt state out i n desc.
Proof. intros Hout. by apply (linearizeTree_subtrees _ _ _ _ Hout). Qed.

Lemma linearizeTree_invisible (fuel : nat) (state : State) (a : Args.t)
    (out : list TreeThought) :
  isVisible state (default HOME_PATH (Args.basePath a)) = false →
  linearizeTree fuel state a = Ok out → out = [].
Proof.
  intros Hvis. destruct fuel as [|fuel]; [done|].
  cbn [linearizeTree]. rewrite Hvis. by intros [= <-].
Qed.

(** X14. A collapsed node is a leaf of the output. The node that follows
    a node whose path is neither the root, nor expanded, nor
    hover-expanded is never deeper than that node. *)
Theorem linearizeTree_collapsed_leaf (fuel : nat) (state : State) (a : Args.t)
    (out : list TreeThought) (i : nat) (n m : TreeThought) :
  linearizeTree fuel state a = Ok out →
  out !! i = Some n → out !! S i = Some m →
  isVisible state (path n) = false →
  depth m <= depth n.
Proof.
  intros Hout Hn Hm Hvis.
  destruct (linearizeTree_subtrees _ _ _ _ Hout i n Hn)
    as (desc & (fuel' & a' & Hrec & Hbase & _) & _ & _ & Hafter).
  apply linearizeTree_invisible in Hrec as ->; [|by rewrite Hbase].
  apply Hafter. by rewrite Nat.add_0_r.
Qed.

(** ** Missing records *)

Lemma linearizeTree_missing_own_thought (fuel : nat) (state : State) (a : Args.t) :
  isVisible state (default HOME_PATH (Args.basePath a)) = true →
  isContextViewActive state (default HOME_PATH (Args.basePath a)) = true →
  getThoughtById state (headId (default HOME_PATH (Args.basePath a))) = None →
  linearizeTree (S fuel) state a = TypeError.
Proof.
  intros Hvis Hcv Hnone. cbn [linearizeTree]. by rewrite Hvis, Hcv, Hnone.
Qed.

(** X15. A missing record that is an error. When the context view is
    active on a visible path whose own thought record is not loaded, the
    call of [linearizeTree] on that path throws a [TypeError]
    ([thought.value] is read), and the error is not caught on the way up:
    a linearization that returns contains no node with a visible path, an
    active context view and a missing record. *)
Theorem linearizeTree_missing_thought_throws (fuel : nat) (state : State) (a : Args.t) :
  (isVisible state (default HOME_PATH (Args.basePath a)) = true →
   isContextViewActive state (default HOME_PATH (Args.basePath a)) = true →
   getThoughtById state (headId (default HOME_PATH (Args.basePath a))) = None →
   linearizeTree (S fuel) state a = TypeError)
  ∧ (∀ out n,
       linearizeTree fuel state a = Ok out → n ∈ out →
       isVisible state (path n) = true →
       isContextViewActive state (path n) = true →
       is_Some (getThoughtById state (headId (path n)))).
Proof.
  split; [apply linearizeTree_missing_own_thought|].
  intros out n Hout [i Hn]%list_elem_of_lookup_1 Hvis Hcv.
  destruct (linearizeTree_subtrees _ _ _ _ Hout i n Hn)
    as (desc & (fuel' & a' & Hrec & Hbase & _) & _).
  destruct (getThoughtById state (headId (path n))) eqn:Hthought; [by eexists|].
  destruct fuel' as [|fuel']; [done|].
  rewrite linearizeTree_missing_own_thought in Hrec; [done | | |];
    by rewrite Hbase.
Qed.

(** ** The nodes of one call *)

(** Past the gate, a call in normal view is the reduction over the
    filtered ranked children. *)
Lemma linearizeTree_normal (fuel : nat) (state : State) (a : Args.t) :
  isVisible state (default HOME_PATH (Args.basePath a)) = true →
  isContextViewActive state (default HOME_PATH (Args.basePath a)) = false →
  ∃ simple chain sc gc sty,
    linearizeTree (S fuel) state a
    = bindRes
        (reduceFrom
           (visitChild (linearizeTree fuel state) state a
              (default HOME_PATH (Args.basePath a)) simple false chain
              (normalChildren state a) sc gc sty)
           0%nat (normalChildren state a) ([], Args.belowCursor a))
        (fun r => Ok r.1).
Proof.
  intros Hvis Hcv. cbn [linearizeTree]. rewrite Hvis, Hcv. cbn [negb andb bindRes].
  by eexists _, _, _, _, _.
Qed.




(** ** Collapsed children *)

Lemma reduce_collapsed_children (fuel : nat) (state : State) (a : Args.t) base simple chain
    fcs sc gc sty (l : list Thought) :
  (∀ c, c ∈ l → isVisible state (appendToPathMemo base (id c)) = false) →
  ∀ i accum below,
    match last accum with
    | Some x => i ≠ 0%nat
                ∧ indexDescendant x
                  = Z.of_nat i * Args.indexDescendant a + Z.of_nat i - 1
                    + (if Args.depth a =? 0 then 0 else 1)
    | None => i = 0%nat
    end →
    ∃ nodes below',
      reduceFrom (visitChild (linearizeTree (S fuel) state) state a base simple false chain
                    fcs sc gc sty) i l (accum, below) = Ok (accum ++ nodes, below')
      ∧ map thought nodes = l
      ∧ ∀ j n, nodes !! j = Some n →
               indexDescendant n
               = (Z.of_nat (i + j) + 1) * Args.indexDescendant a + Z.of_nat (i + j)
                 + (if Args.depth a =? 0 then 0 else 1).
Proof.
  induction l as [|c l IH]; intros Hcollapsed i accum below Hlast.
  - exists [], below. simpl. by rewrite app_nil_r.
  - assert (isVisible state (appendToPathMemo base (id c)) = false) as Hc
      by (apply Hcollapsed; by left).
    assert (∀ a', Args.basePath a' = Some (appendToPathMemo base (id c)) →
                  linearizeTree (S fuel) state a' = Ok []) as Hlin.
    { intros a' Ha'. cbn [linearizeTree]. rewrite Ha'. cbn [from_option Datatypes.id].
      by rewrite Hc. }
    cbn [reduceFrom]. revert Hlin. generalize (linearizeTree (S fuel) state) at 1 2 as lin.
    intros lin Hlin. unfold visitChild at 1. rewrite Hlin by reflexivity.
    cbn [bindRes last].
    match goal with
    | |- context [reduceFrom _ (S i) l (accum ++ [?node], ?b)] =>
        set (n := node); set (below1 := b)
    end.
    assert (indexDescendant n
            = (Z.of_nat i + 1) * Args.indexDescendant a + Z.of_nat i
              + (if Args.depth a =? 0 then 0 else 1)) as Hn.
    { subst n. cbn [indexDescendant]. destruct (last accum) as [x|].
      - destruct Hlast as [Hi ->].
        replace (i =? 0)%nat with false by (symmetry; by apply Nat.eqb_neq).
        rewrite andb_false_r. lia.
      - subst i. simpl. destruct (Args.depth a =? 0); simpl; lia. }
    destruct (IH ltac:(intros ??; apply Hcollapsed; by right) (S i) (accum ++ [n]) below1)
      as (nodes & below' & Hred & Hthoughts & Hidx).
    { rewrite last_snoc. split; [done|]. rewrite Hn. lia. }
    exists (n :: nodes), below'. split; [|split].
    + rewrite Hred. by rewrite <- app_assoc.
    + simpl. by rewrite Hthoughts.
    + intros [|j] m; simpl.
      * intros [= <-]. by rewrite Nat.add_0_r.
      * intros Hm. rewrite (Hidx j m Hm). by rewrite Nat.add_succ_r.
Qed.

(** X17. The indexes of collapsed siblings. When the context view is not
    active on a visible path and none of its children is visible as a
    path, a call with at least two units of fuel returns one node per
    child, and the [indexDescendant] of the [i]-th node is
    [(i + 1) * p + i + e], where [p] is the index the call was entered
    with and [e] is 0 at depth 0 and 1 below: consecutive siblings are
    [p + 1] apart, which is 1 only under a parent of index 0. *)
Theorem linearizeTree_collapsed_children_indexes (fuel : nat) (state : State) (a : Args.t) :
  isVisible state (default HOME_PATH (Args.basePath a)) = true →
  isContextViewActive state (default HOME_PATH (Args.basePath a)) = false →
  (∀ c, c ∈ normalChildren state a →
        isVisible state (appendToPathMemo (default HOME_PATH (Args.basePath a)) (id c))
        = false) →
  ∃ out,
    linearizeTree (S (S fuel)) state a = Ok out
    ∧ map thought out = normalChildren state a
    ∧ ∀ i n, out !! i = Some n →
             indexDescendant n
             = (Z.of_nat i + 1) * Args.indexDescendant a + Z.of_nat i
               + (if Args.depth a =? 0 then 0 else 1).
Proof.
  intros Hvis Hcv Hcollapsed.
  destruct (linearizeTree_normal (S fuel) state a Hvis Hcv)
    as (simple & chain & sc & gc & sty & ->).
  destruct (reduce_collapsed_children fuel state a _ simple chain (normalChildren state a)
              sc gc sty (normalChildren state a) Hcollapsed 0%nat []
              (Args.belowCursor a) eq_refl)
    as (nodes & below' & Hred & Hthoughts & Hidx).
  exists nodes. rewrite Hred. cbn [bindRes fst app]. split; [done|]. split; [done|].
  intros i n Hn. by rewrite (Hidx i n Hn).
Qed.

End LinearizeShape.

(** ** Runs on the reference stores *)

(** The context store with the cursor on [m0/a]: the nodes from [m0/a] on
    are flagged, the two nodes before it are not. *)
Lemma linearizeTree_belowCursor_monotone_witness :
  Forall (fun n => Layout.atCursor (Store.contextStore None (Some ["m0"; "a"]%string)) n = true
                   → Layout.belowCursor n = true)
         (Store.outputOf (Store.contextStore None (Some ["m0"; "a"]%string)))
  ∧ map Layout.belowCursor (Store.outputOf (Store.contextStore None (Some ["m0"; "a"]%string)))
    = [false; false; true; true; true; true; true; true].
Proof.
  split; [|vm_compute; reflexivity].
  apply Forall_forall.
  apply (linearizeTree_belowCursor_monotone 4 (Store.contextStore None (Some ["m0"; "a"]%string))
           Layout.Args.default
           (Store.outputOf (Store.contextStore None (Some ["m0"; "a"]%string)))).
  vm_compute. reflexivity.
Defined.

(** The store [twoLevels]: the depths of [a], [b], [b/b1], [b/b2] are 0, 0,
    1, 1. *)
Lemma linearizeTree_depth_steps_witness :
  Forall (fun n => 0 <= Layout.depth n) (Store.outputOf Store.twoLevels)
  ∧ map Layout.depth (Store.outputOf Store.twoLevels) = [0; 0; 1; 1].
Proof.
  split; [|vm_compute; reflexivity].
  apply Forall_forall.
  apply (linearizeTree_depth_steps 4 Store.twoLevels Layout.Args.default
           (Store.outputOf Store.twoLevels)).
  vm_compute. reflexivity.
Defined.

(** The store [twoLevels]: the node [b] at position 1 is followed by its
    subtree. *)
Lemma linearizeTree_preorder_witness :
  ∃ n desc,
    Store.outputOf Store.twoLevels !! 1%nat = Some n
    ∧ Shape.subtreeAt Store.twoLevels (Store.outputOf Store.twoLevels) 1 n desc.
Proof.
  assert (∃ n, Store.outputOf Store.twoLevels !! 1%nat = Some n) as [n Hn]
    by (vm_compute; eauto).
  destruct (linearizeTree_preorder 4 Store.twoLevels Layout.Args.default
              (Store.outputOf Store.twoLevels) 1 n) as [desc Hdesc];
    [vm_compute; reflexivity | exact Hn |].
  by exists n, desc.
Defined.

(** The store [twoLevels]: [a] is collapsed, and the node [b] that follows
    it is not deeper. *)
Lemma linearizeTree_collapsed_leaf_witness :
  ∃ n m,
    Store.outputOf Store.twoLevels !! 0%nat = Some n
    ∧ Store.outputOf Store.twoLevels !! 1%nat = Some m
    ∧ Layout.depth m <= Layout.depth n.
Proof.
  assert (∃ n m, Store.outputOf Store.twoLevels !! 0%nat = Some n
                 ∧ Store.outputOf Store.twoLevels !! 1%nat = Some m
                 ∧ Layout.isVisible Store.twoLevels (Layout.path n) = false)
    as (n & m & Hn & Hm & Hcollapsed)
    by (vm_compute; do 2 eexists; split; [reflexivity|]; split; reflexivity).
  exists n, m. split; [exact Hn|]. split; [exact Hm|].
  apply (linearizeTree_collapsed_leaf 4 Store.twoLevels Layout.Args.default
           (Store.outputOf Store.twoLevels) 0 n m); [vm_compute; reflexivity | done..].
Defined.

(** The context store when the record of [m0] is not loaded: the call on
    the path [m0], which is expanded and shows its contexts, throws. *)
Lemma linearizeTree_missing_thought_throws_witness :
  Layout.linearizeTree 1 (Store.contextStore (Some "m0"%string) None) Shape.onM0 = TypeError.
Proof.
  apply (linearizeTree_missing_thought_throws 0 (Store.contextStore (Some "m0"%string) None)
           Shape.onM0); vm_compute; reflexivity.
Defined.


(** The store [twoLevels]: the call on [b], entered with the index 1 at
    depth 1, gives [b1] the index 2 and [b2] the index 4. *)
Lemma linearizeTree_collapsed_children_indexes_witness :
  ∃ out,
    Layout.linearizeTree 2 Store.twoLevels Shape.underB = Ok out
    ∧ Forall2 (fun n i => Layout.indexDescendant n = i) out [2; 4].
Proof.
  destruct (linearizeTree_collapsed_children_indexes 0 Store.twoLevels Shape.underB)
    as (out & Hout & Hthoughts & Hidx).
  - vm_compute. reflexivity.
  - vm_compute. reflexivity.
  - intros c Hc.
    assert (Shape.normalChildren Store.twoLevels Shape.underB
            = [ Store.mkThought "b1" "b" 0 []; Store.mkThought "b2" "b" 1 [] ]%string)
      as Hchildren by (vm_compute; reflexivity).
    rewrite Hchildren in Hc.
    apply elem_of_cons in Hc as [-> | Hc]; [vm_compute; reflexivity|].
    apply list_elem_of_singleton in Hc as ->. vm_compute. reflexivity.
  - exists out. split; [exact Hout|].
    assert (length out = 2%nat) as Hlen.
    { rewrite <- (length_map Layout.thought), Hthoughts. vm_compute. reflexivity. }
    destruct out as [|n1 [|n2 [|? ?]]]; try done.
    constructor; [exact (Hidx 0%nat n1 eq_refl)|].
    constructor; [exact (Hidx 1%nat n2 eq_refl)|constructor].
Defined.

(* ===================================================================== *)
(** * The positioning pass, continued *)
(* ===================================================================== *)

Section PositioningShape.

Import Layout Component.

Variable fontSize : Q.
Variable sizes : gmap string Size.t.
Variable singleLineHeight : Q.

Abbreviation positioned := (treeThoughtsPositioned fontSize sizes singleLineHeight).
Abbreviation position := (positionNode fontSize sizes singleLineHeight).

(** ** The y coordinate *)

Lemma mapFrom_y_sum (treeThoughts l : list TreeThought) :
  ∀ (i k : nat) (yaccum : Q) (widths : gmap string Q) (p : TreeThoughtPositioned),
    mapFrom (position treeThoughts) i l (yaccum, widths) !! k = Some p →
    (y p == yaccum
            + sumQ (map height
                      (advancing k (mapFrom (position treeThoughts) i l (yaccum, widths)))))%Q.
Proof.
  induction l as [|n l IH]; intros i k yaccum widths p; [done|].
  cbn [mapFrom].
  destruct (position treeThoughts (yaccum, widths) n i) as [b [yaccum' widths']] eqn:Estep.
  assert (y b = yaccum ∧ node b = n
          ∧ yaccum' = if isTableCol1 n then yaccum else (yaccum + height b)%Q)
    as (Hy & Hnode & Hnext).
  { unfold positionNode in Estep. injection Estep as <- <- _. simpl.
    by destruct (isTableCol1 n). }
  destruct k as [|k]; cbn [lookup list_lookup].
  - intros [= <-]. rewrite Hy. unfold advancing. simpl. ring.
  - intros Hp. rewrite (IH _ _ _ _ _ Hp). unfold advancing. cbn [take].
    destruct (isTableCol1 n) eqn:Hcol; subst yaccum'.
    + rewrite filter_cons_False by (rewrite Hnode, Hcol; done). reflexivity.
    + rewrite filter_cons_True by (rewrite Hnode, Hcol; done). simpl. ring.
Qed.

(** X18. The y coordinate in closed form. The [y] of a positioned node is
    the sum of the heights of the positioned nodes before it that are not
    in the first column of a table. *)
Theorem positioned_y_sum (treeThoughts : list TreeThought) (i : nat)
    (p : TreeThoughtPositioned) :
  positioned treeThoughts !! i = Some p →
  (y p == sumQ (map height (advancing i (positioned treeThoughts))))%Q.
Proof.
  unfold treeThoughtsPositioned. intros Hp.
  rewrite (mapFrom_y_sum _ _ _ _ _ _ _ Hp). ring.
Qed.

(** ** Heights that are not negative *)

Lemma mapFrom_lookup_invariant {A B St} (P : St → Prop) (f : St → A → nat → B * St)
    (l : list A) :
  (∀ s x j, P s → P (f s x j).2) →
  ∀ (i k : nat) (s : St) (b : B),
    P s → mapFrom f i l s !! k = Some b →
    ∃ x s', P s' ∧ l !! k = Some x ∧ b = (f s' x (i + k)%nat).1.
Proof.
  intros Hstep. induction l as [|x l IH]; intros i k s b Hs; simpl; [done|].
  destruct (f s x i) as [b0 s0] eqn:Ef. destruct k as [|k]; simpl.
  - intros [= <-]. exists x, s. by rewrite Nat.add_0_r, Ef.
  - intros Hk. destruct (IH (S i) k s0 b) as (y0 & s' & Hs' & Hy & ->); [|done|].
    + specialize (Hstep s x i Hs). by rewrite Ef in Hstep.
    + exists y0, s'. by rewrite Nat.add_succ_r.
Qed.

Lemma Qplus_nonneg_nonneg (a b : Q) : (0 <= a)%Q → (0 <= b)%Q → (0 <= a + b)%Q.
Proof.
  intros Ha Hb. apply (Qle_trans _ (0 + 0)); [done|]. by apply Qplus_le_compat.
Qed.

Lemma positioned_height_nonneg (treeThoughts : list TreeThought) (i : nat)
    (p : TreeThoughtPositioned) :
  (0 <= fontSize)%Q → (0 <= singleLineHeight)%Q →
  (∀ k sz, sizes !! k = Some sz → (0 <= Size.height sz)%Q) →
  positioned treeThoughts !! i = Some p → (0 <= height p)%Q.
Proof.
  intros Hfont Hline Hsizes Hp. unfold treeThoughtsPositioned in Hp.
  destruct (mapFrom_lookup _ _ _ _ _ _ Hp) as (n & [yaccum widths] & _ & ->).
  unfold positionNode. cbn [fst height].
  destruct (sizes !! key n) as [sz|] eqn:Hsz; [by apply (Hsizes _ _ Hsz)|].
  match goal with |- (0 <= _ + ?c)%Q => assert (0 <= c)%Q as Hc end.
  { destruct (_ <? 0); [|done]. apply Qle_shift_div_l; [done|].
    by rewrite Qmult_0_l. }
  by apply Qplus_nonneg_nonneg.
Qed.

Lemma sumQ_suffix_nonneg (l1 l2 : list Q) :
  Forall (fun h => 0 <= h)%Q l2 → (sumQ l1 <= sumQ (l1 ++ l2))%Q.
Proof.
  intros Hl2. induction l1 as [|h l1 IH]; simpl.
  - induction Hl2 as [|h l2 Hh _ IH]; simpl; [done|].
    by apply Qplus_nonneg_nonneg.
  - by apply Qplus_le_compat; [apply Qle_refl|].
Qed.

(** X19. Nodes are laid out downwards. When the font size, the
    single-line height and all measured heights are not negative, a later
    positioned node is never above an earlier one. *)
Theorem positioned_y_monotone (treeThoughts : list TreeThought) (i j : nat)
    (p q : TreeThoughtPositioned) :
  (0 <= fontSize)%Q → (0 <= singleLineHeight)%Q →
  (∀ k sz, sizes !! k = Some sz → (0 <= Size.height sz)%Q) →
  (i <= j)%nat →
  positioned treeThoughts !! i = Some p →
  positioned treeThoughts !! j = Some q →
  (y p <= y q)%Q.
Proof.
  intros Hfont Hline Hsizes Hij Hp Hq.
  unfold treeThoughtsPositioned in Hp, Hq.
  rewrite (mapFrom_y_sum _ _ _ _ _ _ _ Hp), (mapFrom_y_sum _ _ _ _ _ _ _ Hq).
  apply Qplus_le_compat; [apply Qle_refl|].
  fold (positioned treeThoughts). unfold advancing.
  replace j with (i + (j - i))%nat by lia.
  rewrite <- take_take_drop, filter_app, map_app.
  apply sumQ_suffix_nonneg.
  apply Forall_forall. intros h (r & -> & Hr)%list_elem_of_fmap.
  apply list_elem_of_filter in Hr as [_ Hr].
  apply list_elem_of_lookup_1 in Hr as [k Hr].
  rewrite lookup_take_Some in Hr. destruct Hr as [Hr _].
  rewrite lookup_drop in Hr. by apply (positioned_height_nonneg _ _ _ Hfont Hline Hsizes Hr).
Qed.

(** ** Table column widths *)

Lemma positionNode_widths (treeThoughts : list TreeThought) (yaccum : Q)
    (widths : gmap string Q) (n : TreeThought) (i : nat) :
  (position treeThoughts (yaccum, widths) n i).2.2 = widthsAfter sizes widths n
  ∧ width (position treeThoughts (yaccum, widths) n i).1 = widthsAfter sizes widths n !! parentKey n
  ∧ parentWidth (position treeThoughts (yaccum, widths) n i).1
    = match widthsAfter sizes widths n !! grandparentKey n with
      | Some w => if Qeq_bool w 0 then (fontSize * 10)%Q else Qmin w (fontSize * 10)
      | None => (fontSize * 10)%Q
      end.
Proof. done. Qed.

Lemma widthsAfter_positive (widths : gmap string Q) (n : TreeThought) :
  positiveWidths widths → positiveWidths (widthsAfter sizes widths n).
Proof.
  intros Hpos. unfold widthsAfter, tableCol1Width. destruct (visibleChildrenKeys n) as [keys|]; [|done].
  destruct (Qlt_le_dec _ _) as [Hlt|_]; [|done].
  intros k w. destruct (decide (key n = k)) as [<-|Hne].
  - rewrite lookup_insert_eq. by intros [= <-].
  - rewrite lookup_insert_ne by done. apply Hpos.
Qed.

(** X20. Table widths are positive and capped. With a positive font
    size, the [parentWidth] of every positioned node is positive and at
    most ten times the font size, and a [width], when a positioned node
    has one, is positive. *)
Theorem positioned_widths (treeThoughts : list TreeThought) (i : nat)
    (p : TreeThoughtPositioned) :
  (0 < fontSize)%Q →
  positioned treeThoughts !! i = Some p →
  (0 < parentWidth p)%Q
  ∧ (parentWidth p <= fontSize * 10)%Q
  ∧ (∀ w, width p = Some w → (0 < w)%Q).
Proof.
  intros Hfont Hp. unfold treeThoughtsPositioned in Hp.
  assert (∀ (s : Q * gmap string Q) n j,
            positiveWidths s.2 → positiveWidths (position treeThoughts s n j).2.2) as Hstep.
  { intros [yaccum widths] n j Hpos.
    destruct (positionNode_widths treeThoughts yaccum widths n j) as (-> & _).
    by apply widthsAfter_positive. }
  assert (positiveWidths (0%Q, ∅ : gmap string Q).2) as Hinit.
  { intros k w. cbn [snd]. by rewrite lookup_empty. }
  destruct (mapFrom_lookup_invariant _ _ _ Hstep _ _ _ _ Hinit Hp)
    as (n & [yaccum widths] & Hpos & _ & ->).
  destruct (positionNode_widths treeThoughts yaccum widths n (0 + i))
    as (_ & -> & ->).
  apply (widthsAfter_positive _ n) in Hpos.
  assert (0 < fontSize * 10)%Q as Hmax.
  { rewrite <- (Qmult_0_l 10). by apply Qmult_lt_compat_r. }
  split; [|split].
  - destruct (widthsAfter sizes widths n !! grandparentKey n) as [w|] eqn:Hw; [|done].
    destruct (Qeq_bool w 0); [done|]. apply Q.min_glb_lt; [by apply (Hpos _ _ Hw)|done].
  - destruct (widthsAfter sizes widths n !! grandparentKey n) as [w|] eqn:Hw; [|apply Qle_refl].
    destruct (Qeq_bool w 0); [apply Qle_refl|]. apply Q.le_min_r.
  - intros w Hw. by apply (Hpos _ _ Hw).
Qed.

End PositioningShape.

(** The positioned table: [r2] is at the height of [t] plus the height of
    [v1]; [r1] is in the first column and does not count. *)
Lemma positioned_y_sum_witness :
  ∃ p, Store.tablePositioned !! 3%nat = Some p
       ∧ (Layout.y p == 30 + (136 # 4))%Q.
Proof.
  assert (∃ p, Store.tablePositioned !! 3%nat = Some p) as [p Hp] by (vm_compute; eauto).
  exists p. split; [exact Hp|].
  rewrite (positioned_y_sum 16 Store.tableSizes 30 (Store.outputOf Store.tableStore) 3 p Hp).
  vm_compute. reflexivity.
Defined.

Lemma tableSizes_nonneg (k : string) (sz : Layout.Size.t) :
  Store.tableSizes !! k = Some sz → (0 <= Layout.Size.height sz)%Q.
Proof.
  unfold Store.tableSizes. intros [_ <-]%lookup_singleton_Some. done.
Qed.

(** The positioned table: [r2] is not above [r1]. *)
Lemma positioned_y_monotone_witness :
  ∃ p q, Store.tablePositioned !! 1%nat = Some p
         ∧ Store.tablePositioned !! 3%nat = Some q
         ∧ (Layout.y p <= Layout.y q)%Q.
Proof.
  assert (∃ p, Store.tablePositioned !! 1%nat = Some p) as [p Hp] by (vm_compute; eauto).
  assert (∃ q, Store.tablePositioned !! 3%nat = Some q) as [q Hq] by (vm_compute; eauto).
  exists p, q. split; [exact Hp|]. split; [exact Hq|].
  apply (positioned_y_monotone 16 Store.tableSizes 30 (Store.outputOf Store.tableStore)
           1 3 p q); [done | done | apply tableSizes_nonneg | lia | exact Hp | exact Hq].
Defined.

(** The positioned table: the value [v1] in the second column is placed
    after a first column of a positive width. *)
Lemma positioned_widths_witness :
  ∃ p, Store.tablePositioned !! 2%nat = Some p
       ∧ (0 < Layout.parentWidth p)%Q ∧ (Layout.parentWidth p <= 16 * 10)%Q.
Proof.
  assert (∃ p, Store.tablePositioned !! 2%nat = Some p) as [p Hp] by (vm_compute; eauto).
  exists p. split; [exact Hp|].
  destruct (positioned_widths 16 Store.tableSizes 30 (Store.outputOf Store.tableStore) 2 p)
    as (Hpos & Hcap & _); [done | exact Hp | by split].
Defined.

(* ===================================================================== *)
(** * Positioning a linearized tree *)
(* ===================================================================== *)

Section PositionedLinearized.

Import Layout Shape Component.

Context `{Selectors}.

Variable fontSize : Q.
Variable sizes : gmap string Size.t.
Variable singleLineHeight : Q.

Lemma mapFrom_cliff_sum (l : list TreeThought) :
  ∀ (pre : list TreeThought) (s : Q * gmap string Q) (n : TreeThought),
    List.hd_error l = Some n → stepsUp l →
    sumZ (map (fun p => - cliff p)
            (mapFrom (positionNode fontSize sizes singleLineHeight (pre ++ l))
               (length pre) l s))
    = depth n + 1 + ascents l.
Proof.
  induction l as [|n l IH]; intros pre [yaccum widths] n0 Hhd Hsteps; [done|].
  destruct Hsteps as [Hstep Hsteps]. injection Hhd as <-. cbn [mapFrom].
  destruct (positionNode _ _ _ _ _ n _) as [b s'] eqn:Estep.
  assert (cliff b = match l with
                    | m :: _ => Z.min 0 (depth m - depth n)
                    | [] => - depth n - 1
                    end) as Hcliff.
  { unfold positionNode in Estep. injection Estep as <- _. cbn [cliff].
    rewrite lookup_app_r by lia.
    replace (length pre + 1 - length pre)%nat with 1%nat by lia.
    by destruct l. }
  cbn [map sumZ fold_right]. fold (sumZ (map (fun p => - cliff p)
    (mapFrom (positionNode fontSize sizes singleLineHeight (pre ++ n :: l))
       (S (length pre)) l s'))).
  destruct l as [|m l].
  - rewrite Hcliff. simpl. lia.
  - specialize (IH (pre ++ [n]) s' m eq_refl Hsteps).
    rewrite <- app_assoc, length_app, Nat.add_1_r in IH. cbn [app] in IH.
    rewrite IH, Hcliff. cbn [ascents].
    destruct (depth n <? depth m) eqn:Hdeeper; lia.
Qed.

(** X21. Every level that opens is closed once. For the positioned
    output of a call of [linearizeTree] that is not empty, the cliffs
    add up, in absolute value, to the number of nodes that are followed
    by a deeper node, plus the depth of the call, plus one: the drop
    targets at the cliffs are one for each node with emitted
    descendants and one for each level from the call up to the root. *)
Theorem positioned_cliffs_total (fuel : nat) (state : State) (a : Args.t)
    (out : list TreeThought) :
  linearizeTree fuel state a = Ok out → out ≠ [] →
  sumZ (map (fun p => - cliff p)
          (treeThoughtsPositioned fontSize sizes singleLineHeight out))
  = ascents out + Args.depth a + 1.
Proof.
  intros (_ & Hsteps & Hhead)%linearizeTree_depths Hne.
  destruct out as [|n out]; [done|].
  unfold treeThoughtsPositioned.
  rewrite (mapFrom_cliff_sum (n :: out) [] (0%Q, ∅) n eq_refl Hsteps).
  rewrite (Hhead n eq_refl). lia.
Qed.

End PositionedLinearized.

(** The store [twoLevels]: only [b] is followed by a deeper node, and the
    cliffs 0, 0, 0 and -2 add up to 2. *)
Lemma positioned_cliffs_total_witness :
  Component.sumZ
    (map (fun p => - Layout.cliff p)
       (Layout.treeThoughtsPositioned 16 Store.tableSizes 30 (Store.outputOf Store.twoLevels)))
  = 2.
Proof.
  rewrite (positioned_cliffs_total 16 Store.tableSizes 30 4 Store.twoLevels Layout.Args.default
             (Store.outputOf Store.twoLevels)); vm_compute; [reflexivity..|discriminate].
Defined.

(* ===================================================================== *)
(** * The height of the tree *)
(* ===================================================================== *)

Section TotalsFacts.

Import Layout Shape Component.

Context `{Selectors}.

Variable sizes : gmap string Size.t.
Variable singleLineHeight : Q.

Lemma totals_app (l1 l2 : list TreeThought) :
  totals sizes singleLineHeight (l1 ++ l2)
  = fold_left (addHeight sizes singleLineHeight) l2 (totals sizes singleLineHeight l1).
Proof. unfold totals. by rewrite fold_left_app. Qed.

Lemma addHeight_bounds (l : list TreeThought) :
  (0 <= singleLineHeight)%Q →
  (∀ k sz, sizes !! k = Some sz → (0 <= Size.height sz)%Q) →
  ∀ accum,
    (0 <= spaceAbove accum)%Q → (spaceAbove accum <= totalHeight accum)%Q →
    (0 <= spaceAbove (fold_left (addHeight sizes singleLineHeight) l accum))%Q
    ∧ (spaceAbove (fold_left (addHeight sizes singleLineHeight) l accum)
       <= totalHeight (fold_left (addHeight sizes singleLineHeight) l accum))%Q.
Proof.
  intros Hline Hsizes. induction l as [|n l IH]; intros accum Hspace Htotal; [done|].
  cbn [fold_left]. assert (0 <= heightNext sizes singleLineHeight n)%Q as Hnext.
  { unfold heightNext. destruct (sizes !! key n) as [sz|] eqn:Hsz; [|done].
    destruct (_ || _); [by apply (Hsizes _ _ Hsz)|done]. }
  apply IH; unfold addHeight; cbn [spaceAbove totalHeight].
  - apply Qplus_nonneg_nonneg; [done|]. by destruct (croppedAbove _ _).
  - apply Qplus_le_compat; [done|]. destruct (croppedAbove _ _); [apply Qle_refl|done].
Qed.

(** X22. The cropped space is part of the total. When the single-line
    height and all measured heights are not negative, [spaceAbove] is not
    negative and never exceeds [totalHeight]. *)
Theorem totals_bounds (treeThoughts : list TreeThought) :
  (0 <= singleLineHeight)%Q →
  (∀ k sz, sizes !! k = Some sz → (0 <= Size.height sz)%Q) →
  (0 <= spaceAbove (totals sizes singleLineHeight treeThoughts))%Q
  ∧ (spaceAbove (totals sizes singleLineHeight treeThoughts)
     <= totalHeight (totals sizes singleLineHeight treeThoughts))%Q.
Proof.
  intros Hline Hsizes. by apply addHeight_bounds.
Qed.

Lemma addHeight_below (l : list TreeThought) :
  Forall (fun n => belowCursor n = true) l →
  ∀ accum,
    (spaceAbove (fold_left (addHeight sizes singleLineHeight) l accum)
     == spaceAbove accum)%Q.
Proof.
  induction 1 as [|n l Hn _ IH]; intros accum; [reflexivity|].
  cbn [fold_left]. rewrite IH. unfold addHeight, croppedAbove. cbn [spaceAbove].
  rewrite Hn. destruct (sizes !! key n) as [sz|]; [rewrite andb_false_r|]; ring.
Qed.

(** X23. Only nodes above the cursor are cropped. For the output of a
    call of [linearizeTree], the nodes from the first one flagged
    [belowCursor] on add nothing to [spaceAbove]: it is the [spaceAbove]
    of the nodes before any flagged node. *)
Theorem totals_spaceAbove_before_cursor (fuel : nat) (state : State) (a : Args.t)
    (out : list TreeThought) (i : nat) (n : TreeThought) :
  linearizeTree fuel state a = Ok out →
  out !! i = Some n → belowCursor n = true →
  (spaceAbove (totals sizes singleLineHeight out)
   == spaceAbove (totals sizes singleLineHeight (take i out)))%Q.
Proof.
  intros (Hsorted & _)%linearizeTree_staysBelow Hn Hbelow.
  rewrite <- (take_drop i out) at 1. rewrite totals_app.
  apply addHeight_below. apply Forall_forall.
  intros m [j Hm]%list_elem_of_lookup_1. rewrite lookup_drop in Hm.
  destruct j as [|j].
  - rewrite Nat.add_0_r, Hn in Hm. by injection Hm as <-.
  - apply (StronglySorted_lookup_lt _ _ i (i + S j) n m Hsorted); [lia|done..].
Qed.

End TotalsFacts.

(** The table of the reference store. *)
Lemma totals_bounds_witness :
  (0 <= Component.spaceAbove Component.tableTotals)%Q
  ∧ (Component.spaceAbove Component.tableTotals
     <= Component.totalHeight Component.tableTotals)%Q.
Proof.
  apply (totals_bounds Store.tableSizes 30 (Store.outputOf Store.tableStore));
    [done | apply tableSizes_nonneg].
Defined.

(** The context store with the cursor on [m0/a], the node at position 2:
    the cropped space is that of the two nodes before it. *)
Lemma totals_spaceAbove_before_cursor_witness :
  (Component.spaceAbove
     (Component.totals Component.croppedSizes 30 (Store.outputOf Component.cursorOnA))
   == 40)%Q.
Proof.
  assert (∃ n, Store.outputOf Component.cursorOnA !! 2%nat = Some n
               ∧ Layout.belowCursor n = true) as (n & Hn & Hbelow)
    by (vm_compute; eauto).
  rewrite (totals_spaceAbove_before_cursor Component.croppedSizes 30 4 Component.cursorOnA
             Layout.Args.default (Store.outputOf Component.cursorOnA) 2 n);
    [| vm_compute; reflexivity | exact Hn | exact Hbelow].
  vm_compute. reflexivity.
Defined.

(* ===================================================================== *)
(** * The single-line height *)
(* ===================================================================== *)

Section SingleLineFacts.

Import Layout Component.SingleLine.

Lemma nearEstimate_nearly (est : Q) (sz : Size.t) :
  nearEstimate est sz = true → nearly est (Size.height sz).
Proof.
  unfold nearEstimate, nearly. destruct (Qlt_le_dec _ _) as [Hnear|]; [|done].
  intros _. apply Qabs.Qabs_Qlt_condition in Hnear as [Hlow Hhigh].
  assert (Size.height sz / 2 * 2 == Size.height sz)%Q as Hhalf by field.
  revert Hlow Hhigh Hhalf. generalize (Size.height sz / 2)%Q as half.
  intros half Hlow Hhigh Hhalf. split; Lqa.lra.
Qed.

(** What the memo leaves in the ref was in the ref or is measured now as
    a single line. *)
Lemma singleLineHeight_ref (fontSize : Q) (values : list Size.t) (prev : option Q) (h : Q) :
  (singleLineHeight fontSize values prev).2 = Some h →
  prev = Some h
  ∨ ∃ sz, List.find (nearEstimate (estimatedHeight fontSize)) values = Some sz
          ∧ Size.height sz = h.
Proof.
  unfold singleLineHeight. cbn [snd].
  destruct (List.find _ values) as [sz|]; simpl; [|by left].
  destruct (nonzero _); [|by left]. intros [= <-]. right. by exists sz.
Qed.

Lemma measuredAt_snoc (history : list (Q * list Size.t)) (render : Q * list Size.t) (h : Q) :
  measuredAt history h → measuredAt (history ++ [render]) h.
Proof.
  intros (r & sz & Hr & Hsz & Hh & Hnear). exists r, sz.
  split; [|done]. apply elem_of_app. by left.
Qed.

(** The ref holds a height that was measured as a single line at some
    render. *)
Lemma renders_measuredAt (history : list (Q * list Size.t)) (h : Q) :
  renders history = Some h → measuredAt history h.
Proof.
  revert h. induction history as [|[fontSize values] history IH] using rev_ind;
    intros h; [done|].
  unfold renders. rewrite fold_left_app. cbn [fold_left fst snd].
  fold (renders history).
  intros [Hprev | (sz & Hfind & Hh)]%singleLineHeight_ref.
  - by apply measuredAt_snoc, IH.
  - apply List.find_some in Hfind as [Hin Hnear].
    exists (fontSize, values), sz. split; [|split; [|done]].
    + apply elem_of_app. right. by apply list_elem_of_singleton.
    + by apply list_elem_of_In.
Qed.

Lemma measuredAt_nearly (history : list (Q * list Size.t)) (fontSize h : Q) :
  (∀ render, render ∈ history → (render.1 == fontSize)%Q) →
  measuredAt history h → nearly (estimatedHeight fontSize) h.
Proof.
  intros Hsame (render & sz & Hr & _ & <- & Hnear%nearEstimate_nearly).
  specialize (Hsame render Hr). revert Hnear. unfold nearly, estimatedHeight.
  generalize (Size.height sz) as h. intros h [Hlow Hhigh]. split; Lqa.lra.
Qed.

(** X24. The single-line height and the estimate. At a font size above
    1 the single-line height is either near the estimate for the current
    font size (more than two thirds of [fontSize * 2 - 2] and less than
    twice as much), or no single line is measured now and it is the
    cached height, which was measured as a single line at an earlier
    render and is near the estimate for the font size of that render.
    So the single-line height is near the current estimate as long as
    the font size has not changed; after a change of the font size the
    cached height is used as it is, near the current estimate or not. *)
Theorem singleLineHeight_near_estimate (history : list (Q * list Size.t)) (fontSize : Q)
    (values : list Size.t) :
  (1 < fontSize)%Q →
  (nearly (estimatedHeight fontSize) (singleLineHeight fontSize values (renders history)).1
   ∨ (List.find (nearEstimate (estimatedHeight fontSize)) values = None
      ∧ renders history = Some (singleLineHeight fontSize values (renders history)).1
      ∧ measuredAt history (singleLineHeight fontSize values (renders history)).1))
  ∧ ((∀ render, render ∈ history → (render.1 == fontSize)%Q) →
     nearly (estimatedHeight fontSize)
       (singleLineHeight fontSize values (renders history)).1).
Proof.
  intros Hfont.
  assert (nearly (estimatedHeight fontSize) (estimatedHeight fontSize)) as Hest.
  { unfold nearly, estimatedHeight. split; Lqa.lra. }
  assert (nearly (estimatedHeight fontSize)
            (singleLineHeight fontSize values (renders history)).1
          ∨ (List.find (nearEstimate (estimatedHeight fontSize)) values = None
             ∧ renders history
               = Some (singleLineHeight fontSize values (renders history)).1
             ∧ measuredAt history
                 (singleLineHeight fontSize values (renders history)).1)) as Hcases.
  { pose proof (renders_measuredAt history) as Href.
    unfold singleLineHeight. cbn [fst].
    destruct (List.find _ values) as [sz|] eqn:Hfind; simpl.
    - left. apply List.find_some in Hfind as [_ Hnear%nearEstimate_nearly].
      destruct (nonzero (Size.height sz)) eqn:Hnz; [by rewrite Hnz|].
      destruct (renders history) as [h|] eqn:Hprev; [|done].
      destruct (nonzero h) eqn:Hh; [|done].
      revert Hnz Hnear. unfold nonzero, nearly. rewrite negb_false_iff.
      intros Hzero%Qeq_bool_iff [Hlow Hhigh]. exfalso. Lqa.lra.
    - destruct (renders history) as [h|] eqn:Hprev; [|by left].
      destruct (nonzero h); [|by left]. right. split; [done|]. split; [done|].
      by apply Href. }
  split; [exact Hcases|]. intros Hsame.
  destruct Hcases as [Hnear | (_ & _ & Hmeasured)]; [done|].
  by apply (measuredAt_nearly history).
Qed.

(** After a change of the font size the cached height is stale: measured
    as 30 at the font size 16, it is still the single-line height at the
    font size 50 when no single line is measured there, far below two
    thirds of the estimate 98. *)
Lemma singleLineHeight_stale_after_font_change :
  (singleLineHeight 50 [] (renders atFontSize16)).1 = 30%Q
  ∧ estimatedHeight 50 = 98%Q
  ∧ ¬ nearly (estimatedHeight 50) (singleLineHeight 50 [] (renders atFontSize16)).1.
Proof.
  split; [by vm_compute|]. split; [by vm_compute|].
  intros [Hlow _]. vm_compute in Hlow. discriminate Hlow.
Qed.

End SingleLineFacts.

(** A height of 30 is measured at the font size 16 and the font size
    changes to 50: nothing measured is a single line there, and the
    single-line height is the cached 30, measured at the earlier render. *)
Lemma singleLineHeight_near_estimate_witness :
  (Component.SingleLine.singleLineHeight 50 []
     (Component.SingleLine.renders Component.SingleLine.atFontSize16)).1 = 30%Q
  ∧ Component.SingleLine.measuredAt Component.SingleLine.atFontSize16 30.
Proof.
  destruct (singleLineHeight_near_estimate Component.SingleLine.atFontSize16 50 [])
    as [[Hnear | (_ & _ & Hmeasured)] _]; [done| |].
  - destruct Hnear as [Hlow _]. vm_compute in Hlow. discriminate Hlow.
  - split; [by vm_compute|]. exact Hmeasured.
Defined.

(* ===================================================================== *)
(** * useSizeTracking *)
(* ===================================================================== *)

Section SizeTrackingFacts.

Import Layout SizeTracking.

(** ** The registered timeouts *)

Lemma clearTimeout_tracked (o : option nat) (h : Hook) :
  tracked h → tracked (clearTimeout o h).
Proof.
  intros (Hpending & Hbelow & Hinj). destruct o as [t|]; [|done].
  split; [|done]. cbn [clearTimeout pending sizeRemovalTimeouts].
  intros t' k [_ Ht']%lookup_delete_Some. by apply Hpending.
Qed.

(** Once the registered timeout of a key is cleared, no timeout is
    pending for the key. *)
Lemma clearTimeout_registered (k : string) (h : Hook) :
  tracked h →
  ∀ t, pending (clearTimeout (sizeRemovalTimeouts h !! k) h) !! t ≠ Some k.
Proof.
  intros (Hpending & _) t Ht.
  destruct (sizeRemovalTimeouts h !! k) as [t0|] eqn:Hreg; simpl in Ht.
  - apply lookup_delete_Some in Ht as [Hne Ht]. apply Hpending in Ht. congruence.
  - apply Hpending in Ht. congruence.
Qed.

Lemma clearTimeout_pending (o : option nat) (h : Hook) (t : nat) (k : string) :
  pending (clearTimeout o h) !! t = Some k → pending h !! t = Some k.
Proof.
  destruct o as [t0|]; [|done]. cbn [clearTimeout pending].
  by intros [_ Ht]%lookup_delete_Some.
Qed.

Lemma clearTimeout_fields (o : option nat) (h : Hook) :
  sizes (clearTimeout o h) = sizes h
  ∧ unmounted (clearTimeout o h) = unmounted h
  ∧ sizeRemovalTimeouts (clearTimeout o h) = sizeRemovalTimeouts h
  ∧ nextTimeout (clearTimeout o h) = nextTimeout h.
Proof. by destruct o. Qed.

Lemma removeSize_tracked (k : string) (h : Hook) : tracked h → tracked (removeSize k h).
Proof.
  intros Htracked. pose proof (clearTimeout_registered k h Htracked) as Hnone.
  pose proof (clearTimeout_tracked (sizeRemovalTimeouts h !! k) h Htracked)
    as (Hpending & Hbelow & Hinj).
  unfold removeSize, tracked. cbn [pending sizeRemovalTimeouts nextTimeout].
  set (h1 := clearTimeout (sizeRemovalTimeouts h !! k) h) in *.
  split; [|split].
  - intros t k0 [[<- <-] | [Hne Ht]]%lookup_insert_Some.
    + by rewrite lookup_insert_eq.
    + rewrite lookup_insert_ne by (intros <-; by apply (Hnone t)). by apply Hpending.
  - intros k0 t [[<- <-] | [Hne Ht]]%lookup_insert_Some; [lia|].
    apply Hbelow in Ht. lia.
  - intros k0 k0' t [[<- <-] | [Hne Ht]]%lookup_insert_Some
                    [[<- Heq] | [Hne' Ht']]%lookup_insert_Some; try done.
    + apply Hbelow in Ht'. lia.
    + apply Hbelow in Ht. lia.
    + by apply (Hinj _ _ t).
Qed.

Lemma setSize_tracked (m : Measurement) (h : Hook) : tracked h → tracked (setSize m h).
Proof.
  intros Htracked. unfold setSize. destruct (height m) as [hgt|];
    [|by apply removeSize_tracked].
  pose proof (clearTimeout_registered (key m) h Htracked) as Hnone.
  pose proof (clearTimeout_tracked (sizeRemovalTimeouts h !! key m) h Htracked)
    as (Hpending & Hbelow & Hinj).
  unfold tracked. cbn [pending sizeRemovalTimeouts nextTimeout].
  set (h1 := clearTimeout (sizeRemovalTimeouts h !! key m) h) in *.
  split; [|split].
  - intros t k Ht. rewrite lookup_delete_ne by (intros <-; by apply (Hnone t)).
    by apply Hpending.
  - intros k t [_ Ht]%lookup_delete_Some. exact (Hbelow k t Ht).
  - intros k k' t Ht Ht'.
    apply lookup_delete_Some in Ht as [_ Ht]. apply lookup_delete_Some in Ht' as [_ Ht'].
    exact (Hinj k k' t Ht Ht').
Qed.

Lemma fire_tracked (t : nat) (h : Hook) : tracked h → tracked (fire t h).
Proof.
  intros (Hpending & Hbelow & Hinj). unfold fire.
  destruct (pending h !! t) as [k|]; [|done].
  split; [|done]. cbn [pending sizeRemovalTimeouts].
  intros t' k' [_ Ht']%lookup_delete_Some. by apply Hpending.
Qed.

Lemma step_tracked (h : Hook) (e : Event) : tracked h → tracked (step h e).
Proof.
  destruct e as [m|t|]; simpl;
    [apply setSize_tracked | apply fire_tracked | done].
Qed.

Lemma run_tracked (es : list Event) (h : Hook) : tracked h → tracked (run es h).
Proof.
  revert h. induction es as [|e es IH]; intros h Hh; [done|].
  apply IH. by apply step_tracked.
Qed.

Lemma initial_tracked : tracked initial.
Proof. by repeat split. Qed.

Lemma run_app (es1 es2 : list Event) (h : Hook) :
  run (es1 ++ es2) h = run es2 (run es1 h).
Proof. unfold run. by rewrite fold_left_app. Qed.

Lemma run_invariant (P : Hook → Prop) (Q : Event → Prop) (es : list Event) :
  (∀ h e, P h → Q e → P (step h e)) →
  Forall Q es → ∀ h, P h → P (run es h).
Proof.
  intros Hstep. induction 1 as [|e es He _ IH]; intros h Hh; [done|].
  apply IH. by apply Hstep.
Qed.

(** X25. One pending removal for each key. After any sequence of calls
    of [setSize], timeouts that fire and an unmount, two pending
    timeouts never remove the same key. *)
Theorem pending_removal_unique (es : list Event) (t t' : nat) (k : string) :
  pending (run es initial) !! t = Some k →
  pending (run es initial) !! t' = Some k →
  t = t'.
Proof.
  destruct (run_tracked es initial initial_tracked) as (Hpending & _).
  intros Ht%Hpending Ht'%Hpending. congruence.
Qed.

(** ** A measured size stays *)

Lemma setSize_settled (m : Measurement) (hgt : Q) (h : Hook) :
  tracked h → height m = Some hgt →
  settled (key m) (setSize m h) ∧ records m hgt (setSize m h).
Proof.
  intros Htracked Hm. split; [split; [by apply setSize_tracked|]|].
  - unfold setSize. rewrite Hm. cbn [pending]. by apply clearTimeout_registered.
  - unfold setSize, records. rewrite Hm. cbn [sizes].
    destruct (clearTimeout_fields (sizeRemovalTimeouts h !! key m) h) as (-> & _).
    unfold unchanged. destruct (sizes h !! key m) as [old|] eqn:Hold.
    + destruct (Qeq_bool hgt (Size.height old)) eqn:Hsame; simpl.
      * destruct (Bool.eqb (isVisible m) (Size.isVisible old)) eqn:Hvis.
        -- exists old. split; [done|]. split.
           ++ symmetry. by apply Qeq_bool_iff.
           ++ symmetry. by apply Bool.eqb_prop.
        -- rewrite lookup_insert_eq. by eexists.
      * rewrite lookup_insert_eq. by eexists.
    + rewrite lookup_insert_eq. by eexists.
Qed.

(** An event that is not a call for the key leaves the size of a settled
    key alone. *)
Lemma step_settled_other (k : string) (h : Hook) (e : Event) :
  settled k h → ¬ setsKey k e →
  settled k (step h e) ∧ sizes (step h e) !! k = sizes h !! k.
Proof.
  intros [Htracked Hnone] He. split; [split; [by apply step_tracked|]|].
  - destruct e as [m|t|]; simpl in *; [|unfold fire|done].
    + unfold setSize, removeSize. destruct (height m); cbn [pending].
      * intros t Ht%clearTimeout_pending. by apply (Hnone t).
      * intros t [[_ Hk] | [_ Ht%clearTimeout_pending]]%lookup_insert_Some;
          [done|by apply (Hnone t)].
    + destruct (pending h !! t); [|done]. cbn [pending].
      intros t' [_ Ht']%lookup_delete_Some. by apply (Hnone t').
  - destruct e as [m|t|]; simpl in *; [|unfold fire|done].
    + unfold setSize, removeSize. destruct (height m); cbn [sizes];
        destruct (clearTimeout_fields (sizeRemovalTimeouts h !! key m) h) as (-> & _);
        [|done].
      destruct (unchanged _ _ _ _); [done|]. by rewrite lookup_insert_ne.
    + destruct (pending h !! t) as [k'|] eqn:Ht; [|done]. cbn [sizes].
      destruct (unmounted h); [done|]. rewrite lookup_delete_ne; [done|].
      intros ->. by apply (Hnone t).
Qed.

(** A call for the key with a height keeps the key settled and in
    [sizes]. *)
Lemma step_settled_measured (k : string) (h : Hook) (e : Event) :
  settled k h → is_Some (sizes h !! k) → ¬ removesKey k e →
  settled k (step h e) ∧ is_Some (sizes (step h e) !! k).
Proof.
  intros Hsettled Hsome He.
  assert (¬ setsKey k e → settled k (step h e) ∧ is_Some (sizes (step h e) !! k))
    as Hother.
  { intros Hno. destruct (step_settled_other k h e Hsettled Hno) as [Hs Heq].
    split; [done|by rewrite Heq]. }
  destruct e as [m|t|]; [|by apply Hother..].
  destruct (decide (key m = k)) as [<-|Hne]; [|by apply Hother].
  destruct (height m) as [hgt|] eqn:Hm; [|by destruct He].
  destruct Hsettled as [Htracked _].
  destruct (setSize_settled m hgt h Htracked Hm) as [? (sz & Hsz & _)].
  cbn [step]. rewrite Hsz. split; [done|by eexists].
Qed.

(** X26. A measured size is kept. Once [setSize] has been called with a
    height for a key, the key has a size as long as [setSize] is not
    called with the height [null] for it, whatever timeouts fire in
    between; and as long as [setSize] is not called for the key at all,
    the size has the height and the visibility of the call. *)
Theorem setSize_measured_stays (before after : list Event) (m : Measurement) (hgt : Q) :
  height m = Some hgt →
  (Forall (fun e => ¬ removesKey (key m) e) after →
   is_Some (sizes (run (before ++ SetSize m :: after) initial) !! key m))
  ∧ (Forall (fun e => ¬ setsKey (key m) e) after →
     records m hgt (run (before ++ SetSize m :: after) initial)).
Proof.
  intros Hm. rewrite run_app. cbn [run fold_left step].
  fold (run after (setSize m (run before initial))).
  destruct (setSize_settled m hgt (run before initial)
              (run_tracked before initial initial_tracked) Hm) as [Hsettled Hrec].
  split; intros Hafter.
  - apply (run_invariant
             (fun h => settled (key m) h ∧ is_Some (sizes h !! key m)) _ after)
      with (2 := Hafter).
    + intros h e [? ?] ?. by apply step_settled_measured.
    + destruct Hrec as (sz & -> & _). split; [done|by eexists].
  - apply (run_invariant (fun h => settled (key m) h ∧ records m hgt h) _ after)
      with (2 := Hafter); [|done].
    intros h e [Hh (sz & Hsz & ?)] He.
    destruct (step_settled_other (key m) h e Hh He) as [? Heq].
    split; [done|]. exists sz. by rewrite Heq.
Qed.

(** ** Removal is debounced *)

Lemma removeSize_pending (k : string) (h : Hook) :
  pending (removeSize k h) !! nextTimeout h = Some k
  ∧ sizes (removeSize k h) = sizes h
  ∧ unmounted (removeSize k h) = unmounted h.
Proof.
  unfold removeSize. cbn [pending sizes unmounted].
  destruct (clearTimeout_fields (sizeRemovalTimeouts h !! k) h) as (-> & -> & _ & ->).
  by rewrite lookup_insert_eq.
Qed.

(** While the timeout [t] of the key is pending, an event other than the
    timeout and a call for the key leaves it pending and the size of the
    key alone. *)
Lemma step_waiting (k : string) (t : nat) (h : Hook) (e : Event) :
  tracked h → pending h !! t = Some k →
  ¬ setsKey k e → e ≠ Timeout t →
  pending (step h e) !! t = Some k ∧ sizes (step h e) !! k = sizes h !! k.
Proof.
  intros Htracked Ht He Hne. pose proof Htracked as (Hpending & Hbelow & Hinj).
  pose proof (Hpending _ _ Ht) as Hreg.
  assert (∀ k', k' ≠ k →
            pending (clearTimeout (sizeRemovalTimeouts h !! k') h) !! t = Some k) as Hclear.
  { intros k' Hk'. destruct (sizeRemovalTimeouts h !! k') as [t'|] eqn:Hreg'; [|done].
    simpl. rewrite lookup_delete_ne; [done|]. intros ->. by apply Hk', (Hinj _ _ t). }
  destruct e as [m|t'|]; simpl in *; [|unfold fire|done].
  - unfold setSize, removeSize.
    destruct (clearTimeout_fields (sizeRemovalTimeouts h !! key m) h)
      as (Hsizes & _ & _ & Hnext).
    destruct (height m); cbn [pending sizes]; rewrite Hsizes.
    + split; [by apply Hclear|]. destruct (unchanged _ _ _ _); [done|].
      by rewrite lookup_insert_ne.
    + split; [|done]. rewrite Hnext, lookup_insert_ne; [by apply Hclear|].
      apply Hbelow in Hreg. lia.
  - destruct (pending h !! t') as [k'|] eqn:Ht'; [|done]. cbn [pending sizes].
    assert (t' ≠ t) as Htt by congruence.
    split; [by rewrite lookup_delete_ne|].
    destruct (unmounted h); [done|]. rewrite lookup_delete_ne; [done|].
    intros ->. apply Hpending in Ht'. congruence.
Qed.

(** X27. A removal waits for its timeout. After [setSize] has been called
    with the height [null] for a key, the size of the key is what it was
    until the timeout of that call fires or [setSize] is called for the
    key again, whatever other calls are made and other timeouts fire. *)
Theorem removeSize_waits (before after : list Event) (m : Measurement) :
  height m = None →
  Forall (fun e => ¬ setsKey (key m) e
                   ∧ e ≠ Timeout (nextTimeout (run before initial))) after →
  sizes (run (before ++ SetSize m :: after) initial) !! key m
  = sizes (run before initial) !! key m.
Proof.
  intros Hm Hafter. rewrite run_app. cbn [run fold_left step].
  fold (run after (setSize m (run before initial))).
  set (h0 := run before initial) in *.
  assert (tracked h0) as Htracked by apply run_tracked, initial_tracked.
  destruct (removeSize_pending (key m) h0) as (Hpending & Hsizes & _).
  apply (run_invariant
           (fun h => tracked h ∧ pending h !! nextTimeout h0 = Some (key m)
                     ∧ sizes h !! key m = sizes h0 !! key m) _ after)
    with (2 := Hafter).
  - intros h e (Hh & Ht & Heq) [He Hne].
    destruct (step_waiting _ _ h e Hh Ht He Hne) as [? ->].
    split; [by apply step_tracked|done].
  - unfold setSize. rewrite Hm. split; [by apply removeSize_tracked|].
    split; [done|by rewrite Hsizes].
Qed.

Lemma run_mounted (es : list Event) :
  Forall (fun e => e ≠ Unmount) es →
  ∀ h, unmounted (run es h) = unmounted h.
Proof.
  induction 1 as [|e es He _ IH]; intros h; [done|].
  cbn [run fold_left]. fold (run es (step h e)). rewrite IH.
  destruct e as [m|t|]; simpl; [|unfold fire|done].
  - unfold setSize, removeSize. destruct (height m); cbn [unmounted];
      by destruct (clearTimeout_fields (sizeRemovalTimeouts h !! key m) h) as (_ & -> & _).
  - by destruct (pending h !! t).
Qed.

(** When the key is gone or its timeout [t] is pending, the key is gone
    once [t] has fired. *)
Lemma fire_leaving (k : string) (t : nat) (h : Hook) :
  unmounted h = false →
  sizes h !! k = None ∨ pending h !! t = Some k →
  sizes (fire t h) !! k = None.
Proof.
  intros Hmounted Hk. unfold fire. destruct (pending h !! t) as [k'|] eqn:Ht.
  - cbn [sizes]. rewrite Hmounted. destruct Hk as [Hk|Hk].
    + by apply lookup_delete_None; right.
    + injection Hk as ->. by rewrite lookup_delete_eq.
  - by destruct Hk.
Qed.

(** The key is gone or its timeout [t] is pending. *)
Lemma step_leaving (k : string) (t : nat) (h : Hook) (e : Event) :
  tracked h → unmounted h = false →
  sizes h !! k = None ∨ pending h !! t = Some k →
  ¬ setsKey k e →
  sizes (step h e) !! k = None ∨ pending (step h e) !! t = Some k.
Proof.
  intros Htracked Hmounted Hk He.
  assert (∀ e', ¬ setsKey k e' → sizes h !! k = None → sizes (step h e') !! k = None)
    as Hgone.
  { intros e' He' Hnone. destruct e' as [m|t'|]; simpl in *; [|unfold fire|done].
    - unfold setSize, removeSize.
      destruct (clearTimeout_fields (sizeRemovalTimeouts h !! key m) h) as (Hsizes & _).
      destruct (height m); cbn [sizes]; rewrite Hsizes; [|done].
      destruct (unchanged _ _ _ _); [done|]. by rewrite lookup_insert_ne.
    - destruct (pending h !! t'); [|done]. cbn [sizes].
      destruct (unmounted h); [done|]. by apply lookup_delete_None; right. }
  assert (e ≠ Timeout t →
          sizes (step h e) !! k = None ∨ pending (step h e) !! t = Some k) as Hother.
  { intros Hne. destruct Hk as [Hk|Hk]; [left; by apply Hgone|].
    right. by apply step_waiting. }
  destruct e as [m|t'|]; [by apply Hother| |by apply Hother].
  destruct (decide (t' = t)) as [->|Hne]; [|apply Hother; congruence].
  left. by apply fire_leaving.
Qed.

(** X28. A removal happens at its timeout. When the hook is not
    unmounted and [setSize] is called with the height [null] for a key,
    and then not called for the key again, the key has no size once the
    timeout of the call has fired. *)
Theorem removeSize_removes (before after : list Event) (m : Measurement) :
  height m = None →
  Forall (fun e => e ≠ Unmount) before →
  Forall (fun e => ¬ setsKey (key m) e ∧ e ≠ Unmount) after →
  sizes (run (before ++ SetSize m :: after
                ++ [Timeout (nextTimeout (run before initial))]) initial) !! key m
  = None.
Proof.
  intros Hm Hbefore Hafter.
  rewrite run_app. cbn [run fold_left step].
  fold (run (after ++ [Timeout (nextTimeout (run before initial))])
          (setSize m (run before initial))).
  rewrite run_app.
  set (h0 := run before initial) in *.
  assert (tracked h0) as Htracked by apply run_tracked, initial_tracked.
  assert (unmounted h0 = false) as Hmounted by (unfold h0; by rewrite run_mounted).
  destruct (removeSize_pending (key m) h0) as (Hpending & _ & Hsame).
  assert (tracked (run after (setSize m h0))
          ∧ unmounted (run after (setSize m h0)) = false
          ∧ (sizes (run after (setSize m h0)) !! key m = None
             ∨ pending (run after (setSize m h0)) !! nextTimeout h0 = Some (key m)))
    as (Hh & Hu & Hk).
  { apply (run_invariant
             (fun h => tracked h ∧ unmounted h = false
                       ∧ (sizes h !! key m = None
                          ∨ pending h !! nextTimeout h0 = Some (key m))) _ after)
      with (2 := Hafter).
    - intros h e (Hh & Hu & Hk) [He Hne].
      split; [by apply step_tracked|]. split; [|by apply step_leaving].
      rewrite <- Hu. apply (run_mounted [e]). by constructor.
    - unfold setSize. rewrite Hm. split; [by apply removeSize_tracked|].
      split; [by rewrite Hsame|by right]. }
  cbn [run fold_left step]. by apply fire_leaving.
Qed.

(** X29. Nothing is removed after the unmount. Timeouts that fire after
    the hook is unmounted leave [sizes] as it is. *)
Theorem timeouts_after_unmount (before : list Event) (ts : list nat) :
  sizes (run (before ++ Unmount :: map Timeout ts) initial)
  = sizes (run before initial).
Proof.
  rewrite run_app. cbn [run fold_left step].
  fold (run (map Timeout ts) (unmount (run before initial))).
  change (sizes (run before initial)) with (sizes (unmount (run before initial))).
  assert (unmounted (unmount (run before initial)) = true) as Hu by done.
  revert Hu. generalize (unmount (run before initial)) as h.
  induction ts as [|t ts IH]; intros h Hu; [done|].
  cbn [map run fold_left step]. fold (run (map Timeout ts) (fire t h)).
  assert (sizes (fire t h) = sizes h ∧ unmounted (fire t h) = true) as [Hs Hu'].
  { unfold fire. destruct (pending h !! t); [|done]. cbn [sizes unmounted].
    by rewrite Hu. }
  by rewrite IH, Hs.
Qed.

End SizeTrackingFacts.

(** A removal of [k] requested twice: the second call clears the timeout 1
    of the first, and only the timeout 2 is pending. *)
Lemma pending_removal_unique_witness :
  SizeTracking.pending
    (SizeTracking.run [SizeTracking.SetSize (SizeTracking.removed "k");
                       SizeTracking.SetSize (SizeTracking.removed "k")]
       SizeTracking.initial) !! 2%nat = Some "k"%string
  ∧ 2%nat = 2%nat.
Proof.
  split; [vm_compute; reflexivity|].
  apply (pending_removal_unique
           [SizeTracking.SetSize (SizeTracking.removed "k");
            SizeTracking.SetSize (SizeTracking.removed "k")] 2 2 "k");
    vm_compute; reflexivity.
Defined.

(** [k] is measured; then [j] is removed and its timeout fires. *)
Lemma setSize_measured_stays_witness :
  SizeTracking.records (SizeTracking.measured "k" 40) 40
    (SizeTracking.run
       ([] ++ SizeTracking.SetSize (SizeTracking.measured "k" 40)
           :: [SizeTracking.SetSize (SizeTracking.removed "j"); SizeTracking.Timeout 1])
       SizeTracking.initial).
Proof.
  destruct (setSize_measured_stays []
              [SizeTracking.SetSize (SizeTracking.removed "j"); SizeTracking.Timeout 1]
              (SizeTracking.measured "k" 40) 40 eq_refl) as [_ Hrecords].
  apply Hrecords. repeat constructor; simpl; [discriminate|tauto].
Defined.

(** [k] is measured and then removed; while [j] is measured, the timeout
    of the removal being pending, [k] has its size. *)
Lemma removeSize_waits_witness :
  SizeTracking.sizes (SizeTracking.run SizeTracking.measuredThenRemoved SizeTracking.initial)
    !! "k"%string
  = Some {| Layout.Size.height := 40; Layout.Size.width := None;
            Layout.Size.isVisible := true |}.
Proof.
  change SizeTracking.measuredThenRemoved
    with ([SizeTracking.SetSize (SizeTracking.measured "k" 40)]
            ++ SizeTracking.SetSize (SizeTracking.removed "k")
            :: [SizeTracking.SetSize (SizeTracking.measured "j" 20)]).
  etrans; [|by vm_compute].
  apply (removeSize_waits [SizeTracking.SetSize (SizeTracking.measured "k" 40)]
           [SizeTracking.SetSize (SizeTracking.measured "j" 20)]
           (SizeTracking.removed "k") eq_refl).
  repeat constructor; simpl; discriminate.
Defined.

(** [k] is measured and then removed; once the timeout 1 of the removal
    has fired, [k] has no size. *)
Lemma removeSize_removes_witness :
  SizeTracking.sizes
    (SizeTracking.run
       ([SizeTracking.SetSize (SizeTracking.measured "k" 40)]
          ++ SizeTracking.SetSize (SizeTracking.removed "k")
          :: [] ++ [SizeTracking.Timeout 1])
       SizeTracking.initial) !! "k"%string
  = None.
Proof.
  apply (removeSize_removes [SizeTracking.SetSize (SizeTracking.measured "k" 40)] []
           (SizeTracking.removed "k") eq_refl).
  - repeat constructor. discriminate.
  - constructor.
Defined.
